(** * ProtonMail userscripts: a shallow embedding and its properties

    Two userscripts are modelled:
    - [protonmail-remove-signature.user.js] strips the signature block that
      the webmail inserts into every composer;
    - [protonmail-oldest-first.user.js] forces the inbox to sort oldest
      first, by writing a marker into the URL fragment and clicking through
      the sort menu.

    The scripts are written against the browser: the DOM, URLs and the
    history, timers, promises, mutation observers.  What they use of it is
    modelled as follows.
    - The DOM is a forest of trees whose nodes carry an identity (a handle),
      so that the references a script keeps in local variables ([prev],
      [prevPrev], [br], [signature]) stay valid across mutations.  A node
      that is removed from its parent stays in the forest as the root of a
      tree of its own.
    - Code that calls the DOM runs in a state-and-exception monad over the
      forest; [try]/[catch], optional chaining and [forEach] are combinators
      of that monad.
    - What the environment decides (what [iframe.contentDocument] gives at
      each check, whether a button is rendered when a timer fires, which
      events the event loop runs) is an argument of the model.
    - A promise is modelled by how it settles; its reactions run where the
      chain is built.
    - A function with a counter or a nested call that Rocq cannot see to
      terminate ([checkDoc], [checkURL]) is defined by well-founded
      recursion on the measure that makes it terminate.
    - [injectHideSignatureCSS] is not modelled: what it does shows in how
      the page is rendered (a style rule), not in the DOM the scripts read
      and change. *)

From Stdlib Require Import List String Ascii ZArith Bool Arith Lia Permutation.
From Equations Require Import Equations.
From Equations.Prop Require Import Logic.
Import ListNotations.
Open Scope string_scope.
Open Scope list_scope.
Set Warnings "-register-all".

(** ** The DOM: a forest of identified nodes *)

Definition handle := nat.

(** The node interfaces that matter to the scripts.  An element carries its
    local name, its class list and its attributes. *)
Inductive NodeKind :=
| ElementNode (localName : string) (classList : list string)
    (attributes : list (string * string))
| TextNode (data : string)
| CommentNode (data : string)
| DocumentTypeNode (name : string)
| DocumentNode
| DocumentFragmentNode.

Inductive Tree := Node (nid : handle) (kind : NodeKind) (childNodes : list Tree).

Definition Forest := list Tree.

Definition nid (t : Tree) : handle := match t with Node i _ _ => i end.
Definition kind (t : Tree) : NodeKind := match t with Node _ k _ => k end.
Definition childNodes (t : Tree) : list Tree := match t with Node _ _ cs => cs end.

Definition isElement (k : NodeKind) : bool :=
  match k with ElementNode _ _ _ => true | _ => false end.

Definition isCharacterData (k : NodeKind) : bool :=
  match k with TextNode _ | CommentNode _ => true | _ => false end.

Definition isDocumentType (k : NodeKind) : bool :=
  match k with DocumentTypeNode _ => true | _ => false end.

Definition isDocument (k : NodeKind) : bool :=
  match k with DocumentNode => true | _ => false end.

(** [ParentNode] mixin: documents, fragments and elements. *)
Definition isParentNode (k : NodeKind) : bool :=
  match k with
  | ElementNode _ _ _ | DocumentNode | DocumentFragmentNode => true
  | _ => false
  end.

Definition isElementT (t : Tree) : bool := isElement (kind t).

(** Handles of a tree, in document (pre-)order. *)
Fixpoint ids (t : Tree) : list handle :=
  match t with Node i _ cs => i :: flat_map ids cs end.

Definition idsF (F : Forest) : list handle := flat_map ids F.

(** A handle that no node of the forest uses. *)
Definition fresh (F : Forest) : handle := S (fold_right Nat.max 0 (idsF F)).

(** *** Finding a node *)

(** Where a node sits: its parent (handle and kind) when it has one, its
    siblings to the left and to the right in tree order, and the node. *)
Record Loc := mkLoc {
  loc_parent : option (handle * NodeKind);
  loc_left : list Tree;
  loc_self : Tree;
  loc_right : list Tree
}.

(** Splits a child list at the first child with handle [h]. *)
Fixpoint split_at (h : handle) (l : list Tree) : option (list Tree * Tree * list Tree) :=
  match l with
  | [] => None
  | c :: l' =>
      if Nat.eqb (nid c) h then Some ([], c, l')
      else match split_at h l' with
           | Some (a, x, b) => Some (c :: a, x, b)
           | None => None
           end
  end.

Fixpoint locateT (h : handle) (t : Tree) : option Loc :=
  match t with
  | Node i k cs =>
      match split_at h cs with
      | Some (a, x, b) => Some (mkLoc (Some (i, k)) a x b)
      | None =>
          (fix go (l : list Tree) : option Loc :=
             match l with
             | [] => None
             | c :: l' =>
                 match locateT h c with
                 | Some r => Some r
                 | None => go l'
                 end
             end) cs
      end
  end.

Fixpoint locateF (h : handle) (l : list Tree) : option Loc :=
  match l with
  | [] => None
  | c :: l' =>
      match locateT h c with
      | Some r => Some r
      | None => locateF h l'
      end
  end.

(** A root of the forest has neither parent nor siblings. *)
Definition locate (h : handle) (F : Forest) : option Loc :=
  match split_at h F with
  | Some (_, x, _) => Some (mkLoc None [] x [])
  | None => locateF h F
  end.

(** *** Mutating the forest *)

Definition keeps (h : handle) (t : Tree) : bool := negb (Nat.eqb (nid t) h).

(** Cuts the subtree with handle [h] out of the child lists of [t]. *)
Fixpoint cutT (h : handle) (t : Tree) : Tree :=
  match t with
  | Node i k cs => Node i k (filter (keeps h) (map (cutT h) cs))
  end.

Definition cutF (h : handle) (F : Forest) : Forest := map (cutT h) F.

(** Takes the subtree with handle [h] out of the forest altogether. *)
Definition detach (h : handle) (F : Forest) : Forest :=
  filter (keeps h) (cutF h F).

(** Puts [new] immediately before the child [ref] of a child list. *)
Fixpoint insert_before (ref : handle) (new : Tree) (l : list Tree) : list Tree :=
  match l with
  | [] => []
  | c :: l' =>
      if Nat.eqb (nid c) ref then new :: c :: l'
      else c :: insert_before ref new l'
  end.

(** Puts [new] before the child [ref] of the node [p]. *)
Fixpoint insertT (p ref : handle) (new : Tree) (t : Tree) : Tree :=
  match t with
  | Node i k cs =>
      let cs' := map (insertT p ref new) cs in
      Node i k (if Nat.eqb i p then insert_before ref new cs' else cs')
  end.

Definition insertF (p ref : handle) (new : Tree) (F : Forest) : Forest :=
  map (insertT p ref new) F.

(** *** Selectors

    The scripts use two shapes of selector: a class selector [.name] and a
    type selector with one attribute test [tag[attr="value"]]. *)

Inductive Selector :=
| ClassSelector (className : string)
| TypeAttrSelector (localName attr value : string).

Definition dquote : string := String (ascii_of_nat 34) EmptyString.

(** [s.slice(1)]. *)
Definition slice1 (s : string) : string :=
  match s with EmptyString => EmptyString | String _ r => r end.

(** Splits [s] at the first occurrence of the character [c]. *)
Fixpoint break_at (c : ascii) (s : string) : string * option string :=
  match s with
  | EmptyString => (EmptyString, None)
  | String a r =>
      if Ascii.eqb a c then (EmptyString, Some r)
      else let '(x, y) := break_at c r in (String a x, y)
  end.

Definition parse_selector (s : string) : option Selector :=
  match s with
  | String "."%char cls => Some (ClassSelector cls)
  | _ =>
      match break_at "["%char s with
      | (tag, Some r1) =>
          match break_at "="%char r1 with
          | (attr, Some r2) =>
              match break_at (ascii_of_nat 34) r2 with
              | (EmptyString, Some r3) =>
                  match break_at (ascii_of_nat 34) r3 with
                  | (value, Some "]") => Some (TypeAttrSelector tag attr value)
                  | _ => None
                  end
              | _ => None
              end
          | _ => None
          end
      | _ => None
      end
  end.

Definition contains (l : list string) (c : string) : bool :=
  existsb (String.eqb c) l.

Fixpoint getAttribute (attrs : list (string * string)) (a : string) : option string :=
  match attrs with
  | [] => None
  | (n, v) :: r => if String.eqb n a then Some v else getAttribute r a
  end.

(** [element.matches(selector)] on a node kind; false on non-elements. *)
Definition selects (sel : Selector) (k : NodeKind) : bool :=
  match k with
  | ElementNode tag classes attrs =>
      match sel with
      | ClassSelector c => contains classes c
      | TypeAttrSelector t a v =>
          String.eqb tag t &&
          match getAttribute attrs a with
          | Some v' => String.eqb v' v
          | None => false
          end
      end
  | _ => false
  end.

(** First node of [t], in document order and [t] included, that the
    selector selects. *)
Fixpoint firstMatchT (sel : Selector) (t : Tree) : option Tree :=
  match t with
  | Node i k cs =>
      if selects sel k then Some t
      else (fix go (l : list Tree) : option Tree :=
              match l with
              | [] => None
              | c :: l' =>
                  match firstMatchT sel c with
                  | Some r => Some r
                  | None => go l'
                  end
              end) cs
  end.

Fixpoint firstMatchF (sel : Selector) (l : list Tree) : option Tree :=
  match l with
  | [] => None
  | c :: l' =>
      match firstMatchT sel c with
      | Some r => Some r
      | None => firstMatchF sel l'
      end
  end.

(** All nodes of [t], in document order and [t] included, that the
    selector selects. *)
Fixpoint allMatchesT (sel : Selector) (t : Tree) : list Tree :=
  match t with
  | Node i k cs =>
      (if selects sel k then [t] else []) ++ flat_map (allMatchesT sel) cs
  end.

Definition allMatchesF (sel : Selector) (l : list Tree) : list Tree :=
  flat_map (allMatchesT sel) l.

(** ** Scripts as state-and-exception computations over the DOM *)

Inductive Exn := TypeError | HierarchyRequestError | NotFoundError | SyntaxError.

Inductive Outcome (A : Type) :=
| Val (a : A)
| Throw (e : Exn).
Arguments Val {A} a.
Arguments Throw {A} e.

(** A computation over a state [S] that returns a value or throws. *)
Definition St (S A : Type) : Type := S -> Outcome A * S.

Definition ret {S A} (a : A) : St S A := fun s => (Val a, s).

Definition bind {S A B} (m : St S A) (k : A -> St S B) : St S B :=
  fun s =>
    match m s with
    | (Val a, s') => k a s'
    | (Throw e, s') => (Throw e, s')
    end.

Definition throw {S A} (e : Exn) : St S A := fun s => (Throw e, s).

(** [try { m } catch { h }]: mutations made before the throw stay. *)
Definition try_catch {S A} (m : St S A) (h : Exn -> St S A) : St S A :=
  fun s =>
    match m s with
    | (Val a, s') => (Val a, s')
    | (Throw e, s') => h e s'
    end.

(** [list.forEach(f)]: a throw of [f] ends the iteration. *)
Fixpoint forEach {S A} (l : list A) (f : A -> St S unit) : St S unit :=
  match l with
  | [] => ret tt
  | a :: l' => bind (f a) (fun _ => forEach l' f)
  end.

(** Computations over the DOM. *)
Definition M (A : Type) : Type := St Forest A.

Declare Scope js_scope.
Delimit Scope js_scope with js.
Notation "x <- m ;; k" := (bind m (fun x => k))
  (at level 61, m at next level, right associativity) : js_scope.
Notation "m ;;; k" := (bind m (fun _ => k))
  (at level 61, right associativity) : js_scope.
Open Scope js_scope.

(** [ref?.method()]: nothing happens on a null or undefined reference. *)
Definition optionally {S A} (r : option handle) (f : handle -> St S (option A)) :
  St S (option A) :=
  match r with
  | Some h => f h
  | None => ret None
  end.

Definition optionally_ {S} (r : option handle) (f : handle -> St S unit) : St S unit :=
  match r with
  | Some h => f h
  | None => ret tt
  end.

(** Truthiness of a value that is [undefined] or a boolean. *)
Definition truthy (v : option bool) : bool :=
  match v with Some b => b | None => false end.

(** Runs [f] at the place of the node [h].  A handle that names no node of
    the forest is no object at all: using it throws. *)
Definition withNode {A} (h : handle) (f : Loc -> M A) : M A :=
  fun F =>
    match locate h F with
    | Some l => f l F
    | None => (Throw TypeError, F)
    end.

(** *** The DOM interfaces the scripts call *)

Definition lastElement (l : list Tree) : option handle :=
  option_map nid (find isElementT (rev l)).

Definition firstElement (l : list Tree) : option handle :=
  option_map nid (find isElementT l).

(** [node.previousElementSibling]: elements and character data have it;
    on other nodes the property is undefined. *)
Definition previousElementSibling (h : handle) : M (option handle) :=
  withNode h (fun l =>
    let k := kind (loc_self l) in
    if isElement k || isCharacterData k then ret (lastElement (loc_left l))
    else ret None).

(** [node.firstElementChild]: defined on parent nodes only. *)
Definition firstElementChild (h : handle) : M (option handle) :=
  withNode h (fun l =>
    if isParentNode (kind (loc_self l))
    then ret (firstElement (childNodes (loc_self l)))
    else ret None).

(** [node.classList.contains(c)]: [classList] is undefined off elements. *)
Definition classList_contains (h : handle) (c : string) : M bool :=
  withNode h (fun l =>
    match kind (loc_self l) with
    | ElementNode _ classes _ => ret (contains classes c)
    | _ => throw TypeError
    end).

Inductive Document := OwnerDocument.

(** [node.ownerDocument]: null on a document, the node document otherwise. *)
Definition ownerDocument (h : handle) : M (option Document) :=
  withNode h (fun l =>
    if isDocument (kind (loc_self l)) then ret None else ret (Some OwnerDocument)).

(** [doc.createElement(tag)]: a new element, in no tree yet. *)
Definition createElement (doc : option Document) (tag : string) : M handle :=
  match doc with
  | None => throw TypeError
  | Some _ => fun F => (Val (fresh F), F ++ [Node (fresh F) (ElementNode tag [] []) []])
  end.

(** [node.parentNode]. *)
Definition parentNode (h : handle) : M (option handle) :=
  withNode h (fun l => ret (option_map fst (loc_parent l))).

(** [parent.insertBefore(new, ref)], following the DOM's pre-insertion
    validity steps: the parent must be a document, fragment or element;
    [new] must not contain the parent; [ref] must be a child of the
    parent; a document takes at most one element child and none before a
    doctype.  Only the insertion of an element is modelled (the scripts
    insert nothing but the [br] they create); any other [new] node is
    refused. *)
Definition insertBefore (parent : option handle) (new ref : handle) : M unit :=
  match parent with
  | None => throw TypeError
  | Some p =>
      withNode p (fun lp =>
      withNode new (fun ln =>
      withNode ref (fun lr =>
        if negb (isParentNode (kind (loc_self lp))) then throw HierarchyRequestError
        else if existsb (Nat.eqb p) (ids (loc_self ln)) then throw HierarchyRequestError
        else if negb (match loc_parent lr with
                      | Some (q, _) => Nat.eqb q p
                      | None => false
                      end) then throw NotFoundError
        else if negb (isElement (kind (loc_self ln))) then throw HierarchyRequestError
        else if isDocument (kind (loc_self lp)) &&
                (existsb isElementT (childNodes (loc_self lp))
                 || isDocumentType (kind (loc_self lr))
                 || existsb (fun t => isDocumentType (kind t)) (loc_right lr))
             then throw HierarchyRequestError
        else fun F => (Val tt, insertF p ref (loc_self ln) (detach new F)))))
  end.

(** [node.remove()]: a node with a parent leaves its parent's child list
    and lives on as the root of a tree of its own; documents and fragments
    have no such method. *)
Definition remove (h : handle) : M unit :=
  withNode h (fun l =>
    let k := kind (loc_self l) in
    if isElement k || isCharacterData k || isDocumentType k then
      match loc_parent l with
      | Some _ => fun F => (Val tt, cutF h F ++ [loc_self l])
      | None => ret tt
      end
    else throw TypeError).

(** [node.querySelector(selector)]: the first descendant, in document
    order, that the selector selects; defined on parent nodes only. *)
Definition querySelector (h : handle) (selector : string) : M (option handle) :=
  withNode h (fun l =>
    if negb (isParentNode (kind (loc_self l))) then throw TypeError
    else match parse_selector selector with
         | None => throw SyntaxError
         | Some sel =>
             ret (option_map nid (firstMatchF sel (childNodes (loc_self l))))
         end).

(** [node.querySelectorAll(selector)]. *)
Definition querySelectorAll (h : handle) (selector : string) : M (list handle) :=
  withNode h (fun l =>
    if negb (isParentNode (kind (loc_self l))) then throw TypeError
    else match parse_selector selector with
         | None => throw SyntaxError
         | Some sel =>
             ret (map nid (allMatchesF sel (childNodes (loc_self l))))
         end).

(** [node.classList]: undefined off elements. *)
Definition classList (h : handle) : M (option (list string)) :=
  withNode h (fun l =>
    match kind (loc_self l) with
    | ElementNode _ classes _ => ret (Some classes)
    | _ => ret None
    end).

(** [node.matches?.(selector)]: only elements have the method. *)
Definition matches_opt (h : handle) (selector : string) : M (option bool) :=
  withNode h (fun l =>
    if isElement (kind (loc_self l)) then
      match parse_selector selector with
      | None => throw SyntaxError
      | Some sel => ret (Some (selects sel (kind (loc_self l))))
      end
    else ret None).

(** [node.querySelectorAll?.(selector)]: only parent nodes have the method. *)
Definition querySelectorAll_opt (h : handle) (selector : string) : M (option (list handle)) :=
  withNode h (fun l =>
    if isParentNode (kind (loc_self l)) then
      match parse_selector selector with
      | None => throw SyntaxError
      | Some sel => ret (Some (map nid (allMatchesF sel (childNodes (loc_self l)))))
      end
    else ret None).

(** [node.nodeType]. *)
Definition nodeTypeOf (k : NodeKind) : Z :=
  match k with
  | ElementNode _ _ _ => 1
  | TextNode _ => 3
  | CommentNode _ => 8
  | DocumentNode => 9
  | DocumentTypeNode _ => 10
  | DocumentFragmentNode => 11
  end%Z.

Definition nodeType (h : handle) : M Z :=
  withNode h (fun l => ret (nodeTypeOf (kind (loc_self l)))).

(** [Node.ELEMENT_NODE] *)
Definition ELEMENT_NODE : Z := 1%Z.

(** *** The JavaScript values a guard expression ranges over *)

Inductive JsValue :=
| JsUndefined
| JsNull
| JsBoolean (b : bool)
| JsNumber (z : Z)
| JsString (s : string)
| JsObject (h : handle).

Definition ToBoolean (v : JsValue) : bool :=
  match v with
  | JsUndefined | JsNull => false
  | JsBoolean b => b
  | JsNumber z => negb (Z.eqb z 0)
  | JsString s => negb (String.eqb s "")
  | JsObject _ => true
  end.

(** The unary [!]. *)
Definition js_not (v : JsValue) : JsValue := JsBoolean (negb (ToBoolean v)).

(** The strict equality [===]: values of different types are never equal. *)
Definition strict_equals (a b : JsValue) : bool :=
  match a, b with
  | JsUndefined, JsUndefined => true
  | JsNull, JsNull => true
  | JsBoolean x, JsBoolean y => Bool.eqb x y
  | JsNumber x, JsNumber y => Z.eqb x y
  | JsString x, JsString y => String.eqb x y
  | JsObject x, JsObject y => Nat.eqb x y
  | _, _ => false
  end.

(** *** Mutation observers and promises *)

Record MutationRecord := mkMutation { addedNodes : list handle }.

(** The observers the scripts have attached, by what they observe. *)
Inductive Observer :=
| ComposerObserver
| SignatureObserver (iframeDoc : handle).


(** A page: its DOM and the observers attached so far. *)
Record Page := mkPage { dom : Forest; observers : list Observer }.

Definition liftDom {A} (m : M A) : St Page A :=
  fun pg => let '(o, F) := m (dom pg) in (o, mkPage F (observers pg)).

(** [observer.observe(target, options)] *)
Definition observe (o : Observer) : St Page unit :=
  fun pg => (Val tt, mkPage (dom pg) (observers pg ++ [o])).

Inductive Reason :=
| ErrorMessage (message : string)
| Thrown (e : Exn).

(** A settled promise. *)
Inductive Settled (A : Type) :=
| Fulfilled (a : A)
| Rejected (r : Reason).
Arguments Fulfilled {A} a.
Arguments Rejected {A} r.

(** [promise.then(f)]: a throw of [f] rejects the new promise. *)
Definition then_ {A} (p : Settled A) (onFulfilled : A -> St Page unit)
  : St Page (Settled unit) :=
  match p with
  | Fulfilled a =>
      fun pg =>
        match onFulfilled a pg with
        | (Val _, pg') => (Val (Fulfilled tt), pg')
        | (Throw e, pg') => (Val (Rejected (Thrown e)), pg')
        end
  | Rejected r => ret (Rejected r)
  end.

(** [promise.catch(f)] *)
Definition catch_ (p : Settled unit) (onRejected : Reason -> St Page unit)
  : St Page (Settled unit) :=
  match p with
  | Fulfilled a => ret (Fulfilled a)
  | Rejected r =>
      fun pg =>
        match onRejected r pg with
        | (Val _, pg') => (Val (Fulfilled tt), pg')
        | (Throw e, pg') => (Val (Rejected (Thrown e)), pg')
        end
  end.

(** What [iframe.contentDocument] gives at one check. *)
Inductive ContentDocument :=
| AccessThrows
| NoDocument
| DocumentWith (doc : handle) (readyState : string).

(** The environment of the composer watcher: for each iframe, what its
    [contentDocument] gives at the first, second, ... check. *)
Definition Frames := handle -> nat -> ContentDocument.

(** * protonmail-remove-signature.user.js *)

Module RemoveSignature.

(** [CONFIG] *)
Module CONFIG.
Module selectors.
Definition composer : string :=
  ("iframe[title=" ++ dquote ++ "Email composer" ++ dquote ++ "]")%string.
Definition signatureBlock : string := ".protonmail_signature_block".
Definition protonSignature : string := ".protonmail_signature_block-proton".
Definition emptySignature : string := ".protonmail_signature_block-empty".
End selectors.
Definition maxInitAttempts : nat := 50.
Definition initRetryDelay : nat := 50.
End CONFIG.

(** The body of the [try] block of [removeSignature]. *)
Definition removeSignature_try (node : handle) : M bool :=
  prev <- previousElementSibling node ;;
  first <- firstElementChild node ;;
  isEmptySignature <-
    optionally first (fun f =>
      b <- classList_contains f (slice1 CONFIG.selectors.emptySignature) ;;
      ret (Some b)) ;;
  doc <- ownerDocument node ;;
  br <- createElement doc "br" ;;
  parent <- parentNode node ;;
  insertBefore parent br node ;;;
  (if negb (truthy isEmptySignature) then
     optionally_ prev remove
   else
     prevPrev <- optionally prev previousElementSibling ;;
     optionally_ prevPrev remove ;;;
     optionally_ prev remove) ;;;
  signature <- querySelector node CONFIG.selectors.protonSignature ;;
  match signature with
  | Some s => remove s ;;; ret true
  | None => ret false
  end.

Definition removeSignature (node : handle) : M bool :=
  try_catch (removeSignature_try node) (fun _ => ret false).

(** The callback of the observer of [setupObserver], on one added node. *)
Definition onSignatureAdded (node : handle) : M unit :=
  classes <- classList node ;;
  match classes with
  | None => ret tt
  | Some classes =>
      let isSignatureBlock :=
        contains classes (slice1 CONFIG.selectors.signatureBlock) in
      if isSignatureBlock then
        protonSignature <- querySelector node CONFIG.selectors.protonSignature ;;
        match protonSignature with
        | Some _ => removeSignature node ;;; ret tt
        | None => ret tt
        end
      else ret tt
  end.

Definition signatureObserverCallback (mutations : list MutationRecord) : M unit :=
  forEach mutations (fun m => forEach (addedNodes m) onSignatureAdded).

(** The pass of [setupObserver] over the signatures that are already there. *)
Definition removeExisting (node : handle) : M unit :=
  protonSignature <- querySelector node CONFIG.selectors.protonSignature ;;
  match protonSignature with
  | Some _ => removeSignature node ;;; ret tt
  | None => ret tt
  end.

Definition setupObserver (iframeDoc : handle) : St Page unit :=
  observe (SignatureObserver iframeDoc) ;;;
  liftDom (existingSignatures <- querySelectorAll iframeDoc CONFIG.selectors.signatureBlock ;;
           forEach existingSignatures removeExisting).

(** [doc && doc.readyState !== 'uninitialized'], inside the [try] whose
    [catch] ignores the error. *)
Definition usable (c : ContentDocument) : option handle :=
  match c with
  | DocumentWith doc readyState =>
      if negb (String.eqb readyState "uninitialized") then Some doc else None
  | _ => None
  end.

(** [new Error('Failed to initialize editor after max attempts')] *)
Definition initError : Reason :=
  ErrorMessage "Failed to initialize editor after max attempts".

#[local] Opaque CONFIG.maxInitAttempts.

(** How a wait ended: how the promise settled, the value of [attempts],
    and the delays of the timers that were set, in order. *)
Record Wait := mkWait {
  settlement : Settled handle;
  checks : nat;
  timers : list nat
}.

(** [setTimeout(f, ms)] seen from the result of [f]. *)
Definition setTimeout (w : Wait) (ms : nat) : Wait :=
  mkWait (settlement w) (checks w) (ms :: timers w).

(** [checkDoc] of [waitForIframeDoc], with the counter [attempts] of its
    closure as an argument; [contentDocument k] is what the [k]-th check
    reads from [iframe.contentDocument]. *)
Equations? checkDoc (contentDocument : nat -> ContentDocument) (attempts : nat)
  : Wait by wf (CONFIG.maxInitAttempts - attempts) lt :=
  checkDoc contentDocument attempts with usable (contentDocument (S attempts)) := {
    | Some doc => mkWait (Fulfilled doc) (S attempts) []
    | None with inspect (Nat.leb CONFIG.maxInitAttempts (S attempts)) := {
        | exist _ true _ => mkWait (Rejected initError) (S attempts) []
        | exist _ false H =>
            setTimeout (checkDoc contentDocument (S attempts)) CONFIG.initRetryDelay } }.
Proof. apply Nat.leb_gt in H. lia. Qed.

#[local] Transparent CONFIG.maxInitAttempts.

Definition waitForIframeDoc (contentDocument : nat -> ContentDocument) : Wait :=
  checkDoc contentDocument 0.

(** [waitForIframeDoc(iframe).then(setupObserver).catch(() => {})], the
    chain every caller builds.  The reactions run when the wait settles:
    later than the caller and, with several chains, in the order in which
    the waits settle.  Here they run where the chain is built, on the page
    as the caller leaves it; what is stated of several chains is therefore
    stated up to the order of their reactions. *)
Definition watch (frames : Frames) (iframe : handle) : St Page (Settled unit) :=
  p <- then_ (settlement (waitForIframeDoc (frames iframe))) setupObserver ;;
  catch_ p (fun _ => ret tt).

(** The callback of the observer of [setupComposerObserver], on one added
    node. *)
Definition onComposerAdded (frames : Frames) (node : handle) : St Page unit :=
  type <- liftDom (nodeType node) ;;
  if strict_equals (js_not (JsNumber type)) (JsNumber ELEMENT_NODE) then ret tt
  else
    isComposer <- liftDom (matches_opt node CONFIG.selectors.composer) ;;
    (if truthy isComposer then watch frames node ;;; ret tt else ret tt) ;;;
    composerIframes <- liftDom (querySelectorAll_opt node CONFIG.selectors.composer) ;;
    match composerIframes with
    | Some iframes => forEach iframes (fun iframe => watch frames iframe ;;; ret tt)
    | None => ret tt
    end.


Definition setupComposerObserver (frames : Frames) (document : handle) : St Page unit :=
  observe ComposerObserver ;;;
  existingComposers <- liftDom (querySelectorAll document CONFIG.selectors.composer) ;;
  forEach existingComposers (fun iframe => watch frames iframe ;;; ret tt).


End RemoveSignature.

(** * protonmail-oldest-first.user.js *)

Module OldestFirst.

(** ** URLs *)

(** A URL as the [URL] interface exposes it.  [fragment] is [None] when the
    URL has no [#] part. *)
Record URL := mkURL {
  origin : string;
  pathname : string;
  search : string;
  fragment : option string
}.

(** The getter of [url.hash]: empty when the fragment is null or empty, the
    fragment after a [#] otherwise. *)
Definition hash (u : URL) : string :=
  match fragment u with
  | None => ""
  | Some EmptyString => ""
  | Some f => String "#"%char f
  end.

(** The setter of [url.hash]: the empty string clears the fragment; one
    leading [#] of the value is dropped.  (The setter also percent-encodes a
    few characters, none of which occurs in what the script assigns.) *)
Definition set_hash (value : string) (u : URL) : URL :=
  match value with
  | EmptyString => mkURL (origin u) (pathname u) (search u) None
  | String "#"%char f => mkURL (origin u) (pathname u) (search u) (Some f)
  | _ => mkURL (origin u) (pathname u) (search u) (Some value)
  end.

(** [s.includes(m)] *)
Fixpoint includes (s m : string) : bool :=
  String.prefix m s ||
  match s with
  | EmptyString => false
  | String _ s' => includes s' m
  end.

(** Whether the fragment of [u] contains [m]. *)
Definition fragmentHas (u : URL) (m : string) : bool :=
  match fragment u with
  | Some f => includes f m
  | None => false
  end.

(** ** [CONFIG] *)

(** [\d]: the decimal digits [0] to [9]. *)
Definition isDigit (c : ascii) : bool :=
  Nat.leb 48 (nat_of_ascii c) && Nat.leb (nat_of_ascii c) 57.

Fixpoint allDigits (s : string) : bool :=
  match s with
  | EmptyString => true
  | String c r => isDigit c && allDigits r
  end.

(** [s] without its longest prefix of digits. *)
Fixpoint skipDigits (s : string) : string :=
  match s with
  | EmptyString => EmptyString
  | String c r => if isDigit c then skipDigits r else s
  end.

Module CONFIG.
Module selectors.
Definition dropdownButton : string :=
  ("[data-testid=" ++ dquote ++ "dropdown-button" ++ dquote ++ "][title=" ++
   dquote ++ "Sort conversations" ++ dquote ++ "]")%string.
Definition sortOldestButton : string :=
  ("[data-testid=" ++ dquote ++ "toolbar:sort-old-to-new" ++ dquote ++ "]")%string.
End selectors.
Module url.
(** Whether a path matches [/^\/u\/\d+\/inbox$/]: [/u/], one or more
    decimal digits, [/inbox], and nothing else. *)
Definition inboxPattern (path : string) : bool :=
  match path with
  | String "/" (String "u" (String "/" rest)) =>
      match rest with
      | String c _ => isDigit c && String.eqb (skipDigits rest) "/inbox"
      | EmptyString => false
      end
  | _ => false
  end.
Definition sortParam : string := "sort=date".
End url.
Module delays.
Definition DROPDOWN_CHECK : nat := 50.
Definition DROPDOWN_CLOSE : nat := 25.
End delays.
End CONFIG.

(** ** The page as the script sees and changes it *)

(** What the script does to its environment, in the order it does it.
    [TriggerSortByDate] records a call of [triggerSortByDate], which may do
    nothing else. *)
Inductive Effect :=
| ReplaceState (url : URL)
| TriggerSortByDate
| Click (selector : string)
| SetInterval (ms : nat)
| ClearInterval
| SetTimeout (ms : nat).

(** The browser as the script reads and changes it, with the log of what
    the script did so far.  One interval and one closing timer are tracked:
    the properties below are about one trigger sequence. *)
Record Browser := mkBrowser {
  location : URL;
  (** whether [document.querySelector(CONFIG.selectors.dropdownButton)]
      finds an element *)
  dropdownButton : bool;
  (** whether the interval of [triggerSortByDate] is running *)
  polling : bool;
  (** whether the timer that closes the dropdown is pending *)
  closing : bool;
  effects : list Effect
}.

Definition emit (e : Effect) (b : Browser) : Browser :=
  mkBrowser (location b) (dropdownButton b) (polling b) (closing b) (effects b ++ [e]).

(** The browser's own [history.replaceState(null, '', url)]. *)
Definition originalReplaceState (u : URL) (b : Browser) : Browser :=
  emit (ReplaceState u)
       (mkBrowser u (dropdownButton b) (polling b) (closing b) (effects b)).

(** [triggerSortByDate] up to the moment it returns: a click on the
    dropdown and an interval when the dropdown button is there, nothing
    otherwise. *)
Definition triggerSortByDate (b : Browser) : Browser :=
  let b := emit TriggerSortByDate b in
  if dropdownButton b then
    let b := emit (Click CONFIG.selectors.dropdownButton) b in
    let b := emit (SetInterval CONFIG.delays.DROPDOWN_CHECK) b in
    mkBrowser (location b) (dropdownButton b) true (closing b) (effects b)
  else b.

(** The condition of [checkURL]. *)
Definition needsSort (u : URL) : bool :=
  CONFIG.url.inboxPattern (pathname u) && negb (includes (hash u) CONFIG.url.sortParam).

Definition pending (b : Browser) : nat := if needsSort (location b) then 1 else 0.

(** [checkURL].  The [history.replaceState] it calls is the script's own
    wrapper, which runs the browser's [replaceState] and then [checkURL]
    again; that inner call is the recursive call here. *)
Equations? checkURL (b : Browser) : Browser by wf (pending b) lt :=
  checkURL b with inspect (needsSort (location b)) := {
    | exist _ true H =>
        let url := set_hash CONFIG.url.sortParam (location b) in
        triggerSortByDate (checkURL (originalReplaceState url b))
    | exist _ false _ => b }.
Proof.
  unfold pending. rewrite H. subst url.
  unfold needsSort, originalReplaceState, emit. cbn [location pathname].
  match goal with
  | |- context [includes ?h ?m] => change (includes h m) with true
  end.
  cbn [negb]. rewrite andb_false_r. lia.
Qed.

(** The wrappers the script installs over [history.pushState] and
    [history.replaceState]: the browser's own method, then [checkURL]. *)
Definition originalPushState (u : URL) (b : Browser) : Browser :=
  mkBrowser u (dropdownButton b) (polling b) (closing b) (effects b).

Definition history_pushState (u : URL) (b : Browser) : Browser :=
  checkURL (originalPushState u b).

Definition history_replaceState (u : URL) (b : Browser) : Browser :=
  checkURL (originalReplaceState u b).

(** One run of the interval callback of [triggerSortByDate];
    [sortOldestButton] tells whether
    [document.querySelector(CONFIG.selectors.sortOldestButton)] finds an
    element at that moment.  A cleared interval does not run. *)
Definition intervalCallback (sortOldestButton : bool) (b : Browser) : Browser :=
  if polling b then
    if sortOldestButton then
      let b := emit ClearInterval b in
      let b := emit (Click CONFIG.selectors.sortOldestButton) b in
      let b := emit (SetTimeout CONFIG.delays.DROPDOWN_CLOSE) b in
      mkBrowser (location b) (dropdownButton b) false true (effects b)
    else b
  else b.

(** The timer that closes the dropdown. *)
Definition closeCallback (b : Browser) : Browser :=
  if closing b then
    let b := emit (Click CONFIG.selectors.dropdownButton) b in
    mkBrowser (location b) (dropdownButton b) (polling b) false (effects b)
  else b.

(** What the event loop runs of the script after it was loaded. *)
Inductive Event :=
| UrlMayHaveChanged           (** popstate, or a mutation of the body *)
| IntervalFires (sortOldestButton : bool)
| CloseTimerFires.

Definition handle_event (e : Event) (b : Browser) : Browser :=
  match e with
  | UrlMayHaveChanged => checkURL b
  | IntervalFires present => intervalCallback present b
  | CloseTimerFires => closeCallback b
  end.

Definition run (events : list Event) (b : Browser) : Browser :=
  fold_left (fun b e => handle_event e b) events b.

(** The interval left alone for [n] runs, the button behaving as [present]
    says at each run. *)
Fixpoint poll (present : nat -> bool) (n : nat) (b : Browser) : Browser :=
  match n with
  | 0 => b
  | S n' => intervalCallback (present n') (poll present n' b)
  end.

Definition count (p : Effect -> bool) (b : Browser) : nat :=
  List.length (filter p (effects b)).

Definition isReplaceState (e : Effect) : bool :=
  match e with ReplaceState _ => true | _ => false end.

Definition isTrigger (e : Effect) : bool :=
  match e with TriggerSortByDate => true | _ => false end.

End OldestFirst.

(** * Reasoning about the scripts *)

(** ** Well-formed forests *)

(** The shape every DOM tree keeps: only parent nodes (documents, fragments,
    elements) have children, and a document has at most one element child. *)
Fixpoint hierarchyT (t : Tree) : bool :=
  match t with
  | Node _ k cs =>
      (isParentNode k || match cs with [] => true | _ :: _ => false end)
      && (negb (isDocument k) || Nat.leb (List.length (filter isElementT cs)) 1)
      && forallb hierarchyT cs
  end.

(** A forest is well formed when no two nodes share a handle and every tree
    has the shape above. *)
Definition wellFormed (F : Forest) : Prop :=
  NoDup (idsF F) /\ forallb hierarchyT F = true.

(** The number of nodes of [l] that carry the handle [x]; handles are
    unique when this is at most one for every handle. *)
Definition occ (x : handle) (l : list handle) : nat := count_occ Nat.eq_dec l x.

(** ** Contexts

    A node together with the path that leads to it from the root of its
    tree.  A frame of the path is an ancestor: its handle, its kind, and its
    children to the left and to the right of the path. *)
Record Frame := mkFrame {
  f_id : handle; f_kind : NodeKind; f_left : list Tree; f_right : list Tree }.

(** [plug C t]: the tree with [t] at the end of the path [C], the outermost
    ancestor first. *)
Fixpoint plug (C : list Frame) (t : Tree) : Tree :=
  match C with
  | [] => t
  | f :: C' => Node (f_id f) (f_kind f) (f_left f ++ plug C' t :: f_right f)
  end.

(** The handles of a path: the ancestors and all they hold off the path. *)
Fixpoint ctx_ids (C : list Frame) : list handle :=
  match C with
  | [] => []
  | f :: C' => f_id f :: idsF (f_left f) ++ idsF (f_right f) ++ ctx_ids C'
  end.

(** [At l t]: [l] is the place of a node strictly inside the tree [t]. *)
Inductive At (l : Loc) : Tree -> Prop :=
| At_child i k a b :
    loc_parent l = Some (i, k) -> loc_left l = a -> loc_right l = b ->
    At l (Node i k (a ++ loc_self l :: b))
| At_below i k cs c : In c cs -> At l c -> At l (Node i k cs).

(** A forest with the tree [plug C (Node p pk cs)] among its roots: [Fl]
    and [Fr] are the roots before and after it, [dets] the trees that were
    detached since and became roots of their own. *)
Definition shape (Fl Fr : Forest) (C : list Frame) (p : handle) (pk : NodeKind)
  (cs : list Tree) (dets : list Tree) : Forest :=
  Fl ++ plug C (Node p pk cs) :: Fr ++ dets.

(** ** What [removeSignature] is to do, in terms of trees *)

(** The line break [removeSignature] creates. *)
Definition lineBreak (h : handle) : Tree := Node h (ElementNode "br" [] []) [].

(** Whether the node [h] has a [br] element as its previous sibling. *)
Definition lineBreakBefore (h : handle) (F : Forest) : bool :=
  match locate h F with
  | Some l =>
      match rev (loc_left l) with
      | Node _ (ElementNode "br" _ _) _ :: _ => true
      | _ => false
      end
  | None => false
  end.

Definition hasClass (c : string) (k : NodeKind) : bool :=
  match k with ElementNode _ classes _ => contains classes c | _ => false end.

(** The value of [isEmptySignature] for a block with the children [kids]:
    undefined without an element child, else whether the first element child
    carries the empty-signature class. *)
Definition isEmptySignatureOf (kids : list Tree) : option bool :=
  option_map (fun t => hasClass "protonmail_signature_block-empty" (kind t))
             (find isElementT kids).

(** A sibling list without its last element node, and that node (no node
    when the list holds no element). *)
Fixpoint dropLastElement (l : list Tree) : list Tree * list Tree :=
  match l with
  | [] => ([], [])
  | c :: l' =>
      if existsb isElementT l' then
        let '(a, d) := dropLastElement l' in (c :: a, d)
      else if isElementT c then (l', [c]) else (c :: l', [])
  end.

(** The siblings [L] before a signature block after the cleanup, and the
    nodes the cleanup detached, in the order it detached them: the last
    element of [L] for a regular block; for an empty block the element
    before it too, and first. *)
Definition siblingCleanup (empty : bool) (L : list Tree) : list Tree * list Tree :=
  if empty then
    let '(L1, d1) := dropLastElement L in
    let '(L2, d2) := dropLastElement L1 in (L2, d2 ++ d1)
  else dropLastElement L.

(** [CONFIG.selectors.protonSignature] and [CONFIG.selectors.composer],
    parsed. *)
Definition protonSignatureSelector : Selector :=
  ClassSelector "protonmail_signature_block-proton".

Definition composerSelector : Selector :=
  TypeAttrSelector "iframe" "title" "Email composer".

(** A computation over the page only ever adds observers. *)
Definition grows {A} (m : St Page A) : Prop :=
  forall pg, incl (observers pg) (observers (snd (m pg))).

(** ** Pages used as examples *)

(** A composer body: a paragraph, a text node, a regular signature block
    (user signature and vendor signature), the quoted message. *)
Definition regularExample : Forest :=
  [Node 0 (ElementNode "body" [] [])
     [Node 1 (ElementNode "div" [] []) [];
      Node 2 (TextNode "") [];
      Node 3 (ElementNode "div" ["protonmail_signature_block"] [])
        [Node 4 (ElementNode "div" ["protonmail_signature_block-user"] []) [];
         Node 5 (ElementNode "div" ["protonmail_signature_block-proton"] []) []];
      Node 6 (ElementNode "blockquote" [] []) []]].

(** A composer body: two paragraphs, an empty signature block, the quoted
    message. *)
Definition emptyExample : Forest :=
  [Node 0 (ElementNode "body" [] [])
     [Node 1 (ElementNode "div" [] []) [];
      Node 2 (ElementNode "div" [] []) [];
      Node 3 (ElementNode "div" ["protonmail_signature_block"] [])
        [Node 4 (ElementNode "div" ["protonmail_signature_block-empty"] []) [];
         Node 5 (ElementNode "div" ["protonmail_signature_block-proton"] []) []];
      Node 6 (ElementNode "blockquote" [] []) []]].

(** A composer body: a paragraph and a signature block with a user
    signature only. *)
Definition bareBlockExample : Forest :=
  [Node 0 (ElementNode "body" [] [])
     [Node 1 (ElementNode "div" [] []) [];
      Node 3 (ElementNode "div" ["protonmail_signature_block"] [])
        [Node 4 (ElementNode "div" ["protonmail_signature_block-user"] []) []]]].

(** A signature block that is in no tree (its insertion was undone before
    the observer ran, say). *)
Definition detachedBlock : Tree :=
  Node 1 (ElementNode "div" ["protonmail_signature_block"] [])
    [Node 2 (ElementNode "div" ["protonmail_signature_block-user"] []) []].


(** A page whose body holds a text node. *)
Definition textPage : Page :=
  mkPage [Node 0 (ElementNode "body" [] []) [Node 3 (TextNode "Hi") []]]
         [ComposerObserver].

(** The first iframe never gets a document; the second has document 10,
    usable from the third check on. *)
Definition composerFrames : Frames :=
  fun iframe check =>
    if Nat.eqb iframe 2 then
      if Nat.leb 3 check then DocumentWith 10 "complete" else NoDocument
    else NoDocument.

(** The inbox, opened without a fragment: the sort menu is rendered, no
    timer is running, nothing was done yet. *)
Definition inboxBrowser : OldestFirst.Browser :=
  OldestFirst.mkBrowser
    (OldestFirst.mkURL "https://mail.proton.me" "/u/0/inbox" "" None)
    true false false [].

(** The inbox with the marker after another parameter of the fragment. *)
Definition sortedBrowser : OldestFirst.Browser :=
  OldestFirst.mkBrowser
    (OldestFirst.mkURL "https://mail.proton.me" "/u/0/inbox" ""
       (Some "filter=unread&sort=date"))
    true false false [].

(** The inbox with a query and a fragment of the application's own. *)
Definition filteredBrowser : OldestFirst.Browser :=
  OldestFirst.mkBrowser
    (OldestFirst.mkURL "https://mail.proton.me" "/u/0/inbox" "?welcome=true"
       (Some "filter=unread"))
    true false false [].

(** The inbox after [triggerSortByDate] found the dropdown button. *)
Definition sortingBrowser : OldestFirst.Browser :=
  OldestFirst.triggerSortByDate inboxBrowser.

(** Whether an effect is [clearInterval]. *)
Definition isClearInterval (e : OldestFirst.Effect) : bool :=
  match e with OldestFirst.ClearInterval => true | _ => false end.

(** ** The oldest-first script on a page that is not navigated *)

(** What can happen on a page while the application leaves the URL alone
    (it calls neither [history.pushState] nor [history.replaceState], and
    no [popstate] leads to another entry): the event loop runs something of
    the script, where a notification [UrlMayHaveChanged] finds the URL as
    the script left it, as the notifications of the mutation observer of
    the script do; or the application renders or removes the sort
    dropdown. *)
Inductive InPlaceStep :=
| Runs (e : OldestFirst.Event)
| Renders (dropdownButton : bool).

Definition setDropdown (present : bool) (b : OldestFirst.Browser) : OldestFirst.Browser :=
  OldestFirst.mkBrowser (OldestFirst.location b) present (OldestFirst.polling b)
    (OldestFirst.closing b) (OldestFirst.effects b).

Definition step (s : InPlaceStep) (b : OldestFirst.Browser) : OldestFirst.Browser :=
  match s with
  | Runs e => OldestFirst.handle_event e b
  | Renders present => setDropdown present b
  end.

Definition inPlace (steps : list InPlaceStep) (b : OldestFirst.Browser)
  : OldestFirst.Browser :=
  fold_left (fun b s => step s b) steps b.

(** Everything the script does for the inbox URL [u], in the order of the
    source: the rewrite of the history, the call of [triggerSortByDate], the
    click that opens the dropdown, the interval, and what the run of the
    interval that finds the secondary button and the closing timer do. *)
Definition sortSequence (u : OldestFirst.URL) : list OldestFirst.Effect :=
  [OldestFirst.ReplaceState (OldestFirst.set_hash OldestFirst.CONFIG.url.sortParam u);
   OldestFirst.TriggerSortByDate;
   OldestFirst.Click OldestFirst.CONFIG.selectors.dropdownButton;
   OldestFirst.SetInterval OldestFirst.CONFIG.delays.DROPDOWN_CHECK;
   OldestFirst.ClearInterval;
   OldestFirst.Click OldestFirst.CONFIG.selectors.sortOldestButton;
   OldestFirst.SetTimeout OldestFirst.CONFIG.delays.DROPDOWN_CLOSE;
   OldestFirst.Click OldestFirst.CONFIG.selectors.dropdownButton].

(** The browser [b] after the first [k] steps of the sequence, with the
    dropdown button rendered or not. *)
Definition stateAt (b : OldestFirst.Browser) (k : nat) (present : bool)
  : OldestFirst.Browser :=
  OldestFirst.mkBrowser
    (if Nat.eqb k 0 then OldestFirst.location b
     else OldestFirst.set_hash OldestFirst.CONFIG.url.sortParam (OldestFirst.location b))
    present
    (Nat.eqb k 4)
    (Nat.eqb k 7)
    (OldestFirst.effects b ++ firstn k (sortSequence (OldestFirst.location b))).

(** The steps of the sequence at which the script can be found between two
    events: before anything, after a trigger that found no dropdown button
    (2), while the interval runs (4), while the closing timer is pending
    (7), at the end (8). *)
Definition restingAt (b : OldestFirst.Browser) (k : nat) : Prop :=
  k = 0 \/
  (OldestFirst.needsSort (OldestFirst.location b) = true /\
   (k = 2 \/ k = 4 \/ k = 7 \/ k = 8)).

(** The inbox opened without a fragment, before the application has
    rendered its toolbar. *)
Definition unrenderedBrowser : OldestFirst.Browser :=
  OldestFirst.mkBrowser
    (OldestFirst.mkURL "https://mail.proton.me" "/u/0/inbox" "" None)
    false false false [].

(** ** More on the signature script *)

(** Whether the [insertBefore] of [removeSignature] can work on the node at
    the place [l]: the node has a parent, and the parent is no document. *)
Definition attached (l : Loc) : bool :=
  match loc_parent l with
  | Some (_, pk) => negb (isDocument pk)
  | None => false
  end.

(** What the observer of [setupObserver] tests on an added node before it
    calls [removeSignature]: the node is an element that carries the class
    of signature blocks and holds a vendor signature below it. *)
Definition isStrippable (t : Tree) : bool :=
  hasClass "protonmail_signature_block" (kind t) &&
  match firstMatchF protonSignatureSelector (childNodes t) with
  | Some _ => true
  | None => false
  end.

(** A wrapper element that was added with a signature block inside. *)
Definition wrappedBlockExample : Forest :=
  [Node 0 (ElementNode "body" [] [])
     [Node 1 (ElementNode "div" [] []) [];
      Node 2 (ElementNode "div" ["wrapper"] [])
        [Node 3 (ElementNode "div" ["protonmail_signature_block"] [])
           [Node 5 (ElementNode "div" ["protonmail_signature_block-proton"] []) []]]]].

(** A composer body whose signature block comes first: only a text node
    stands before it. *)
Definition leadingBlockExample : Forest :=
  [Node 0 (ElementNode "body" [] [])
     [Node 2 (TextNode "Hello") [];
      Node 3 (ElementNode "div" ["protonmail_signature_block"] [])
        [Node 4 (ElementNode "div" ["protonmail_signature_block-user"] []) [];
         Node 5 (ElementNode "div" ["protonmail_signature_block-proton"] []) []];
      Node 6 (ElementNode "blockquote" [] []) []]].

(** A composer document whose root element carries the class of signature
    blocks. *)
Definition rootBlockExample : Forest :=
  [Node 0 DocumentNode
     [Node 1 (ElementNode "html" ["protonmail_signature_block"] [])
        [Node 2 (ElementNode "div" ["protonmail_signature_block-proton"] []) []]]].

(** The nodes of a tree, each with its handle and what it is (kind, name,
    classes, attributes, text). *)
Fixpoint nodesT (t : Tree) : list (handle * NodeKind) :=
  match t with
  | Node i k cs => (i, k) :: flat_map nodesT cs
  end.

Definition nodesF (F : Forest) : list (handle * NodeKind) := flat_map nodesT F.

(** The nodes of a path: the ancestors and all they hold off the path. *)
Fixpoint ctx_nodes (C : list Frame) : list (handle * NodeKind) :=
  match C with
  | [] => []
  | f :: C' =>
      (f_id f, f_kind f) :: nodesF (f_left f) ++ nodesF (f_right f) ++ ctx_nodes C'
  end.

(** [CONFIG.selectors.signatureBlock], parsed. *)
Definition signatureBlockSelector : Selector :=
  ClassSelector "protonmail_signature_block".

(** Whether a block holds a vendor signature below it. *)
Definition holdsVendorSignature (t : Tree) : bool :=
  match firstMatchF protonSignatureSelector (childNodes t) with
  | Some _ => true
  | None => false
  end.

(** A composer document with a regular signature block already in it. *)
Definition composerDocumentExample : Page :=
  mkPage
    [Node 10 DocumentNode
       [Node 11 (ElementNode "html" [] [])
          [Node 0 (ElementNode "body" [] [])
             [Node 1 (ElementNode "div" [] []) [];
              Node 3 (ElementNode "div" ["protonmail_signature_block"] [])
                [Node 4 (ElementNode "div" ["protonmail_signature_block-user"] []) [];
                 Node 5 (ElementNode "div" ["protonmail_signature_block-proton"] []) []];
              Node 6 (ElementNode "blockquote" [] []) []]]]]
    [ComposerObserver].

(** A composer body with two signature blocks, one after the other. *)
Definition twoBlocksExample : Forest :=
  [Node 0 (ElementNode "body" [] [])
     [Node 1 (ElementNode "div" [] []) [];
      Node 2 (TextNode "--") [];
      Node 3 (ElementNode "div" ["protonmail_signature_block"] [])
        [Node 5 (ElementNode "div" ["protonmail_signature_block-proton"] []) []];
      Node 6 (ElementNode "div" ["protonmail_signature_block"] [])
        [Node 7 (ElementNode "div" ["protonmail_signature_block-proton"] []) []]]].

(** ** More on the composer watcher *)

(** The signature observer a composer iframe gets from the chain
    [waitForIframeDoc(iframe).then(setupObserver).catch(() => {})]: one, for
    its document, when the wait is fulfilled; none when it is rejected. *)
Definition signatureObserverOf (frames : Frames) (iframe : handle) : list Observer :=
  match RemoveSignature.settlement (RemoveSignature.waitForIframeDoc (frames iframe)) with
  | Fulfilled doc => [SignatureObserver doc]
  | Rejected _ => []
  end.

(** The composer iframes the callback of the composer observer looks for
    at an added node: the node itself when the selector selects it, and the
    ones below it, in document order. *)
Definition composersAt (t : Tree) : list handle :=
  (if selects composerSelector (kind t) then [nid t] else []) ++
  (if isParentNode (kind t)
   then map nid (allMatchesF composerSelector (childNodes t))
   else []).

(** A page with a composer iframe whose document, usable from the third
    check on, already holds a regular signature block. *)
Definition draftPage : Page :=
  mkPage
    [Node 0 (ElementNode "body" [] [])
       [Node 2 (ElementNode "iframe" [] [("title", "Email composer")]) []];
     Node 10 DocumentNode
       [Node 11 (ElementNode "html" [] [])
          [Node 12 (ElementNode "body" [] [])
             [Node 13 (ElementNode "div" [] []) [];
              Node 14 (ElementNode "div" ["protonmail_signature_block"] [])
                [Node 15 (ElementNode "div" ["protonmail_signature_block-user"] []) [];
                 Node 16 (ElementNode "div" ["protonmail_signature_block-proton"] []) []];
              Node 17 (ElementNode "blockquote" [] []) []]]]]
    [ComposerObserver].

(** A page with a document fragment that holds a composer iframe, and the
    document of that iframe. *)
Definition fragmentPage : Page :=
  mkPage
    [Node 0 (ElementNode "body" [] []) [];
     Node 5 DocumentFragmentNode
       [Node 2 (ElementNode "iframe" [] [("title", "Email composer")]) []];
     Node 10 DocumentNode [Node 11 (ElementNode "html" [] []) []]]
    [ComposerObserver].

(** What the callback of the signature observer does to the forest for one
    added node: what [removeSignature] does, when the node is a signature
    block with a vendor signature below it; nothing otherwise. *)
Definition handled (n : handle) (F : Forest) : Forest :=
  match locate n F with
  | Some l =>
      if isStrippable (loc_self l) then snd (RemoveSignature.removeSignature n F) else F
  | None => F
  end.

(** The same for all added nodes of a batch of records, in the order of the
    records and of their nodes, each node on the forest as the nodes before
    it left it. *)
Definition handledAll (mutations : list MutationRecord) (F : Forest) : Forest :=
  fold_left (fun F n => handled n F) (flat_map addedNodes mutations) F.

(** A page with two composer iframes and their documents. *)
Definition twoComposersPage : Page :=
  mkPage
    [Node 0 (ElementNode "body" [] [])
       [Node 1 (ElementNode "iframe" [] [("title", "Email composer")]) [];
        Node 2 (ElementNode "iframe" [] [("title", "Email composer")]) []];
     Node 10 DocumentNode [Node 11 (ElementNode "html" [] []) []];
     Node 20 DocumentNode [Node 21 (ElementNode "html" [] []) []]]
    [].

(** The first iframe has document 20, usable from the fifth check on; the
    second has document 10, usable from the third check on: the wait of
    the second settles first. *)
Definition twoComposersFrames : Frames :=
  fun iframe check =>
    if Nat.eqb iframe 1 then
      if Nat.leb 5 check then DocumentWith 20 "complete" else NoDocument
    else if Nat.eqb iframe 2 then
      if Nat.leb 3 check then DocumentWith 10 "complete" else NoDocument
    else NoDocument.

(** * Lemmas on the DOM model *)

(** ** Induction on trees

    The induction principle that gives a hypothesis for every child. *)
Lemma Tree_ind' (P : Tree -> Prop) :
  (forall i k cs, Forall P cs -> P (Node i k cs)) -> forall t, P t.
Proof.
  intros H. fix IH 1. intros [i k cs]. apply H.
  induction cs as [|c cs IHcs]; constructor; [apply IH | exact IHcs].
Qed.

(** ** Counting handles

    Uniqueness of handles is used through counting: every side condition
    of the lemmas below is an equation or inequality between the numbers of
    occurrences of a handle in the parts of a forest. *)
Lemma occ_nil x : occ x [] = 0.
Proof. reflexivity. Qed.

Lemma occ_cons x i l : occ x (i :: l) = (if Nat.eqb i x then 1 else 0) + occ x l.
Proof.
  unfold occ. simpl. destruct (Nat.eq_dec i x) as [e|e].
  - apply Nat.eqb_eq in e. rewrite e. reflexivity.
  - apply Nat.eqb_neq in e. rewrite e. reflexivity.
Qed.

Lemma occ_app x a b : occ x (a ++ b) = occ x a + occ x b.
Proof. apply count_occ_app. Qed.

Lemma idsF_app a b : idsF (a ++ b) = idsF a ++ idsF b.
Proof. apply flat_map_app. Qed.

Lemma idsF_cons t l : idsF (t :: l) = ids t ++ idsF l.
Proof. reflexivity. Qed.

Lemma idsF_nil : idsF [] = [].
Proof. reflexivity. Qed.

Lemma ids_Node i k cs : ids (Node i k cs) = i :: idsF cs.
Proof. reflexivity. Qed.

Lemma NoDup_occ l : NoDup l <-> forall x, occ x l <= 1.
Proof. apply NoDup_count_occ. Qed.

Lemma notin_occ x l : ~ In x l <-> occ x l = 0.
Proof. apply count_occ_not_In. Qed.

Lemma in_occ x l : In x l <-> 1 <= occ x l.
Proof. unfold occ. rewrite (count_occ_In Nat.eq_dec). lia. Qed.

(** ** The nested recursions, unfolded once *)
Lemma locateT_eq h i k cs :
  locateT h (Node i k cs) =
  match split_at h cs with
  | Some (a, x, b) => Some (mkLoc (Some (i, k)) a x b)
  | None => locateF h cs
  end.
Proof.
  simpl. destruct (split_at h cs) as [[[a x] b]|]; [reflexivity|].
  induction cs as [|c cs IH]; simpl; [reflexivity|].
  destruct (locateT h c); [reflexivity | exact IH].
Qed.

Lemma firstMatchT_eq sel i k cs :
  firstMatchT sel (Node i k cs) =
  if selects sel k then Some (Node i k cs) else firstMatchF sel cs.
Proof.
  simpl. destruct (selects sel k); [reflexivity|].
  induction cs as [|c cs IH]; simpl; [reflexivity|].
  destruct (firstMatchT sel c); [reflexivity | exact IH].
Qed.

Ltac occ_norm :=
  repeat first
    [ rewrite idsF_app in * | rewrite idsF_cons in * | rewrite idsF_nil in *
    | rewrite ids_Node in * | rewrite occ_app in * | rewrite occ_cons in *
    | rewrite occ_nil in * ].

Ltac eqb_cases :=
  repeat match goal with
  | |- context [Nat.eqb ?a ?b] => destruct (Nat.eqb_spec a b)
  | H : context [Nat.eqb ?a ?b] |- _ => destruct (Nat.eqb_spec a b)
  end.

Lemma occ_plug x C t : occ x (ids (plug C t)) = occ x (ctx_ids C) + occ x (ids t).
Proof.
  induction C as [|f C IH]; simpl plug; simpl ctx_ids.
  - reflexivity.
  - occ_norm. rewrite IH. lia.
Qed.

Lemma occ_nid t : 1 <= occ (nid t) (ids t).
Proof. destruct t as [i k cs]. simpl nid. occ_norm. rewrite Nat.eqb_refl. lia. Qed.

Lemma occ_in_forest x t l : In t l -> occ x (ids t) <= occ x (idsF l).
Proof.
  induction l as [|c l IH]; intros H; [destruct H|].
  occ_norm. destruct H as [->|H]; [lia | specialize (IH H); lia].
Qed.

(** ** Finding a node by its handle *)
Lemma split_at_none h l :
  (forall c, In c l -> nid c <> h) -> split_at h l = None.
Proof.
  induction l as [|c l IH]; intros H; simpl; [reflexivity|].
  destruct (Nat.eqb_spec (nid c) h) as [e|e].
  - exfalso. apply (H c); [left; reflexivity | exact e].
  - rewrite IH; [reflexivity|]. intros c' Hc'. apply H. right. exact Hc'.
Qed.

Lemma split_at_notin h l : occ h (idsF l) = 0 -> split_at h l = None.
Proof.
  intros H. apply split_at_none. intros c Hc e.
  pose proof (occ_in_forest h c l Hc). pose proof (occ_nid c). rewrite e in *. lia.
Qed.

Lemma split_at_here a x b :
  occ (nid x) (idsF a) = 0 -> split_at (nid x) (a ++ x :: b) = Some (a, x, b).
Proof.
  induction a as [|c a IH]; intros H; simpl.
  - rewrite Nat.eqb_refl. reflexivity.
  - occ_norm. destruct (Nat.eqb_spec (nid c) (nid x)) as [e|e].
    + pose proof (occ_nid c). rewrite e in *. lia.
    + rewrite IH; [reflexivity | lia].
Qed.

Lemma locate_none :
  forall t h, occ h (ids t) = 0 -> locateT h t = None.
Proof.
  induction t as [i k cs IH] using Tree_ind'. intros h H.
  rewrite locateT_eq. occ_norm.
  rewrite split_at_notin by lia.
  assert (Hcs : occ h (idsF cs) = 0) by lia. clear H.
  induction cs as [|c cs IHcs]; simpl; [reflexivity|].
  inversion IH as [|? ? Hc Hrest]; subst. occ_norm.
  rewrite Hc by lia. apply IHcs; [exact Hrest | lia].
Qed.

Lemma locateF_none h l : occ h (idsF l) = 0 -> locateF h l = None.
Proof.
  induction l as [|c l IH]; intros H; simpl; [reflexivity|].
  occ_norm. rewrite locate_none by lia. apply IH. lia.
Qed.

Lemma locateF_app h a c b :
  occ h (idsF a) = 0 -> locateT h c <> None ->
  locateF h (a ++ c :: b) = locateT h c.
Proof.
  intros Ha Hc. induction a as [|x a IH]; simpl.
  - destruct (locateT h c); [reflexivity | congruence].
  - occ_norm. rewrite locate_none by lia. apply IH. lia.
Qed.

Lemma At_occ l t : At l t -> 1 <= occ (nid (loc_self l)) (idsF (childNodes t)).
Proof.
  induction 1 as [i k a b _ _ _ | i k cs c Hin _ IH]; simpl childNodes.
  - occ_norm. pose proof (occ_nid (loc_self l)). lia.
  - pose proof (occ_in_forest (nid (loc_self l)) c cs Hin).
    destruct c as [j kc ccs]. simpl childNodes in IH. occ_norm. lia.
Qed.

(** A node at the place [l] of a tree with unique handles is found there. *)
Lemma locateT_At l t :
  NoDup (ids t) -> At l t -> locateT (nid (loc_self l)) t = Some l.
Proof.
  intros Hnd Hat. induction Hat as [i k a b Hp Ha Hb | i k cs c Hin Hat IH].
  - rewrite locateT_eq.
    apply NoDup_occ with (x := nid (loc_self l)) in Hnd. occ_norm.
    pose proof (occ_nid (loc_self l)).
    rewrite split_at_here by lia.
    destruct l as [lp ll ls lr]. simpl in *. subst. reflexivity.
  - rewrite locateT_eq. set (h := nid (loc_self l)) in *.
    pose proof (At_occ _ _ Hat) as Hocc. fold h in Hocc.
    apply in_split in Hin. destruct Hin as [a [b ->]].
    assert (Hh := proj1 (NoDup_occ _) Hnd h). occ_norm.
    destruct c as [j kc ccs]. simpl childNodes in Hocc. occ_norm.
    rewrite split_at_none.
    + rewrite locateF_app.
      * apply IH. apply NoDup_occ. intros x.
        assert (Hx := proj1 (NoDup_occ _) Hnd x). occ_norm. lia.
      * lia.
      * rewrite IH; [discriminate|]. apply NoDup_occ. intros x.
        assert (Hx := proj1 (NoDup_occ _) Hnd x). occ_norm. lia.
    + intros c' Hc' e. apply in_app_or in Hc'.
      pose proof (occ_nid c') as Hn. rewrite e in Hn.
      destruct Hc' as [Hc'|[<-|Hc']].
      * pose proof (occ_in_forest h c' a Hc'). lia.
      * simpl in e. occ_norm. rewrite e in *. rewrite Nat.eqb_refl in *. lia.
      * pose proof (occ_in_forest h c' b Hc'). lia.
Qed.

Ltac nodup_at Hnd x :=
  let H := fresh "Hocc" in
  assert (H := proj1 (NoDup_occ _) Hnd x); occ_norm.

(** The same in a forest. *)
Lemma locate_At Fl t Fr l :
  NoDup (idsF (Fl ++ t :: Fr)) -> At l t ->
  locate (nid (loc_self l)) (Fl ++ t :: Fr) = Some l.
Proof.
  intros Hnd Hat. unfold locate. set (h := nid (loc_self l)).
  pose proof (At_occ _ _ Hat) as Hocc. fold h in Hocc.
  nodup_at Hnd h. destruct t as [j kt cs]. simpl childNodes in Hocc. occ_norm.
  assert (Hndt : NoDup (ids (Node j kt cs))).
  { apply NoDup_occ. intros x. nodup_at Hnd x. lia. }
  rewrite split_at_none.
  - rewrite locateF_app.
    + apply locateT_At; assumption.
    + lia.
    + rewrite (locateT_At l); [discriminate | assumption | assumption].
  - intros c' Hc' e. apply in_app_or in Hc'.
    pose proof (occ_nid c') as Hn. rewrite e in Hn.
    destruct Hc' as [Hc'|[<-|Hc']].
    + pose proof (occ_in_forest h c' Fl Hc'). lia.
    + simpl in e. occ_norm. rewrite e in *. rewrite Nat.eqb_refl in *. lia.
    + pose proof (occ_in_forest h c' Fr Hc'). lia.
Qed.

(** A root is found as a root. *)
Lemma locate_root Fl t Fr :
  NoDup (idsF (Fl ++ t :: Fr)) ->
  locate (nid t) (Fl ++ t :: Fr) = Some (mkLoc None [] t []).
Proof.
  intros Hnd. unfold locate. nodup_at Hnd (nid t). pose proof (occ_nid t).
  rewrite split_at_here by lia. reflexivity.
Qed.

Lemma At_plug_lift l C t : At l t -> At l (plug C t).
Proof.
  intros H. induction C as [|f C IH]; simpl; [exact H|].
  apply At_below with (c := plug C t); [|exact IH].
  apply in_or_app. right. left. reflexivity.
Qed.

Lemma At_plug C p pk l x r :
  At (mkLoc (Some (p, pk)) l x r) (plug C (Node p pk (l ++ x :: r))).
Proof. apply At_plug_lift. apply (At_child (mkLoc (Some (p, pk)) l x r)); reflexivity. Qed.

Lemma At_plug_self C t :
  C <> [] -> exists l, loc_self l = t /\ loc_parent l <> None /\ At l (plug C t).
Proof.
  induction C as [|f C IH]; intros Hne; [congruence|].
  destruct C as [|g C].
  - exists (mkLoc (Some (f_id f, f_kind f)) (f_left f) t (f_right f)).
    split; [reflexivity|]. split; [discriminate|].
    simpl. apply (At_child (mkLoc (Some (f_id f, f_kind f)) (f_left f) t (f_right f)));
      reflexivity.
  - destruct IH as [l [Hs [Hp Hat]]]; [discriminate|].
    exists l. split; [exact Hs|]. split; [exact Hp|].
    change (plug (f :: g :: C) t)
      with (Node (f_id f) (f_kind f) (f_left f ++ plug (g :: C) t :: f_right f)).
    apply At_below with (c := plug (g :: C) t); [|exact Hat].
    apply in_or_app. right. left. reflexivity.
Qed.

(** Where the focus of a plugged tree sits in the forest. *)
Lemma locate_focus Fl C t Fr :
  NoDup (idsF (Fl ++ plug C t :: Fr)) ->
  exists l, locate (nid t) (Fl ++ plug C t :: Fr) = Some l /\ loc_self l = t /\
            (loc_parent l = None -> C = []).
Proof.
  intros Hnd. destruct C as [|f C].
  - exists (mkLoc None [] t []). split; [apply locate_root; exact Hnd|].
    split; reflexivity.
  - destruct (At_plug_self (f :: C) t) as [l [Hs [Hp Hat]]]; [discriminate|].
    exists l. rewrite <- Hs at 1. split; [apply locate_At; assumption|].
    split; [exact Hs|]. intros e. congruence.
Qed.

(** ** Cutting and inserting

    A mutation named by a handle leaves alone every tree the handle does
    not occur in, and goes through a context to the tree it occurs in. *)
Lemma nid_cutT h t : nid (cutT h t) = nid t.
Proof. destruct t; reflexivity. Qed.

Lemma nid_insertT p ref new t : nid (insertT p ref new t) = nid t.
Proof. destruct t; reflexivity. Qed.

Lemma keeps_neq h t : nid t <> h -> keeps h t = true.
Proof. intros H. unfold keeps. apply Nat.eqb_neq in H. rewrite H. reflexivity. Qed.

Lemma filter_keeps_notin h l : occ h (idsF l) = 0 -> filter (keeps h) l = l.
Proof.
  induction l as [|c l IH]; intros H; simpl; [reflexivity|].
  occ_norm. pose proof (occ_nid c). rewrite keeps_neq.
  - rewrite IH by lia. reflexivity.
  - intros e. rewrite e in *. lia.
Qed.

Lemma cutT_notin : forall t h, occ h (ids t) = 0 -> cutT h t = t.
Proof.
  induction t as [i k cs IH] using Tree_ind'. intros h H. simpl. occ_norm.
  assert (Hcs : occ h (idsF cs) = 0) by lia. clear H.
  assert (Hm : map (cutT h) cs = cs).
  { induction cs as [|c cs IHcs]; simpl; [reflexivity|].
    inversion IH as [|? ? Hc Hrest]; subst. occ_norm.
    rewrite Hc by lia. rewrite IHcs; [reflexivity | exact Hrest | lia]. }
  rewrite Hm. rewrite filter_keeps_notin by exact Hcs. reflexivity.
Qed.

Lemma cutF_notin h l : occ h (idsF l) = 0 -> cutF h l = l.
Proof.
  induction l as [|c l IH]; intros H; [reflexivity|].
  change (cutF h (c :: l)) with (cutT h c :: cutF h l).
  occ_norm. rewrite cutT_notin by lia. rewrite IH by lia. reflexivity.
Qed.

Lemma cutF_app h a b : cutF h (a ++ b) = cutF h a ++ cutF h b.
Proof. apply map_app. Qed.

Lemma cutT_children h i k cs :
  cutT h (Node i k cs) = Node i k (filter (keeps h) (cutF h cs)).
Proof. reflexivity. Qed.

Lemma cutT_plug h C t :
  occ h (ctx_ids C) = 0 -> nid t <> h ->
  cutT h (plug C t) = plug C (cutT h t).
Proof.
  induction C as [|f C IH]; intros Hc Ht; simpl plug; [reflexivity|].
  simpl ctx_ids in Hc. occ_norm.
  rewrite cutT_children, cutF_app. simpl cutF.
  rewrite (cutF_notin h (f_left f)) by lia.
  change (map (cutT h) (f_right f)) with (cutF h (f_right f)).
  rewrite (cutF_notin h (f_right f)) by lia.
  rewrite filter_app. simpl filter.
  rewrite !filter_keeps_notin by lia.
  rewrite IH by (assumption || lia).
  rewrite keeps_neq; [reflexivity|].
  destruct C as [|g C]; simpl.
  - rewrite nid_cutT. exact Ht.
  - simpl ctx_ids in Hc. occ_norm. destruct (Nat.eqb_spec (f_id g) h); [lia|assumption].
Qed.

(** Cutting a child out of its parent's list. *)
Lemma cutT_child p pk l x r :
  nid x <> p -> occ (nid x) (idsF l) = 0 -> occ (nid x) (idsF r) = 0 ->
  cutT (nid x) (Node p pk (l ++ x :: r)) = Node p pk (l ++ r).
Proof.
  intros Hp Hl Hr. rewrite cutT_children, cutF_app. simpl cutF.
  change (map (cutT (nid x)) r) with (cutF (nid x) r).
  rewrite !cutF_notin by assumption.
  rewrite filter_app. simpl filter. rewrite !filter_keeps_notin by assumption.
  unfold keeps at 1. rewrite nid_cutT, Nat.eqb_refl. reflexivity.
Qed.

Lemma cutF_focus h Fl t Fr :
  occ h (idsF Fl) = 0 -> occ h (idsF Fr) = 0 ->
  cutF h (Fl ++ t :: Fr) = Fl ++ cutT h t :: Fr.
Proof.
  intros Hl Hr. rewrite cutF_app. simpl cutF.
  change (map (cutT h) Fr) with (cutF h Fr).
  rewrite !cutF_notin by assumption. reflexivity.
Qed.

Lemma insertT_notin : forall t p ref new, occ p (ids t) = 0 -> insertT p ref new t = t.
Proof.
  induction t as [i k cs IH] using Tree_ind'. intros p ref new H. simpl. occ_norm.
  destruct (Nat.eqb_spec i p) as [e|e]; [lia|].
  assert (Hcs : occ p (idsF cs) = 0) by lia. clear H. f_equal.
  induction cs as [|c cs IHcs]; simpl; [reflexivity|].
  inversion IH as [|? ? Hc Hrest]; subst. occ_norm.
  rewrite Hc by lia. rewrite IHcs; [reflexivity | exact Hrest | lia].
Qed.

Lemma insertF_notin p ref new l : occ p (idsF l) = 0 -> insertF p ref new l = l.
Proof.
  induction l as [|c l IH]; intros H; [reflexivity|].
  change (insertF p ref new (c :: l)) with (insertT p ref new c :: insertF p ref new l).
  occ_norm. rewrite insertT_notin by lia. rewrite IH by lia. reflexivity.
Qed.

Lemma insertF_app p ref new a b :
  insertF p ref new (a ++ b) = insertF p ref new a ++ insertF p ref new b.
Proof. apply map_app. Qed.

Lemma insertT_plug p ref new C t :
  occ p (ctx_ids C) = 0 ->
  insertT p ref new (plug C t) = plug C (insertT p ref new t).
Proof.
  induction C as [|f C IH]; intros Hc; simpl plug; [reflexivity|].
  simpl ctx_ids in Hc. occ_norm. simpl insertT.
  destruct (Nat.eqb_spec (f_id f) p) as [e|e]; [lia|].
  rewrite map_app. simpl map.
  change (map (insertT p ref new) (f_left f)) with (insertF p ref new (f_left f)).
  change (map (insertT p ref new) (f_right f)) with (insertF p ref new (f_right f)).
  rewrite !insertF_notin by lia. rewrite IH by lia. reflexivity.
Qed.

Lemma insert_before_here ref new l x r :
  nid x = ref -> occ ref (idsF l) = 0 ->
  insert_before ref new (l ++ x :: r) = l ++ new :: x :: r.
Proof.
  intros Hx. induction l as [|c l IH]; intros Hl; simpl.
  - rewrite Hx, Nat.eqb_refl. reflexivity.
  - occ_norm. pose proof (occ_nid c).
    destruct (Nat.eqb_spec (nid c) ref) as [e|e].
    + rewrite e in *. lia.
    + rewrite IH by lia. reflexivity.
Qed.

Lemma insertT_child p pk ref new l x r :
  nid x = ref -> occ ref (idsF l) = 0 -> occ p (idsF (l ++ x :: r)) = 0 ->
  insertT p ref new (Node p pk (l ++ x :: r)) = Node p pk (l ++ new :: x :: r).
Proof.
  intros Hx Hl Hp. simpl insertT. rewrite Nat.eqb_refl.
  change (map (insertT p ref new) (l ++ x :: r)) with (insertF p ref new (l ++ x :: r)).
  rewrite insertF_notin by exact Hp.
  rewrite insert_before_here by assumption. reflexivity.
Qed.

Lemma insertF_focus p ref new Fl t Fr :
  occ p (idsF Fl) = 0 -> occ p (idsF Fr) = 0 ->
  insertF p ref new (Fl ++ t :: Fr) = Fl ++ insertT p ref new t :: Fr.
Proof.
  intros Hl Hr. rewrite insertF_app. simpl insertF.
  change (map (insertT p ref new) Fr) with (insertF p ref new Fr).
  rewrite !insertF_notin by assumption. reflexivity.
Qed.

Ltac occ_all := repeat first [ progress occ_norm | rewrite occ_plug in * ].

(** ** Fresh handles *)
Lemma fold_max_le x l : In x l -> x <= fold_right Nat.max 0 l.
Proof.
  induction l as [|y l IH]; intros H; [destruct H|]. simpl.
  destruct H as [->|H]; [lia | specialize (IH H); lia].
Qed.

Lemma fresh_occ F : occ (fresh F) (idsF F) = 0.
Proof.
  apply notin_occ. intros H. apply fold_max_le in H. unfold fresh in H. lia.
Qed.

Lemma plug_app C1 C2 t : plug (C1 ++ C2) t = plug C1 (plug C2 t).
Proof. induction C1 as [|f C1 IH]; simpl; [reflexivity | rewrite IH; reflexivity]. Qed.

Lemma occ_ctx_app x C1 C2 :
  occ x (ctx_ids (C1 ++ C2)) = occ x (ctx_ids C1) + occ x (ctx_ids C2).
Proof.
  induction C1 as [|f C1 IH]; [reflexivity|].
  rewrite <- app_comm_cons. simpl ctx_ids. occ_norm. rewrite IH. lia.
Qed.

(** ** Running a script step by step *)
Lemma bind_val {A B} (m : M A) (k : A -> M B) F a F' :
  m F = (Val a, F') -> bind m k F = k a F'.
Proof. intros H. unfold bind. rewrite H. reflexivity. Qed.

Lemma bind_throw {A B} (m : M A) (k : A -> M B) F e F' :
  m F = (Throw e, F') -> bind m k F = (Throw e, F').
Proof. intros H. unfold bind. rewrite H. reflexivity. Qed.

Lemma withNode_child {A} (f : Loc -> M A) Fl C p pk l x r Fr :
  NoDup (idsF (Fl ++ plug C (Node p pk (l ++ x :: r)) :: Fr)) ->
  withNode (nid x) f (Fl ++ plug C (Node p pk (l ++ x :: r)) :: Fr) =
  f (mkLoc (Some (p, pk)) l x r) (Fl ++ plug C (Node p pk (l ++ x :: r)) :: Fr).
Proof.
  intros Hnd. unfold withNode.
  pose proof (locate_At Fl _ Fr (mkLoc (Some (p, pk)) l x r) Hnd (At_plug C p pk l x r)) as H.
  simpl loc_self in H. rewrite H. reflexivity.
Qed.

(** ** The last element of a sibling list *)
Lemma find_none_existsb {A} (f : A -> bool) l : existsb f l = false -> find f l = None.
Proof.
  induction l as [|a l IH]; simpl; [reflexivity|].
  destruct (f a); simpl; [discriminate | exact IH].
Qed.

Lemma find_app {A} (f : A -> bool) a b :
  find f (a ++ b) = match find f a with Some x => Some x | None => find f b end.
Proof. induction a as [|x a IH]; simpl; [reflexivity|]. destruct (f x); [reflexivity | exact IH]. Qed.

Lemma existsb_rev {A} (f : A -> bool) l : existsb f (rev l) = existsb f l.
Proof.
  induction l as [|a l IH]; simpl; [reflexivity|].
  rewrite existsb_app, IH. simpl. rewrite orb_false_r. apply orb_comm.
Qed.

Lemma lastElement_app l1 P l2 :
  isElementT P = true -> existsb isElementT l2 = false ->
  lastElement (l1 ++ P :: l2) = Some (nid P).
Proof.
  intros HP Hl2. unfold lastElement. rewrite rev_app_distr. simpl rev.
  rewrite <- app_assoc. rewrite find_app.
  rewrite find_none_existsb by (rewrite existsb_rev; exact Hl2).
  simpl. rewrite HP. reflexivity.
Qed.

Lemma lastElement_none l : existsb isElementT l = false -> lastElement l = None.
Proof.
  intros H. unfold lastElement. rewrite find_none_existsb; [reflexivity|].
  rewrite existsb_rev. exact H.
Qed.

Lemma dropLastElement_none l :
  existsb isElementT l = false -> dropLastElement l = (l, []).
Proof.
  induction l as [|c l IH]; simpl; [reflexivity|]. intros H.
  apply orb_false_iff in H. destruct H as [Hc Hl]. rewrite Hl, Hc. reflexivity.
Qed.

Lemma dropLastElement_last l1 P l2 :
  isElementT P = true -> existsb isElementT l2 = false ->
  dropLastElement (l1 ++ P :: l2) = (l1 ++ l2, [P]).
Proof.
  intros HP Hl2. induction l1 as [|c l1 IH]; simpl.
  - rewrite Hl2, HP. reflexivity.
  - rewrite existsb_app. simpl. rewrite HP, orb_true_r. rewrite IH. reflexivity.
Qed.

Lemma lastElement_cases l :
  existsb isElementT l = false \/
  exists l1 P l2, l = l1 ++ P :: l2 /\ isElementT P = true /\
                  existsb isElementT l2 = false.
Proof.
  induction l as [|c l IH]; [left; reflexivity|].
  destruct IH as [Hl | [l1 [P [l2 [-> [HP Hl2]]]]]].
  - destruct (isElementT c) eqn:Hc.
    + right. exists [], c, l. repeat split; assumption.
    + left. simpl. rewrite Hc, Hl. reflexivity.
  - right. exists (c :: l1), P, l2. repeat split; assumption.
Qed.

Section Shape.
Variables (Fl Fr : Forest) (C : list Frame) (p : handle) (pk : NodeKind).
Local Abbreviation shape := (shape Fl Fr C p pk).

(** ** The DOM calls of [removeSignature] on a forest of known shape

    Each lemma evaluates one call on a forest [shape cs dets] whose handles
    are unique, and gives the value and the forest after the call. *)
Lemma shape_app cs d x : shape cs d ++ [x] = shape cs (d ++ [x]).
Proof. unfold shape. rewrite <- !app_assoc. simpl. rewrite <- app_assoc. reflexivity. Qed.

Lemma withNode_shape {A} (f : Loc -> M A) l x r d :
  NoDup (idsF (shape (l ++ x :: r) d)) ->
  withNode (nid x) f (shape (l ++ x :: r) d) =
  f (mkLoc (Some (p, pk)) l x r) (shape (l ++ x :: r) d).
Proof. apply withNode_child. Qed.

Lemma step_previousElementSibling l x r d :
  NoDup (idsF (shape (l ++ x :: r) d)) -> isElementT x = true ->
  previousElementSibling (nid x) (shape (l ++ x :: r) d) =
  (Val (lastElement l), shape (l ++ x :: r) d).
Proof.
  intros Hnd Hx. unfold previousElementSibling. rewrite withNode_shape by exact Hnd.
  cbn [loc_self loc_left loc_parent loc_right].
  unfold isElementT in Hx. rewrite Hx. reflexivity.
Qed.

Lemma step_parentNode l x r d :
  NoDup (idsF (shape (l ++ x :: r) d)) ->
  parentNode (nid x) (shape (l ++ x :: r) d) = (Val (Some p), shape (l ++ x :: r) d).
Proof.
  intros Hnd. unfold parentNode. rewrite withNode_shape by exact Hnd. reflexivity.
Qed.

Lemma step_ownerDocument l x r d :
  NoDup (idsF (shape (l ++ x :: r) d)) -> isElementT x = true ->
  ownerDocument (nid x) (shape (l ++ x :: r) d) =
  (Val (Some OwnerDocument), shape (l ++ x :: r) d).
Proof.
  intros Hnd Hx. unfold ownerDocument. rewrite withNode_shape by exact Hnd.
  cbn [loc_self loc_left loc_parent loc_right]. unfold isElementT in Hx. destruct (kind x); try discriminate.
  reflexivity.
Qed.

Lemma step_firstElementChild l x r d :
  NoDup (idsF (shape (l ++ x :: r) d)) -> isElementT x = true ->
  firstElementChild (nid x) (shape (l ++ x :: r) d) =
  (Val (firstElement (childNodes x)), shape (l ++ x :: r) d).
Proof.
  intros Hnd Hx. unfold firstElementChild. rewrite withNode_shape by exact Hnd.
  cbn [loc_self loc_left loc_parent loc_right]. unfold isElementT in Hx. destruct (kind x); try discriminate.
  reflexivity.
Qed.

Lemma NoDup_shape_remove l x r d :
  NoDup (idsF (shape (l ++ x :: r) d)) -> NoDup (idsF (shape (l ++ r) (d ++ [x]))).
Proof.
  intros Hnd. apply NoDup_occ. intros y. unfold shape in *.
  nodup_at Hnd y. occ_all. lia.
Qed.

Lemma step_remove l x r d :
  NoDup (idsF (shape (l ++ x :: r) d)) -> isElementT x = true ->
  remove (nid x) (shape (l ++ x :: r) d) = (Val tt, shape (l ++ r) (d ++ [x])).
Proof.
  intros Hnd Hx. unfold remove. rewrite withNode_shape by exact Hnd.
  cbn [loc_self loc_left loc_parent loc_right].
  unfold isElementT in Hx. rewrite Hx. cbn [orb].
  f_equal. rewrite <- shape_app. f_equal. unfold shape in *.
  nodup_at Hnd (nid x). occ_all. pose proof (occ_nid x).
  rewrite cutF_focus by (occ_all; lia).
  rewrite cutT_plug; [| lia | simpl; intros e; rewrite e, Nat.eqb_refl in *; lia ].
  rewrite cutT_child; [reflexivity | | lia | lia].
  intros e. rewrite e, Nat.eqb_refl in *. lia.
Qed.

Lemma step_remove_last L R d :
  NoDup (idsF (shape (L ++ R) d)) ->
  optionally_ (lastElement L) remove (shape (L ++ R) d) =
  (Val tt, shape (fst (dropLastElement L) ++ R) (d ++ snd (dropLastElement L))).
Proof.
  intros Hnd. destruct (lastElement_cases L) as [H | [l1 [P [l2 [-> [HP Hl2]]]]]].
  - rewrite lastElement_none, dropLastElement_none by exact H.
    simpl. rewrite app_nil_r. reflexivity.
  - rewrite lastElement_app, dropLastElement_last by assumption. simpl.
    rewrite <- !app_assoc in *. simpl app in *.
    apply step_remove; assumption.
Qed.

Lemma NoDup_remove_last L R d :
  NoDup (idsF (shape (L ++ R) d)) ->
  NoDup (idsF (shape (fst (dropLastElement L) ++ R) (d ++ snd (dropLastElement L)))).
Proof.
  intros Hnd. destruct (lastElement_cases L) as [H | [l1 [P [l2 [-> [HP Hl2]]]]]].
  - rewrite dropLastElement_none by exact H. simpl. rewrite app_nil_r. exact Hnd.
  - rewrite dropLastElement_last by assumption. simpl.
    rewrite <- !app_assoc in *. simpl app in *.
    apply NoDup_shape_remove. exact Hnd.
Qed.

Lemma locate_parent_shape cs d :
  NoDup (idsF (shape cs d)) ->
  exists lp, locate p (shape cs d) = Some lp /\ loc_self lp = Node p pk cs.
Proof.
  intros Hnd. unfold shape in *.
  destruct (locate_focus Fl C (Node p pk cs) (Fr ++ d) Hnd) as [lp [H1 [H2 _]]].
  exists lp. split; assumption.
Qed.

Lemma step_insertBefore tag br l x r d :
  let B := Node br (ElementNode tag [] []) [] in
  NoDup (idsF (shape (l ++ x :: r) (d ++ [B]))) ->
  isParentNode pk = true -> isDocument pk = false ->
  insertBefore (Some p) br (nid x) (shape (l ++ x :: r) (d ++ [B])) =
  (Val tt, shape (l ++ B :: x :: r) d).
Proof.
  intros B Hnd Hpk Hdoc. subst B. set (B := Node br (ElementNode tag [] []) []) in *.
  unfold insertBefore.
  destruct (locate_parent_shape _ _ Hnd) as [lp [Hlp Hself]].
  unfold withNode at 1. rewrite Hlp.
  assert (Hbr : locate br (shape (l ++ x :: r) (d ++ [B])) = Some (mkLoc None [] B [])).
  { rewrite <- shape_app. rewrite <- shape_app in Hnd.
    apply (locate_root (shape (l ++ x :: r) d) B []). exact Hnd. }
  unfold withNode at 1. rewrite Hbr.
  rewrite withNode_shape by exact Hnd.
  cbn [loc_self loc_left loc_parent loc_right]. rewrite Hself.
  cbn [kind]. rewrite Hpk, Hdoc, Nat.eqb_refl. cbn [negb andb].
  subst B. cbn [kind isElement negb ids flat_map app existsb].
  unfold shape in Hnd. nodup_at Hnd p. nodup_at Hnd br. nodup_at Hnd (nid x).
  occ_all. rewrite !Nat.eqb_refl in *. pose proof (occ_nid x).
  assert (Hpb : (p =? br)%nat = false).
  { destruct (Nat.eqb_spec p br); [lia | reflexivity]. }
  rewrite Hpb. cbn [orb].
  f_equal. unfold detach.
  rewrite <- shape_app, cutF_app.
  rewrite (cutF_notin br (shape _ d)) by (unfold shape; occ_all; lia).
  cbn [cutF map cutT filter]. rewrite filter_app.
  rewrite filter_keeps_notin by (unfold shape; occ_all; lia).
  replace (filter (keeps br) [Node br (ElementNode tag [] []) []]) with (@nil Tree)
    by (unfold keeps; simpl; rewrite Nat.eqb_refl; reflexivity).
  rewrite app_nil_r.
  unfold shape. rewrite insertF_focus by (occ_all; lia).
  rewrite insertT_plug by lia.
  rewrite insertT_child; [reflexivity | reflexivity | lia | occ_all; lia].
Qed.

Lemma NoDup_shape_insert B l x r d :
  NoDup (idsF (shape (l ++ x :: r) (d ++ [B]))) ->
  NoDup (idsF (shape (l ++ B :: x :: r) d)).
Proof.
  intros Hnd. apply NoDup_occ. intros y. unfold shape in *.
  nodup_at Hnd y. occ_all. lia.
Qed.

Lemma NoDup_shape_fresh cs d tag :
  NoDup (idsF (shape cs d)) ->
  NoDup (idsF (shape cs (d ++ [Node (fresh (shape cs d)) (ElementNode tag [] []) []]))).
Proof.
  intros Hnd. pose proof (fresh_occ (shape cs d)) as Hf.
  set (b := fresh (shape cs d)) in *. clearbody b.
  apply NoDup_occ. intros y. unfold shape in *.
  nodup_at Hnd y. occ_all. destruct (Nat.eqb_spec b y); [subst; lia | lia].
Qed.

Lemma step_classList_first c l n nk kids r d :
  NoDup (idsF (shape (l ++ Node n nk kids :: r) d)) ->
  optionally (firstElement kids)
    (fun f => bind (classList_contains f c) (fun b => ret (Some b)))
    (shape (l ++ Node n nk kids :: r) d) =
  (Val (option_map (fun t => hasClass c (kind t)) (find isElementT kids)),
   shape (l ++ Node n nk kids :: r) d).
Proof.
  intros Hnd. unfold firstElement.
  destruct (find isElementT kids) as [t|] eqn:Hfind; [|reflexivity].
  apply find_some in Hfind. destruct Hfind as [Hin Ht].
  apply in_split in Hin. destruct Hin as [a [b ->]].
  cbn [option_map optionally]. unfold classList_contains.
  assert (E : shape (l ++ Node n nk (a ++ t :: b) :: r) d =
              Fl ++ plug (C ++ [mkFrame p pk l r]) (Node n nk (a ++ t :: b)) :: Fr ++ d).
  { unfold shape. rewrite plug_app. reflexivity. }
  rewrite (bind_val _ _ _ (hasClass c (kind t)) (shape (l ++ Node n nk (a ++ t :: b) :: r) d)).
  - reflexivity.
  - rewrite E in *. rewrite withNode_child by exact Hnd.
    cbn [loc_self]. unfold isElementT in Ht. destruct (kind t); try discriminate.
    reflexivity.
Qed.

Lemma step_querySelector selector sel l n nk kids r d :
  NoDup (idsF (shape (l ++ Node n nk kids :: r) d)) ->
  isElement nk = true -> parse_selector selector = Some sel ->
  querySelector n selector (shape (l ++ Node n nk kids :: r) d) =
  (Val (option_map nid (firstMatchF sel kids)), shape (l ++ Node n nk kids :: r) d).
Proof.
  intros Hnd Hk Hsel. unfold querySelector.
  change n with (nid (Node n nk kids)) at 1. rewrite withNode_shape by exact Hnd.
  cbn [loc_self kind childNodes]. rewrite Hsel.
  destruct nk; try discriminate. reflexivity.
Qed.

Lemma At_parent l t : At l t -> loc_parent l <> None.
Proof. induction 1 as [i k a b Hp _ _ | ]; [rewrite Hp; discriminate | assumption]. Qed.

Lemma cutT_At : forall loc t,
  NoDup (ids t) -> At loc t ->
  forall y, occ y (ids (cutT (nid (loc_self loc)) t)) + occ y (ids (loc_self loc)) =
            occ y (ids t).
Proof.
  intros loc t Hnd Hat. induction Hat as [i k a b Hp Ha Hb | i k cs c Hin Hat IH]; intros y.
  - nodup_at Hnd (nid (loc_self loc)). pose proof (occ_nid (loc_self loc)).
    rewrite cutT_child; [occ_norm; lia | | lia | lia].
    intros e. rewrite e, Nat.eqb_refl in *. lia.
  - apply in_split in Hin. destruct Hin as [a [b ->]].
    pose proof (At_occ _ _ Hat) as Hocc. set (h := nid (loc_self loc)) in *.
    nodup_at Hnd h. destruct c as [j kc ccs]. cbn [childNodes] in Hocc. occ_norm.
    change (Node i k (a ++ Node j kc ccs :: b))
      with (plug [mkFrame i k a b] (Node j kc ccs)).
    rewrite cutT_plug.
    + cbn [plug f_id f_kind f_left f_right]. occ_norm.
      assert (Hc : NoDup (ids (Node j kc ccs))).
      { apply NoDup_occ. intros z. nodup_at Hnd z. lia. }
      specialize (IH Hc y). occ_norm. lia.
    + cbn [ctx_ids f_id f_left f_right]. occ_norm. lia.
    + cbn [nid]. intros e. rewrite e, Nat.eqb_refl in *. lia.
Qed.

Lemma step_remove_below loc l x r d :
  NoDup (idsF (shape (l ++ x :: r) d)) ->
  At loc x -> isElementT (loc_self loc) = true ->
  remove (nid (loc_self loc)) (shape (l ++ x :: r) d) =
  (Val tt, shape (l ++ cutT (nid (loc_self loc)) x :: r) (d ++ [loc_self loc])).
Proof.
  intros Hnd Hat Hel. unfold remove, withNode.
  assert (Hat' : At loc (plug C (Node p pk (l ++ x :: r)))).
  { apply At_plug_lift. apply At_below with (c := x); [|exact Hat].
    apply in_or_app. right. left. reflexivity. }
  unfold shape at 1. rewrite (locate_At Fl _ (Fr ++ d) loc Hnd Hat').
  unfold isElementT in Hel. rewrite Hel. cbn [orb].
  destruct (loc_parent loc) as [pr|] eqn:Hpar;
    [| exfalso; exact (At_parent _ _ Hat Hpar)].
  f_equal. rewrite <- shape_app. f_equal.
  pose proof (At_occ _ _ Hat) as Hocc. set (h := nid (loc_self loc)) in *.
  unfold shape in *. nodup_at Hnd h. occ_all.
  destruct x as [n nk kids]. cbn [childNodes] in Hocc. occ_norm.
  rewrite cutF_focus by (occ_all; lia).
  change (plug C (Node p pk (l ++ Node n nk kids :: r)))
    with (plug C (plug [mkFrame p pk l r] (Node n nk kids))).
  rewrite <- plug_app. rewrite cutT_plug.
  - rewrite plug_app. reflexivity.
  - rewrite occ_ctx_app. cbn [ctx_ids f_id f_left f_right]. occ_norm. lia.
  - cbn [nid]. intros e. rewrite e, Nat.eqb_refl in *. lia.
Qed.

End Shape.

(** ** What [querySelector] finds is a descendant *)
Lemma At_cons loc i k c cs :
  At loc (Node i k cs) ->
  exists loc', loc_self loc' = loc_self loc /\ At loc' (Node i k (c :: cs)).
Proof.
  intros H. inversion H as [i' k' a b Hp Ha Hb Heq | i' k' cs' c' Hin Hat Heq]; subst.
  - exists (mkLoc (Some (i, k)) (c :: loc_left loc) (loc_self loc) (loc_right loc)).
    split; [reflexivity|].
    apply (At_child (mkLoc (Some (i, k)) (c :: loc_left loc) (loc_self loc) (loc_right loc))
             i k (c :: loc_left loc) (loc_right loc)); reflexivity.
  - exists loc. split; [reflexivity|].
    apply At_below with (c := c'); [right; exact Hin | exact Hat].
Qed.

Lemma firstMatchF_At_aux sel cs :
  Forall (fun t => forall S, firstMatchT sel t = Some S ->
                   S = t \/ exists loc, loc_self loc = S /\ At loc t) cs ->
  forall S i k, firstMatchF sel cs = Some S ->
  exists loc, loc_self loc = S /\ At loc (Node i k cs).
Proof.
  induction 1 as [|c cs Hc _ IHcs]; intros S i k H; [discriminate|].
  simpl in H. remember (firstMatchT sel c) as o eqn:Hx. symmetry in Hx.
  destruct o as [x|].
  - injection H as ->. destruct (Hc S eq_refl) as [-> | [loc [Hs Hat]]].
    + exists (mkLoc (Some (i, k)) [] c cs). split; [reflexivity|].
      apply (At_child (mkLoc (Some (i, k)) [] c cs) i k [] cs); reflexivity.
    + exists loc. split; [exact Hs|].
      apply At_below with (c := c); [left; reflexivity | exact Hat].
  - destruct (IHcs S i k H) as [loc [Hs Hat]].
    destruct (At_cons loc i k c cs Hat) as [loc' [Hs' Hat']].
    exists loc'. split; [congruence | exact Hat'].
Qed.

Lemma firstMatchT_At sel :
  forall t S, firstMatchT sel t = Some S ->
  S = t \/ exists loc, loc_self loc = S /\ At loc t.
Proof.
  induction t as [i k cs IH] using Tree_ind'. intros S H.
  rewrite firstMatchT_eq in H. destruct (selects sel k).
  - left. congruence.
  - right. apply (firstMatchF_At_aux sel cs IH S i k H).
Qed.

Lemma firstMatchF_At sel cs S i k :
  firstMatchF sel cs = Some S -> exists loc, loc_self loc = S /\ At loc (Node i k cs).
Proof.
  apply firstMatchF_At_aux. apply Forall_forall. intros t _. apply firstMatchT_At.
Qed.

Lemma firstMatchT_selects sel :
  forall t S, firstMatchT sel t = Some S -> selects sel (kind S) = true.
Proof.
  induction t as [i k cs IH] using Tree_ind'. intros S H.
  rewrite firstMatchT_eq in H. destruct (selects sel k) eqn:Hk.
  - injection H as <-. exact Hk.
  - clear Hk. induction IH as [|c cs Hc _ IHcs]; [discriminate|].
    simpl in H. remember (firstMatchT sel c) as o eqn:Hx. symmetry in Hx.
    destruct o as [x|]; [injection H as ->; exact (Hc S eq_refl) | exact (IHcs H)].
Qed.

Lemma firstMatchF_selects sel cs S :
  firstMatchF sel cs = Some S -> selects sel (kind S) = true.
Proof.
  induction cs as [|c cs IH]; intros H; [discriminate|]. simpl in H.
  destruct (firstMatchT sel c) as [x|] eqn:Hx.
  - injection H as ->. exact (firstMatchT_selects sel c S Hx).
  - exact (IH H).
Qed.

Lemma selects_element sel k : selects sel k = true -> isElement k = true.
Proof. destruct k; simpl; intros H; (reflexivity || discriminate). Qed.

Lemma dropLastElement_app l1 l2 :
  existsb isElementT l2 = false ->
  dropLastElement (l1 ++ l2) = (fst (dropLastElement l1) ++ l2, snd (dropLastElement l1)).
Proof.
  intros H2. destruct (lastElement_cases l1) as [H | [a [P [b [-> [HP Hb]]]]]].
  - rewrite (dropLastElement_none l1) by exact H. simpl.
    apply dropLastElement_none. rewrite existsb_app, H, H2. reflexivity.
  - rewrite <- app_assoc. simpl app.
    rewrite !dropLastElement_last; try assumption.
    + simpl. rewrite <- app_assoc. reflexivity.
    + rewrite existsb_app, Hb, H2. reflexivity.
Qed.

Section Attached.
Variables (Fl Fr : Forest) (C : list Frame) (p : handle) (pk : NodeKind).
Local Abbreviation shape := (shape Fl Fr C p pk).

(** ** [removeSignature] on an attached element *)
Lemma siblingCleanup_empty_last l1 P l2 :
  isElementT P = true -> existsb isElementT l2 = false ->
  siblingCleanup true (l1 ++ P :: l2) =
  (fst (dropLastElement l1) ++ l2, snd (dropLastElement l1) ++ [P]).
Proof.
  intros HP Hl2. unfold siblingCleanup.
  rewrite dropLastElement_last by assumption.
  rewrite dropLastElement_app by assumption. reflexivity.
Qed.

(** The branch on [isEmptySignature], for either value: the siblings
    [siblingCleanup] names are detached, in its order. *)
Lemma step_cleanup (empty : bool) L R d :
  NoDup (idsF (shape (L ++ R) d)) ->
  (if negb empty then optionally_ (lastElement L) remove
   else bind (optionally (lastElement L) previousElementSibling) (fun prevPrev =>
        bind (optionally_ prevPrev remove) (fun _ =>
        optionally_ (lastElement L) remove)))
    (shape (L ++ R) d) =
  (Val tt, shape (fst (siblingCleanup empty L) ++ R) (d ++ snd (siblingCleanup empty L)))
  /\ NoDup (idsF (shape (fst (siblingCleanup empty L) ++ R)
                        (d ++ snd (siblingCleanup empty L)))).
Proof.
  intros Hnd. destruct empty; cbn [negb].
  - destruct (lastElement_cases L) as [H | [l1 [P [l2 [-> [HP Hl2]]]]]].
    + rewrite (lastElement_none L H). unfold siblingCleanup.
      rewrite !(dropLastElement_none L H). cbn [fst snd app optionally optionally_].
      rewrite app_nil_r. split; [reflexivity | exact Hnd].
    + rewrite lastElement_app by assumption.
      rewrite siblingCleanup_empty_last by assumption. cbn [fst snd optionally optionally_].
      rewrite <- !app_assoc in *. cbn [app] in *.
      pose proof (NoDup_remove_last Fl Fr C p pk l1 (P :: l2 ++ R) d Hnd) as Hnd1.
      rewrite (bind_val _ _ _ _ _
                 (step_previousElementSibling Fl Fr C p pk l1 P (l2 ++ R) d Hnd HP)).
      rewrite (bind_val _ _ _ _ _ (step_remove_last Fl Fr C p pk l1 (P :: l2 ++ R) d Hnd)).
      rewrite (step_remove Fl Fr C p pk _ P (l2 ++ R) _ Hnd1 HP).
      pose proof (NoDup_shape_remove Fl Fr C p pk _ P (l2 ++ R) _ Hnd1) as Hnd2.
      rewrite <- !app_assoc in *. split; [reflexivity | exact Hnd2].
  - unfold siblingCleanup. split.
    + apply step_remove_last. exact Hnd.
    + apply NoDup_remove_last. exact Hnd.
Qed.

Variables (L : list Tree) (n : handle) (nk : NodeKind) (kids r : list Tree).
Hypothesis Hnk : isElement nk = true.
Hypothesis Hpk : isParentNode pk = true.
Hypothesis Hdoc : isDocument pk = false.
Hypothesis Hnd : NoDup (idsF (shape (L ++ Node n nk kids :: r) [])).

(** [removeSignature] on an element [Node n nk kids] whose parent is an
    element or a fragment, anywhere in a forest with unique handles: the
    value returned and the forest left, whatever the siblings [L] before the
    node are and whether or not the node holds a vendor signature. *)
Lemma removeSignature_attached :
  RemoveSignature.removeSignature n (shape (L ++ Node n nk kids :: r) []) =
  let BR := Node (fresh (shape (L ++ Node n nk kids :: r) [])) (ElementNode "br" [] []) [] in
  let LD := siblingCleanup (truthy (isEmptySignatureOf kids)) L in
  match firstMatchF protonSignatureSelector kids with
  | Some sig =>
      (Val true,
       shape (fst LD ++ BR :: cutT (nid sig) (Node n nk kids) :: r) (snd LD ++ [sig]))
  | None =>
      (Val false, shape (fst LD ++ BR :: Node n nk kids :: r) (snd LD))
  end.
Proof.
  set (N := Node n nk kids) in *.
  assert (HN : isElementT N = true) by exact Hnk.
  unfold RemoveSignature.removeSignature, try_catch, RemoveSignature.removeSignature_try.
  change n with (nid N) at 1.
  rewrite (bind_val _ _ _ _ _ (step_previousElementSibling Fl Fr C p pk L N r [] Hnd HN)).
  change n with (nid N) at 1.
  rewrite (bind_val _ _ _ _ _ (step_firstElementChild Fl Fr C p pk L N r [] Hnd HN)).
  rewrite (bind_val _ _ _ _ _
    (step_classList_first Fl Fr C p pk
       (slice1 RemoveSignature.CONFIG.selectors.emptySignature) L n nk kids r [] Hnd)).
  change n with (nid N) at 1.
  rewrite (bind_val _ _ _ _ _ (step_ownerDocument Fl Fr C p pk L N r [] Hnd HN)).
  rewrite (bind_val _ _ _ (fresh (shape (L ++ N :: r) []))
             (shape (L ++ N :: r) [] ++
              [Node (fresh (shape (L ++ N :: r) [])) (ElementNode "br" [] []) []]))
    by reflexivity.
  rewrite shape_app. cbn [app].
  pose proof (NoDup_shape_fresh Fl Fr C p pk _ _ "br" Hnd) as Hnd1. cbn [app] in Hnd1.
  set (br := fresh (shape (L ++ N :: r) [])) in *. clearbody br.
  change n with (nid N) at 1.
  rewrite (bind_val _ _ _ _ _ (step_parentNode Fl Fr C p pk L N r _ Hnd1)).
  change n with (nid N) at 1.
  rewrite (bind_val _ _ _ _ _
             (step_insertBefore Fl Fr C p pk "br" br L N r [] Hnd1 Hpk Hdoc)).
  pose proof (NoDup_shape_insert Fl Fr C p pk _ L N r [] Hnd1) as Hnd2.
  set (BR := Node br (ElementNode "br" [] []) []) in *.
  change (isEmptySignatureOf kids)
    with (option_map (fun t => hasClass (slice1 RemoveSignature.CONFIG.selectors.emptySignature) (kind t))
            (find isElementT kids)).
  set (v := option_map _ (find isElementT kids)).
  destruct (step_cleanup (truthy v) L (BR :: N :: r) [] Hnd2) as [Hstep Hnd3].
  rewrite (bind_val _ _ _ _ _ Hstep). cbn [app] in *.
  set (LD := siblingCleanup (truthy v) L) in *.
  assert (Hsel : parse_selector RemoveSignature.CONFIG.selectors.protonSignature
                 = Some protonSignatureSelector) by reflexivity.
  replace (fst LD ++ BR :: N :: r) with ((fst LD ++ [BR]) ++ N :: r) in *
    by (rewrite <- app_assoc; reflexivity).
  rewrite (bind_val _ _ _ _ _
    (step_querySelector Fl Fr C p pk _ _ (fst LD ++ [BR]) n nk kids r (snd LD) Hnd3 Hnk Hsel)).
  destruct (firstMatchF protonSignatureSelector kids) as [sig|] eqn:HS; cbn [option_map].
  - destruct (firstMatchF_At _ _ _ n nk HS) as [loc [Hloc Hat]].
    pose proof (selects_element _ _ (firstMatchF_selects _ _ _ HS)) as HSel.
    subst sig. fold N in Hat.
    rewrite (bind_val _ _ _ _ _
      (step_remove_below Fl Fr C p pk loc (fst LD ++ [BR]) N r (snd LD) Hnd3 Hat HSel)).
    cbn [ret]. rewrite <- app_assoc. reflexivity.
  - cbn [ret]. reflexivity.
Qed.

End Attached.

(** ** What well-formedness says about a parent *)

Lemma hierarchyT_plug C t : hierarchyT (plug C t) = true -> hierarchyT t = true.
Proof.
  induction C as [|f C IH]; simpl; [tauto|]. intros H.
  apply andb_true_iff in H. destruct H as [_ H].
  rewrite forallb_app in H. apply andb_true_iff in H. destruct H as [_ H].
  simpl in H. apply andb_true_iff in H. destruct H as [H _]. exact (IH H).
Qed.

Lemma wellFormed_focus Fl C t Fr :
  wellFormed (Fl ++ plug C t :: Fr) -> hierarchyT t = true.
Proof.
  intros [_ H]. rewrite forallb_app in H. apply andb_true_iff in H.
  destruct H as [_ H]. simpl in H. apply andb_true_iff in H.
  destruct H as [H _]. exact (hierarchyT_plug C t H).
Qed.

Lemma hierarchyT_parent i k l x r :
  hierarchyT (Node i k (l ++ x :: r)) = true -> isParentNode k = true.
Proof.
  simpl. intros H. apply andb_true_iff in H. destruct H as [H _].
  apply andb_true_iff in H. destruct H as [H _].
  destruct (isParentNode k); [reflexivity|]. destruct l; discriminate.
Qed.

Lemma hierarchyT_two_elements i k a x b y c :
  hierarchyT (Node i k (a ++ x :: b ++ y :: c)) = true ->
  isElementT x = true -> isElementT y = true -> isDocument k = false.
Proof.
  simpl. intros H Hx Hy. apply andb_true_iff in H. destruct H as [H _].
  apply andb_true_iff in H. destruct H as [_ H].
  destruct (isDocument k); [|reflexivity]. simpl in H. exfalso.
  rewrite filter_app in H. simpl in H. rewrite Hx in H.
  rewrite filter_app in H. simpl in H. rewrite Hy in H.
  rewrite length_app in H. simpl in H. rewrite length_app in H. simpl in H.
  apply Nat.leb_le in H. lia.
Qed.

(** The nodes that stay in a tree when the subtree at [loc] is cut out of
    it are the nodes outside that subtree. *)
Lemma cutT_At_In loc t :
  NoDup (ids t) -> At loc t ->
  forall h, In h (ids (cutT (nid (loc_self loc)) t)) <->
            In h (ids t) /\ ~ In h (ids (loc_self loc)).
Proof.
  intros Hnd Hat h. pose proof (cutT_At loc t Hnd Hat h) as E.
  pose proof (proj1 (NoDup_occ _) Hnd h) as Hh.
  rewrite !in_occ. lia.
Qed.

Lemma shape_nil Fl Fr C p pk cs :
  shape Fl Fr C p pk cs [] = Fl ++ plug C (Node p pk cs) :: Fr.
Proof. unfold shape. rewrite app_nil_r. reflexivity. Qed.

Lemma NoDup_focus Fl C p pk l x r Fr :
  NoDup (idsF (Fl ++ plug C (Node p pk (l ++ x :: r)) :: Fr)) -> NoDup (ids x).
Proof.
  intros Hnd. apply NoDup_occ. intros y. nodup_at Hnd y. occ_all. lia.
Qed.

(** After the line break is in and the siblings are gone, handles are still
    unique. *)
Lemma NoDup_after_cleanup Fl Fr C p pk L x r empty :
  NoDup (idsF (shape Fl Fr C p pk (L ++ x :: r) [])) ->
  NoDup (idsF (shape Fl Fr C p pk
                 (fst (siblingCleanup empty L) ++
                  lineBreak (fresh (shape Fl Fr C p pk (L ++ x :: r) [])) :: x :: r)
                 (snd (siblingCleanup empty L)))).
Proof.
  intros Hnd.
  pose proof (NoDup_shape_fresh Fl Fr C p pk _ _ "br" Hnd) as Hnd1. cbn [app] in Hnd1.
  pose proof (NoDup_shape_insert Fl Fr C p pk _ L x r [] Hnd1) as Hnd2.
  destruct (step_cleanup Fl Fr C p pk empty L _ [] Hnd2) as [_ Hnd3].
  exact Hnd3.
Qed.

Lemma lineBreakBefore_shape Fl Fr C p pk l h x r d :
  NoDup (idsF (shape Fl Fr C p pk (l ++ lineBreak h :: x :: r) d)) ->
  lineBreakBefore (nid x) (shape Fl Fr C p pk (l ++ lineBreak h :: x :: r) d) = true.
Proof.
  intros Hnd. unfold lineBreakBefore.
  replace (l ++ lineBreak h :: x :: r) with ((l ++ [lineBreak h]) ++ x :: r) in *
    by (rewrite <- app_assoc; reflexivity).
  unfold shape in *.
  pose proof (locate_At Fl _ (Fr ++ d) (mkLoc (Some (p, pk)) (l ++ [lineBreak h]) x r)
                Hnd (At_plug C p pk _ x r)) as H.
  cbn [loc_self] in H. rewrite H. cbn [loc_left].
  rewrite rev_app_distr. reflexivity.
Qed.

(** * Properties of [removeSignature] *)

Ltac concrete_nodup :=
  repeat (constructor; [simpl; intuition discriminate|]); constructor.

(** C1.  A signature block of the regular variant (its first element child
    does not carry the empty-signature class) that contains a vendor
    signature [sig] and has a preceding element sibling [P]:
    [removeSignature] returns [true]; the parent's child list loses exactly
    [P] and gains one [br] immediately before the block; the block loses
    exactly the subtree of [sig]; [P] and [sig] end up detached.  The block
    sits anywhere in a well-formed forest: [C] is the path from the root of
    its tree to its parent, [l2] the non-element nodes between [P] and the
    block. *)
Theorem removeSignature_regular_block
  (Fl Fr : Forest) (C : list Frame) (p : handle) (pk : NodeKind)
  (l1 : list Tree) (P : Tree) (l2 : list Tree)
  (n : handle) (tag : string) (classes : list string)
  (attrs : list (string * string)) (kids r : list Tree) (sig : Tree) :
  wellFormed (Fl ++ plug C (Node p pk
                (l1 ++ P :: l2 ++ Node n (ElementNode tag classes attrs) kids :: r)) :: Fr) ->
  isElementT P = true ->
  existsb isElementT l2 = false ->
  truthy (isEmptySignatureOf kids) = false ->
  firstMatchF protonSignatureSelector kids = Some sig ->
  RemoveSignature.removeSignature n
    (Fl ++ plug C (Node p pk
       (l1 ++ P :: l2 ++ Node n (ElementNode tag classes attrs) kids :: r)) :: Fr)
  = (Val true,
     Fl ++ plug C (Node p pk
       (l1 ++ l2 ++
        lineBreak (fresh (Fl ++ plug C (Node p pk
          (l1 ++ P :: l2 ++ Node n (ElementNode tag classes attrs) kids :: r)) :: Fr))
        :: cutT (nid sig) (Node n (ElementNode tag classes attrs) kids) :: r))
     :: Fr ++ [P; sig])
  /\ (forall h, In h (ids (cutT (nid sig) (Node n (ElementNode tag classes attrs) kids)))
                <-> In h (ids (Node n (ElementNode tag classes attrs) kids))
                    /\ ~ In h (ids sig)).
Proof.
  intros Hwf HP Hl2 Hempty Hsig.
  set (N := Node n (ElementNode tag classes attrs) kids) in *.
  pose proof (wellFormed_focus _ _ _ _ Hwf) as Hh.
  pose proof (hierarchyT_parent _ _ _ _ _ Hh) as Hpk.
  pose proof (hierarchyT_two_elements _ _ _ _ _ _ _ Hh HP eq_refl) as Hdoc.
  destruct Hwf as [Hnd _].
  replace (l1 ++ P :: l2 ++ N :: r) with ((l1 ++ P :: l2) ++ N :: r) in *
    by (rewrite <- app_assoc; reflexivity).
  split.
  - subst N. rewrite <- shape_nil in *.
    rewrite (removeSignature_attached Fl Fr C p pk (l1 ++ P :: l2) n
               (ElementNode tag classes attrs) kids r eq_refl Hpk Hdoc Hnd).
    cbv zeta. rewrite Hsig, Hempty. unfold siblingCleanup.
    rewrite dropLastElement_last by assumption. cbn [fst snd].
    unfold shape, lineBreak. rewrite <- !app_assoc. reflexivity.
  - destruct (firstMatchF_At _ _ _ n (ElementNode tag classes attrs) Hsig)
      as [loc [Hloc Hat]].
    subst sig. apply cutT_At_In; [|exact Hat].
    exact (NoDup_focus _ _ _ _ _ _ _ _ Hnd).
Qed.

(** The theorem at a composer body with a paragraph, a text node, the
    signature block and the quoted message. *)
Lemma removeSignature_regular_block_witness :
  RemoveSignature.removeSignature 3 regularExample =
  (Val true,
   [Node 0 (ElementNode "body" [] [])
      [Node 2 (TextNode "") [];
       Node 7 (ElementNode "br" [] []) [];
       Node 3 (ElementNode "div" ["protonmail_signature_block"] [])
         [Node 4 (ElementNode "div" ["protonmail_signature_block-user"] []) []];
       Node 6 (ElementNode "blockquote" [] []) []];
    Node 1 (ElementNode "div" [] []) [];
    Node 5 (ElementNode "div" ["protonmail_signature_block-proton"] []) []]).
Proof.
  refine (proj1 (removeSignature_regular_block [] [] [] 0 (ElementNode "body" [] [])
            [] (Node 1 (ElementNode "div" [] []) []) [Node 2 (TextNode "") []]
            3 "div" ["protonmail_signature_block"] []
            [Node 4 (ElementNode "div" ["protonmail_signature_block-user"] []) [];
             Node 5 (ElementNode "div" ["protonmail_signature_block-proton"] []) []]
            [Node 6 (ElementNode "blockquote" [] []) []]
            (Node 5 (ElementNode "div" ["protonmail_signature_block-proton"] []) [])
            _ _ _ _ _)).
  - split; [simpl; concrete_nodup | reflexivity].
  - reflexivity.
  - reflexivity.
  - reflexivity.
  - reflexivity.
Defined.

(** C2.  A signature block of the empty variant (its first element child
    carries the empty-signature class) that contains a vendor signature
    [sig] and has two preceding element siblings, [PP] before [P]:
    [removeSignature] returns [true]; the parent's child list loses exactly
    [PP] and [P] and gains one [br] immediately before the block; the block
    loses exactly the subtree of [sig].  [l1] and [l2] are the non-element
    nodes between [PP], [P] and the block. *)
Theorem removeSignature_empty_block
  (Fl Fr : Forest) (C : list Frame) (p : handle) (pk : NodeKind)
  (l0 : list Tree) (PP : Tree) (l1 : list Tree) (P : Tree) (l2 : list Tree)
  (n : handle) (tag : string) (classes : list string)
  (attrs : list (string * string)) (kids r : list Tree) (sig : Tree) :
  wellFormed (Fl ++ plug C (Node p pk
                (l0 ++ PP :: l1 ++ P :: l2 ++
                 Node n (ElementNode tag classes attrs) kids :: r)) :: Fr) ->
  isElementT PP = true ->
  existsb isElementT l1 = false ->
  isElementT P = true ->
  existsb isElementT l2 = false ->
  truthy (isEmptySignatureOf kids) = true ->
  firstMatchF protonSignatureSelector kids = Some sig ->
  RemoveSignature.removeSignature n
    (Fl ++ plug C (Node p pk
       (l0 ++ PP :: l1 ++ P :: l2 ++
        Node n (ElementNode tag classes attrs) kids :: r)) :: Fr)
  = (Val true,
     Fl ++ plug C (Node p pk
       (l0 ++ l1 ++ l2 ++
        lineBreak (fresh (Fl ++ plug C (Node p pk
          (l0 ++ PP :: l1 ++ P :: l2 ++
           Node n (ElementNode tag classes attrs) kids :: r)) :: Fr))
        :: cutT (nid sig) (Node n (ElementNode tag classes attrs) kids) :: r))
     :: Fr ++ [PP; P; sig])
  /\ (forall h, In h (ids (cutT (nid sig) (Node n (ElementNode tag classes attrs) kids)))
                <-> In h (ids (Node n (ElementNode tag classes attrs) kids))
                    /\ ~ In h (ids sig)).
Proof.
  intros Hwf HPP Hl1 HP Hl2 Hempty Hsig.
  pose proof (wellFormed_focus _ _ _ _ Hwf) as Hh.
  pose proof (hierarchyT_parent _ _ _ _ _ Hh) as Hpk.
  pose proof (hierarchyT_two_elements _ _ _ _ _ _ _ Hh HPP HP) as Hdoc.
  destruct Hwf as [Hnd _].
  replace (l0 ++ PP :: l1 ++ P :: l2 ++ Node n (ElementNode tag classes attrs) kids :: r)
    with (((l0 ++ PP :: l1) ++ P :: l2) ++ Node n (ElementNode tag classes attrs) kids :: r)
    in * by (rewrite <- !app_assoc; reflexivity).
  split.
  - rewrite <- shape_nil in *.
    rewrite (removeSignature_attached Fl Fr C p pk ((l0 ++ PP :: l1) ++ P :: l2) n
               (ElementNode tag classes attrs) kids r eq_refl Hpk Hdoc Hnd).
    cbv zeta. rewrite Hsig, Hempty.
    rewrite siblingCleanup_empty_last by assumption.
    rewrite dropLastElement_last by assumption. cbn [fst snd].
    unfold shape, lineBreak. rewrite <- !app_assoc. reflexivity.
  - destruct (firstMatchF_At _ _ _ n (ElementNode tag classes attrs) Hsig)
      as [loc [Hloc Hat]].
    subst sig. apply cutT_At_In; [|exact Hat].
    exact (NoDup_focus _ _ _ _ _ _ _ _ Hnd).
Qed.

(** The theorem at a composer body with two paragraphs, an empty signature
    block and the quoted message. *)
Lemma removeSignature_empty_block_witness :
  RemoveSignature.removeSignature 3 emptyExample =
  (Val true,
   [Node 0 (ElementNode "body" [] [])
      [Node 7 (ElementNode "br" [] []) [];
       Node 3 (ElementNode "div" ["protonmail_signature_block"] [])
         [Node 4 (ElementNode "div" ["protonmail_signature_block-empty"] []) []];
       Node 6 (ElementNode "blockquote" [] []) []];
    Node 1 (ElementNode "div" [] []) [];
    Node 2 (ElementNode "div" [] []) [];
    Node 5 (ElementNode "div" ["protonmail_signature_block-proton"] []) []]).
Proof.
  refine (proj1 (removeSignature_empty_block [] [] [] 0 (ElementNode "body" [] [])
            [] (Node 1 (ElementNode "div" [] []) [])
            [] (Node 2 (ElementNode "div" [] []) []) []
            3 "div" ["protonmail_signature_block"] []
            [Node 4 (ElementNode "div" ["protonmail_signature_block-empty"] []) [];
             Node 5 (ElementNode "div" ["protonmail_signature_block-proton"] []) []]
            [Node 6 (ElementNode "blockquote" [] []) []]
            (Node 5 (ElementNode "div" ["protonmail_signature_block-proton"] []) [])
            _ _ _ _ _ _ _)).
  - split; [simpl; concrete_nodup | reflexivity].
  - reflexivity.
  - reflexivity.
  - reflexivity.
  - reflexivity.
  - reflexivity.
  - reflexivity.
Defined.

(** C3, as the code has it.  A block without a vendor signature that sits
    under a parent which is not a document: [removeSignature] returns
    [false]; the parent's child list gains one [br] immediately before the
    block and loses the element siblings [siblingCleanup] names (the last one
    before the block, and for the empty variant the one before that too);
    the block itself is untouched.  For every such attached block, with or
    without a vendor signature, [true] is returned exactly when the vendor
    signature exists. *)
Theorem removeSignature_without_vendor_signature
  (Fl Fr : Forest) (C : list Frame) (p : handle) (pk : NodeKind)
  (L : list Tree) (n : handle) (tag : string) (classes : list string)
  (attrs : list (string * string)) (kids r : list Tree) :
  wellFormed (Fl ++ plug C (Node p pk
                (L ++ Node n (ElementNode tag classes attrs) kids :: r)) :: Fr) ->
  isDocument pk = false ->
  let F := Fl ++ plug C (Node p pk
                (L ++ Node n (ElementNode tag classes attrs) kids :: r)) :: Fr in
  let LD := siblingCleanup (truthy (isEmptySignatureOf kids)) L in
  let F' := Fl ++ plug C (Node p pk
                (fst LD ++ lineBreak (fresh F) ::
                 Node n (ElementNode tag classes attrs) kids :: r)) :: Fr ++ snd LD in
  (fst (RemoveSignature.removeSignature n F) = Val true <->
   firstMatchF protonSignatureSelector kids <> None)
  /\ (firstMatchF protonSignatureSelector kids = None ->
      RemoveSignature.removeSignature n F = (Val false, F')
      /\ lineBreakBefore n F' = true).
Proof.
  intros Hwf Hdoc F LD F'. subst F LD F'.
  pose proof (wellFormed_focus _ _ _ _ Hwf) as Hh.
  pose proof (hierarchyT_parent _ _ _ _ _ Hh) as Hpk.
  destruct Hwf as [Hnd _].
  rewrite <- shape_nil in *.
  pose proof (removeSignature_attached Fl Fr C p pk L n
                (ElementNode tag classes attrs) kids r eq_refl Hpk Hdoc Hnd) as E.
  cbv zeta in E. split.
  - rewrite E. destruct (firstMatchF protonSignatureSelector kids); cbn [fst].
    + split; [discriminate | reflexivity].
    + split; [discriminate | congruence].
  - intros Hnone. rewrite Hnone in E. split; [exact E|].
    change n with (nid (Node n (ElementNode tag classes attrs) kids)) at 1.
    apply lineBreakBefore_shape.
    apply NoDup_after_cleanup. exact Hnd.
Qed.

(** The theorem at a block with a user signature only. *)
Lemma removeSignature_without_vendor_signature_witness :
  RemoveSignature.removeSignature 3 bareBlockExample =
  (Val false,
   [Node 0 (ElementNode "body" [] [])
      [Node 5 (ElementNode "br" [] []) [];
       Node 3 (ElementNode "div" ["protonmail_signature_block"] [])
         [Node 4 (ElementNode "div" ["protonmail_signature_block-user"] []) []]];
    Node 1 (ElementNode "div" [] []) []]).
Proof.
  refine (proj1 (proj2 (removeSignature_without_vendor_signature [] [] [] 0
            (ElementNode "body" [] []) [Node 1 (ElementNode "div" [] []) []]
            3 "div" ["protonmail_signature_block"] []
            [Node 4 (ElementNode "div" ["protonmail_signature_block-user"] []) []]
            [] _ _) _)).
  - split; [simpl; concrete_nodup | reflexivity].
  - reflexivity.
  - reflexivity.
Defined.

(** C3 as stated fails on a block without a parent: [node.parentNode] is
    null, the insertion throws, and the block is left without a line break
    before it (the [br] that was created stays out of every tree). *)
Lemma removeSignature_detached_block :
  wellFormed [detachedBlock]
  /\ hasClass "protonmail_signature_block" (kind detachedBlock) = true
  /\ firstMatchF protonSignatureSelector (childNodes detachedBlock) = None
  /\ RemoveSignature.removeSignature 1 [detachedBlock]
     = (Val false, [detachedBlock; lineBreak 3])
  /\ lineBreakBefore 1 [detachedBlock; lineBreak 3] = false.
Proof.
  split; [split; [simpl; concrete_nodup | reflexivity]|].
  repeat split; reflexivity.
Qed.

(** The three ways the body of [removeSignature] throws: no parent, a
    document as parent, and a node that is no element. *)
Example removeSignature_try_without_parent :
  RemoveSignature.removeSignature_try 1 [detachedBlock]
  = (Throw TypeError, [detachedBlock; lineBreak 3]).
Proof. reflexivity. Qed.

Example removeSignature_try_under_document :
  RemoveSignature.removeSignature_try 1
    [Node 0 DocumentNode [Node 1 (ElementNode "html" [] []) []]]
  = (Throw HierarchyRequestError,
     [Node 0 DocumentNode [Node 1 (ElementNode "html" [] []) []]; lineBreak 2]).
Proof. reflexivity. Qed.

Example removeSignature_try_on_text :
  RemoveSignature.removeSignature_try 2
    [Node 0 (ElementNode "body" [] [])
       [Node 1 (ElementNode "div" [] []) []; Node 2 (TextNode "") []]]
  = (Throw TypeError,
     [Node 0 (ElementNode "body" [] []) [lineBreak 3; Node 2 (TextNode "") []];
      Node 1 (ElementNode "div" [] []) []]).
Proof. reflexivity. Qed.

Lemma onSignatureAdded_one_attempt node F :
  snd (RemoveSignature.onSignatureAdded node F) = F \/
  snd (RemoveSignature.onSignatureAdded node F)
  = snd (RemoveSignature.removeSignature node F).
Proof.
  unfold RemoveSignature.onSignatureAdded, bind, classList, withNode.
  destruct (locate node F) as [l|] eqn:Hl; [|left; reflexivity].
  destruct (kind (loc_self l)) as [tag classes attrs| | | | |] eqn:Hk;
    try (left; reflexivity).
  cbn [ret].
  destruct (contains classes _); [|left; reflexivity].
  unfold querySelector, withNode. rewrite Hl, Hk. cbn [isParentNode negb].
  change (parse_selector RemoveSignature.CONFIG.selectors.protonSignature)
    with (Some protonSignatureSelector).
  cbn [ret]. destruct (firstMatchF _ _); cbn [option_map]; [|left; reflexivity].
  right. destruct (RemoveSignature.removeSignature node F) as [[b|e] F']; reflexivity.
Qed.

Lemma removeExisting_one_attempt node F :
  snd (RemoveSignature.removeExisting node F) = F \/
  snd (RemoveSignature.removeExisting node F)
  = snd (RemoveSignature.removeSignature node F).
Proof.
  unfold RemoveSignature.removeExisting, bind, querySelector, withNode.
  destruct (locate node F) as [l|] eqn:Hl; [|left; reflexivity].
  destruct (negb (isParentNode (kind (loc_self l)))); [left; reflexivity|].
  change (parse_selector RemoveSignature.CONFIG.selectors.protonSignature)
    with (Some protonSignatureSelector).
  cbn [ret]. destruct (firstMatchF _ _); cbn [option_map]; [|left; reflexivity].
  right. destruct (RemoveSignature.removeSignature node F) as [[b|e] F']; reflexivity.
Qed.

(** C4.  [removeSignature] returns a boolean on every node and every
    forest: it never throws.  Whenever the body of its [try] throws, it
    returns [false] and leaves the forest as the body left it.  Neither
    caller tries again: what the observer's callback and the pass over the
    existing signatures do to the forest for one node is nothing, or what
    one call of [removeSignature] does. *)
Theorem removeSignature_catches_everything :
  (forall node F, exists b F', RemoveSignature.removeSignature node F = (Val b, F'))
  /\ (forall node F e F',
        RemoveSignature.removeSignature_try node F = (Throw e, F') ->
        RemoveSignature.removeSignature node F = (Val false, F'))
  /\ (forall node F,
        snd (RemoveSignature.onSignatureAdded node F) = F \/
        snd (RemoveSignature.onSignatureAdded node F)
        = snd (RemoveSignature.removeSignature node F))
  /\ (forall node F,
        snd (RemoveSignature.removeExisting node F) = F \/
        snd (RemoveSignature.removeExisting node F)
        = snd (RemoveSignature.removeSignature node F)).
Proof.
  split; [|split; [|split]].
  - intros node F. unfold RemoveSignature.removeSignature, try_catch.
    destruct (RemoveSignature.removeSignature_try node F) as [[b|e] F'].
    + exists b, F'. reflexivity.
    + exists false, F'. reflexivity.
  - intros node F e F' H. unfold RemoveSignature.removeSignature, try_catch.
    rewrite H. reflexivity.
  - exact onSignatureAdded_one_attempt.
  - exact removeExisting_one_attempt.
Qed.

(** The theorem at the block without a parent: the [TypeError] of the body
    becomes [false]. *)
Lemma removeSignature_catches_everything_witness :
  RemoveSignature.removeSignature 1 [detachedBlock]
  = (Val false, [detachedBlock; lineBreak 3]).
Proof.
  exact (proj1 (proj2 removeSignature_catches_everything)
           1 [detachedBlock] TypeError [detachedBlock; lineBreak 3] eq_refl).
Defined.

(** * Properties of the oldest-first script *)

Section OldestFirstFacts.
Import OldestFirst.

Lemma checkURL_unfold_if b :
  checkURL b =
  if needsSort (location b)
  then triggerSortByDate
         (checkURL (originalReplaceState (set_hash CONFIG.url.sortParam (location b)) b))
  else b.
Proof.
  funelim (checkURL b).
  - rewrite H. reflexivity.
  - rewrite e. reflexivity.
Qed.

(** Once the marker is written the condition of [checkURL] is false. *)
Lemma needsSort_marked u : needsSort (set_hash CONFIG.url.sortParam u) = false.
Proof.
  unfold needsSort. cbn [set_hash CONFIG.url.sortParam pathname].
  match goal with
  | |- context [includes ?h ?m] => change (includes h m) with true
  end.
  apply andb_false_r.
Qed.

Lemma checkURL_idle b : needsSort (location b) = false -> checkURL b = b.
Proof. intros H. rewrite checkURL_unfold_if, H. reflexivity. Qed.

(** The call of [checkURL] that the wrapper of [replaceState] makes inside
    [checkURL] finds the marker and returns at once. *)
Lemma checkURL_fires b :
  needsSort (location b) = true ->
  checkURL b =
  triggerSortByDate (originalReplaceState (set_hash CONFIG.url.sortParam (location b)) b).
Proof.
  intros H. rewrite checkURL_unfold_if, H. rewrite checkURL_idle; [reflexivity|].
  apply needsSort_marked.
Qed.

(** [checkURL] in the words of the script: the call of
    [history.replaceState] is a call of the wrapper. *)
Lemma checkURL_calls_wrapper b :
  needsSort (location b) = true ->
  checkURL b =
  triggerSortByDate
    (history_replaceState (set_hash CONFIG.url.sortParam (location b)) b).
Proof.
  intros H. rewrite checkURL_unfold_if, H. reflexivity.
Qed.

(** [url.hash] includes the marker exactly when the fragment does. *)
Lemma hash_includes_marker u :
  includes (hash u) CONFIG.url.sortParam = fragmentHas u CONFIG.url.sortParam.
Proof.
  unfold hash, fragmentHas. destruct (fragment u) as [[|a f]|]; reflexivity.
Qed.

Lemma needsSort_spec u :
  needsSort u =
  CONFIG.url.inboxPattern (pathname u) && negb (fragmentHas u CONFIG.url.sortParam).
Proof. unfold needsSort. rewrite hash_includes_marker. reflexivity. Qed.

Lemma count_emit p e b :
  count p (emit e b) = count p b + (if p e then 1 else 0).
Proof.
  unfold count, emit. cbn [effects]. rewrite filter_app, length_app. simpl.
  destruct (p e); reflexivity.
Qed.

(** The timers of the trigger sequence touch neither the URL nor the
    history, and start no trigger sequence. *)
Lemma timers_keep e b :
  e <> UrlMayHaveChanged ->
  location (handle_event e b) = location b
  /\ count isReplaceState (handle_event e b) = count isReplaceState b
  /\ count isTrigger (handle_event e b) = count isTrigger b.
Proof.
  intros He. destruct e as [|present|]; [congruence| |]; cbn [handle_event].
  - unfold intervalCallback. destruct (polling b); [|auto].
    destruct present; [|auto]. unfold count, emit. cbn [location effects].
    rewrite !filter_app, !length_app. simpl. repeat split; lia.
  - unfold closeCallback. destruct (closing b); [|auto].
    unfold count, emit. cbn [location effects].
    rewrite !filter_app, !length_app. simpl. repeat split; lia.
Qed.

Lemma run_cons e events b : run (e :: events) b = run events (handle_event e b).
Proof. reflexivity. Qed.

(** With the marker in the URL nothing the event loop runs changes the URL
    or the history or starts a trigger sequence. *)
Lemma run_marked events :
  forall b, needsSort (location b) = false ->
  location (run events b) = location b
  /\ count isReplaceState (run events b) = count isReplaceState b
  /\ count isTrigger (run events b) = count isTrigger b.
Proof.
  induction events as [|e events IH]; intros b H; [auto|].
  rewrite run_cons.
  assert (K : location (handle_event e b) = location b
              /\ count isReplaceState (handle_event e b) = count isReplaceState b
              /\ count isTrigger (handle_event e b) = count isTrigger b).
  { destruct e as [|present|].
    - cbn [handle_event]. rewrite checkURL_idle by exact H. auto.
    - apply timers_keep. discriminate.
    - apply timers_keep. discriminate. }
  destruct K as [K1 [K2 K3]].
  destruct (IH (handle_event e b)) as [I1 [I2 I3]]; [rewrite K1; exact H|].
  repeat split; congruence.
Qed.

Lemma triggerSortByDate_keeps b :
  location (triggerSortByDate b) = location b
  /\ count isReplaceState (triggerSortByDate b) = count isReplaceState b
  /\ count isTrigger (triggerSortByDate b) = S (count isTrigger b)
  /\ exists rest, effects (triggerSortByDate b) = effects b ++ TriggerSortByDate :: rest.
Proof.
  unfold triggerSortByDate. cbv zeta. cbn [emit dropdownButton].
  destruct (dropdownButton b).
  - split; [reflexivity|].
    split; [unfold count; cbn [effects emit]; rewrite !filter_app, !length_app; simpl; lia|].
    split; [unfold count; cbn [effects emit]; rewrite !filter_app, !length_app; simpl; lia|].
    cbn [effects emit]. eexists. rewrite <- !app_assoc. reflexivity.
  - split; [reflexivity|].
    split; [unfold count; cbn [effects emit]; rewrite !filter_app, !length_app; simpl; lia|].
    split; [unfold count; cbn [effects emit]; rewrite !filter_app, !length_app; simpl; lia|].
    cbn [effects emit]. eexists. reflexivity.
Qed.

(** C5.  A URL whose path matches the inbox pattern and whose fragment
    lacks the marker: whatever the event loop runs afterwards (notifications
    that the URL may have changed, runs of the interval, the closing
    timer), as soon as one notification is among it the history has been
    rewritten exactly once and [triggerSortByDate] has been called exactly
    once.  The marker is in the URL from then on, so the condition of
    [checkURL] is false for every later and every nested notification, and
    in the first [checkURL] the rewrite of the history comes right before
    the trigger. *)
Theorem checkURL_triggers_once (b : Browser) (events : list Event) :
  CONFIG.url.inboxPattern (pathname (location b)) = true ->
  fragmentHas (location b) CONFIG.url.sortParam = false ->
  In UrlMayHaveChanged events ->
  count isReplaceState (run events b) = S (count isReplaceState b)
  /\ count isTrigger (run events b) = S (count isTrigger b)
  /\ location (run events b) = set_hash CONFIG.url.sortParam (location b)
  /\ needsSort (location (run events b)) = false
  /\ exists rest,
       effects (checkURL b) =
       effects b ++ ReplaceState (set_hash CONFIG.url.sortParam (location b))
                 :: TriggerSortByDate :: rest.
Proof.
  intros Hpath Hfrag Hin.
  assert (Hneeds : needsSort (location b) = true).
  { rewrite needsSort_spec, Hpath, Hfrag. reflexivity. }
  assert (Hlast : exists rest,
             effects (checkURL b) =
             effects b ++ ReplaceState (set_hash CONFIG.url.sortParam (location b))
                       :: TriggerSortByDate :: rest).
  { rewrite checkURL_fires by exact Hneeds.
    destruct (triggerSortByDate_keeps
                (originalReplaceState (set_hash CONFIG.url.sortParam (location b)) b))
      as [_ [_ [_ [rest E]]]].
    exists rest. rewrite E. unfold originalReplaceState, emit. cbn [effects].
    rewrite <- app_assoc. reflexivity. }
  cut (count isReplaceState (run events b) = S (count isReplaceState b)
       /\ count isTrigger (run events b) = S (count isTrigger b)
       /\ location (run events b) = set_hash CONFIG.url.sortParam (location b)).
  { intros [H1 [H2 H3]]. repeat split; try assumption.
    rewrite H3. apply needsSort_marked. }
  clear Hlast Hpath Hfrag. revert b Hneeds.
  induction events as [|e events IH]; intros b Hneeds; [destruct Hin|].
  rewrite run_cons. destruct e as [|present|].
  - clear IH Hin. cbn [handle_event]. rewrite checkURL_fires by exact Hneeds.
    set (u := set_hash CONFIG.url.sortParam (location b)).
    destruct (triggerSortByDate_keeps (originalReplaceState u b)) as [T1 [T2 [T3 _]]].
    destruct (run_marked events (triggerSortByDate (originalReplaceState u b)))
      as [R1 [R2 R3]].
    { rewrite T1. apply needsSort_marked. }
    rewrite R1, R2, R3, T1, T2, T3.
    unfold originalReplaceState. rewrite !count_emit. unfold count.
    cbn [effects location emit isReplaceState isTrigger].
    repeat split; lia.
  - destruct Hin as [Hin|Hin]; [discriminate|].
    destruct (timers_keep (IntervalFires present) b) as [K1 [K2 K3]]; [discriminate|].
    destruct (IH Hin (handle_event (IntervalFires present) b)) as [I1 [I2 I3]].
    { rewrite K1. exact Hneeds. }
    rewrite I1, I2, I3, K1, K2, K3. auto.
  - destruct Hin as [Hin|Hin]; [discriminate|].
    destruct (timers_keep CloseTimerFires b) as [K1 [K2 K3]]; [discriminate|].
    destruct (IH Hin (handle_event CloseTimerFires b)) as [I1 [I2 I3]].
    { rewrite K1. exact Hneeds. }
    rewrite I1, I2, I3, K1, K2, K3. auto.
Qed.

End OldestFirstFacts.

Section OldestFirstClaims.
Import OldestFirst.

(** The theorem at the inbox opened without a fragment, for two
    notifications and a run of the interval. *)
Lemma checkURL_triggers_once_witness :
  count isReplaceState
    (run [UrlMayHaveChanged; UrlMayHaveChanged; IntervalFires true] inboxBrowser) = 1
  /\ count isTrigger
       (run [UrlMayHaveChanged; UrlMayHaveChanged; IntervalFires true] inboxBrowser) = 1.
Proof.
  destruct (checkURL_triggers_once inboxBrowser
              [UrlMayHaveChanged; UrlMayHaveChanged; IntervalFires true]
              eq_refl eq_refl (or_introl eq_refl)) as [A [B _]].
  split; [exact A | exact B].
Defined.

(** C6.  A URL whose fragment contains the marker: [checkURL] returns the
    browser as it found it (no rewrite of the history, no trigger), and so
    does any number of notifications; whatever else the event loop runs,
    the URL, the number of history rewrites and the number of trigger
    sequences stay what they were. *)
Theorem checkURL_marked_is_idle (b : Browser) (f : string) (events : list Event) (n : nat) :
  fragment (location b) = Some f ->
  includes f CONFIG.url.sortParam = true ->
  checkURL b = b
  /\ Nat.iter n checkURL b = b
  /\ location (run events b) = location b
  /\ count isReplaceState (run events b) = count isReplaceState b
  /\ count isTrigger (run events b) = count isTrigger b.
Proof.
  intros Hf Hinc.
  assert (H : needsSort (location b) = false).
  { rewrite needsSort_spec. unfold fragmentHas. rewrite Hf, Hinc.
    apply andb_false_r. }
  split; [apply checkURL_idle; exact H|].
  split.
  - induction n as [|n IH]; [reflexivity|]. simpl. rewrite IH.
    apply checkURL_idle. exact H.
  - apply run_marked. exact H.
Qed.

Lemma checkURL_marked_is_idle_witness :
  Nat.iter 3 checkURL sortedBrowser = sortedBrowser
  /\ effects (run [UrlMayHaveChanged; UrlMayHaveChanged] sortedBrowser) = [].
Proof.
  destruct (checkURL_marked_is_idle sortedBrowser "filter=unread&sort=date"
              [UrlMayHaveChanged; UrlMayHaveChanged] 3 eq_refl eq_refl)
    as [_ [A _]].
  split; [exact A | reflexivity].
Defined.

(** C10.  A URL whose path matches the inbox pattern and whose fragment
    lacks the marker: after [checkURL] the fragment is the marker and
    nothing else, whatever it was before; origin, path and query are what
    they were; this is the URL handed to the history. *)
Theorem checkURL_replaces_whole_fragment (b : Browser) :
  CONFIG.url.inboxPattern (pathname (location b)) = true ->
  fragmentHas (location b) CONFIG.url.sortParam = false ->
  fragment (location (checkURL b)) = Some "sort=date"
  /\ hash (location (checkURL b)) = "#sort=date"
  /\ pathname (location (checkURL b)) = pathname (location b)
  /\ search (location (checkURL b)) = search (location b)
  /\ origin (location (checkURL b)) = origin (location b)
  /\ In (ReplaceState (mkURL (origin (location b)) (pathname (location b))
                             (search (location b)) (Some "sort=date")))
        (effects (checkURL b)).
Proof.
  intros Hpath Hfrag.
  assert (Hneeds : needsSort (location b) = true).
  { rewrite needsSort_spec, Hpath, Hfrag. reflexivity. }
  rewrite checkURL_fires by exact Hneeds.
  destruct (triggerSortByDate_keeps
              (originalReplaceState (set_hash CONFIG.url.sortParam (location b)) b))
    as [T1 [_ [_ [rest E]]]].
  rewrite T1, E. unfold originalReplaceState, emit.
  cbn [location effects set_hash CONFIG.url.sortParam fragment pathname search origin hash].
  repeat split.
  apply in_or_app. left. apply in_or_app. right. left. reflexivity.
Qed.

Lemma checkURL_replaces_whole_fragment_witness :
  location (checkURL filteredBrowser)
  = mkURL "https://mail.proton.me" "/u/0/inbox" "?welcome=true" (Some "sort=date").
Proof.
  destruct (checkURL_replaces_whole_fragment filteredBrowser eq_refl eq_refl)
    as [A [_ [B [C [D _]]]]].
  destruct (location (checkURL filteredBrowser)) as [o p s fr].
  cbn [fragment pathname search origin] in A, B, C, D.
  rewrite A, B, C, D. reflexivity.
Defined.

End OldestFirstClaims.

(** * Polling loops *)

Section Polling.
Import RemoveSignature.

Lemma checkDoc_unfold_if contentDocument attempts :
  checkDoc contentDocument attempts =
  match usable (contentDocument (S attempts)) with
  | Some doc => mkWait (Fulfilled doc) (S attempts) []
  | None =>
      if Nat.leb CONFIG.maxInitAttempts (S attempts)
      then mkWait (Rejected initError) (S attempts) []
      else setTimeout (checkDoc contentDocument (S attempts)) CONFIG.initRetryDelay
  end.
Proof.
  funelim (checkDoc contentDocument attempts).
  - rewrite Heq. reflexivity.
  - rewrite Heq. rewrite e. reflexivity.
  - rewrite Heq, H. reflexivity.
Qed.

(** The number of checks is bounded by the maximum, and a timer separates
    each check from the next. *)
Lemma checkDoc_bounded contentDocument :
  forall m attempts, CONFIG.maxInitAttempts - attempts = m ->
  attempts < CONFIG.maxInitAttempts ->
  attempts < checks (checkDoc contentDocument attempts) <= CONFIG.maxInitAttempts
  /\ timers (checkDoc contentDocument attempts)
     = repeat CONFIG.initRetryDelay
              (checks (checkDoc contentDocument attempts) - S attempts).
Proof.
  induction m as [|m IH]; intros attempts Hm Hlt; [lia|].
  rewrite checkDoc_unfold_if.
  destruct (usable (contentDocument (S attempts))).
  { cbn [checks timers]. rewrite Nat.sub_diag. split; [lia | reflexivity]. }
  destruct (Nat.leb_spec CONFIG.maxInitAttempts (S attempts)).
  { cbn [checks timers]. rewrite Nat.sub_diag. split; [lia | reflexivity]. }
  destruct (IH (S attempts)) as [Hc Ht]; [lia | lia |].
  unfold setTimeout. cbn [checks timers]. split; [lia|]. rewrite Ht.
  replace (checks (checkDoc contentDocument (S attempts)) - S attempts)
    with (S (checks (checkDoc contentDocument (S attempts)) - S (S attempts))) by lia.
  reflexivity.
Qed.

(** No usable document at any check: rejection at the last check. *)
Lemma checkDoc_rejects contentDocument :
  forall m attempts, CONFIG.maxInitAttempts - attempts = m ->
  attempts < CONFIG.maxInitAttempts ->
  (forall k, attempts < k <= CONFIG.maxInitAttempts -> usable (contentDocument k) = None) ->
  settlement (checkDoc contentDocument attempts) = Rejected initError
  /\ checks (checkDoc contentDocument attempts) = CONFIG.maxInitAttempts.
Proof.
  induction m as [|m IH]; intros attempts Hm Hlt Hnone; [lia|].
  rewrite checkDoc_unfold_if. rewrite Hnone by lia.
  destruct (Nat.leb_spec CONFIG.maxInitAttempts (S attempts)).
  - cbn [settlement checks]. split; [reflexivity | lia].
  - unfold setTimeout. cbn [settlement checks].
    apply IH; [lia | lia |]. intros k Hk. apply Hnone. lia.
Qed.

(** A usable document at check [k] and none before: fulfilment at check
    [k]. *)
Lemma checkDoc_resolves contentDocument k doc :
  usable (contentDocument k) = Some doc ->
  forall m attempts, k - attempts = m -> attempts < k ->
  k <= CONFIG.maxInitAttempts ->
  (forall j, attempts < j < k -> usable (contentDocument j) = None) ->
  settlement (checkDoc contentDocument attempts) = Fulfilled doc
  /\ checks (checkDoc contentDocument attempts) = k.
Proof.
  intros Hk. induction m as [|m IH]; intros attempts Hm Hlt Hmax Hnone; [lia|].
  rewrite checkDoc_unfold_if.
  destruct (Nat.eq_dec (S attempts) k) as [e|e].
  - rewrite e, Hk. split; reflexivity.
  - rewrite Hnone by lia.
    destruct (Nat.leb_spec CONFIG.maxInitAttempts (S attempts)); [lia|].
    unfold setTimeout. cbn [settlement checks].
    apply IH; [lia | lia | lia |]. intros j Hj. apply Hnone. lia.
Qed.

Import OldestFirst.

Lemma poll_absent present b :
  forall k, (forall i, i < k -> present i = false) -> poll present k b = b.
Proof.
  induction k as [|k IH]; intros H; [reflexivity|]. simpl.
  rewrite IH by (intros i Hi; apply H; lia). rewrite H by lia.
  unfold intervalCallback. destruct (polling b); reflexivity.
Qed.

Lemma poll_cancelled present :
  forall n b, polling b = false -> polling (poll present n b) = false.
Proof.
  induction n as [|n IH]; intros b H; [exact H|]. simpl.
  unfold intervalCallback. rewrite (IH b H). exact (IH b H).
Qed.

Lemma poll_add present :
  forall n k b, poll present (k + n) b = poll (fun i => present (k + i)) n (poll present k b).
Proof.
  induction n as [|n IH]; intros k b.
  - rewrite Nat.add_0_r. reflexivity.
  - rewrite Nat.add_succ_r. simpl. rewrite IH. reflexivity.
Qed.

(** C7 as stated fails for the interval of [triggerSortByDate]: while the
    secondary button does not show up the interval keeps running, whatever
    the number of runs, and does nothing. *)
Lemma dropdown_polling_unbounded :
  polling sortingBrowser = true
  /\ forall n, polling (poll (fun _ => false) n sortingBrowser) = true
               /\ effects (poll (fun _ => false) n sortingBrowser) = effects sortingBrowser.
Proof.
  split; [reflexivity|]. intros n.
  rewrite poll_absent by reflexivity. split; reflexivity.
Qed.

(** C7, as the code has it.  [waitForIframeDoc] makes at least one and at
    most [CONFIG.maxInitAttempts] checks, with a timer of
    [CONFIG.initRetryDelay] milliseconds between a check and the next: it
    fulfils at the first check that finds a usable document and rejects at
    the last check when none does.  The interval of [triggerSortByDate] has
    no such bound: it keeps running for as long as the secondary button is
    absent, and is cleared by the first run that finds the button, for
    good. *)
Theorem polling_loops_stop :
  (forall contentDocument,
     1 <= checks (waitForIframeDoc contentDocument) <= CONFIG.maxInitAttempts
     /\ timers (waitForIframeDoc contentDocument)
        = repeat CONFIG.initRetryDelay (checks (waitForIframeDoc contentDocument) - 1))
  /\ (forall contentDocument k doc,
        1 <= k <= CONFIG.maxInitAttempts ->
        usable (contentDocument k) = Some doc ->
        (forall j, 1 <= j < k -> usable (contentDocument j) = None) ->
        settlement (waitForIframeDoc contentDocument) = Fulfilled doc
        /\ checks (waitForIframeDoc contentDocument) = k)
  /\ (forall contentDocument,
        (forall k, 1 <= k <= CONFIG.maxInitAttempts -> usable (contentDocument k) = None) ->
        settlement (waitForIframeDoc contentDocument) = Rejected initError
        /\ checks (waitForIframeDoc contentDocument) = CONFIG.maxInitAttempts)
  /\ (forall present b k,
        polling b = true ->
        (forall i, i < k -> present i = false) ->
        polling (poll present k b) = true
        /\ (present k = true ->
            forall n, k < n ->
            polling (poll present n b) = false
            /\ count isClearInterval (poll present n b) = S (count isClearInterval b))).
Proof.
  assert (Hmax : 0 < CONFIG.maxInitAttempts) by (unfold CONFIG.maxInitAttempts; lia).
  split; [|split; [|split]].
  - intros cd. unfold waitForIframeDoc.
    destruct (checkDoc_bounded cd _ 0 eq_refl Hmax) as [Hc Ht]. split; [lia | exact Ht].
  - intros cd k doc Hk Hdoc Hnone. unfold waitForIframeDoc.
    apply (checkDoc_resolves cd k doc Hdoc (k - 0) 0); [reflexivity | lia | lia |].
    intros j Hj. apply Hnone. lia.
  - intros cd Hnone. unfold waitForIframeDoc.
    apply (checkDoc_rejects cd _ 0 eq_refl Hmax).
    intros k Hk. apply Hnone. lia.
  - intros present b k Hp Habsent.
    rewrite poll_absent by exact Habsent. split; [exact Hp|].
    intros Hk n Hn.
    replace n with (S k + (n - S k)) by lia. rewrite poll_add.
    assert (E : poll present (S k) b = intervalCallback true b).
    { simpl. rewrite poll_absent by exact Habsent. rewrite Hk. reflexivity. }
    rewrite E. unfold intervalCallback. rewrite Hp. cbv zeta.
    split.
    + apply poll_cancelled. reflexivity.
    + set (b1 := mkBrowser _ _ false true _).
      assert (K : forall m present',
                 count isClearInterval (poll present' m b1) = count isClearInterval b1).
      { induction m as [|m IH]; intros present'; [reflexivity|]. simpl.
        unfold intervalCallback.
        rewrite (poll_cancelled present' m b1 eq_refl). apply IH. }
      rewrite K. subst b1. unfold count, emit. cbn [effects].
      rewrite !filter_app, !length_app. simpl. lia.
Qed.

(** The theorem at an iframe whose document is usable from the third check
    on and at the inbox whose secondary button shows up at the third run. *)
Lemma polling_loops_stop_witness :
  waitForIframeDoc (composerFrames 2)
  = mkWait (Fulfilled 10) 3 [CONFIG.initRetryDelay; CONFIG.initRetryDelay]
  /\ polling (poll (fun i => Nat.leb 2 i) 2 sortingBrowser) = true
  /\ polling (poll (fun i => Nat.leb 2 i) 3 sortingBrowser) = false.
Proof.
  destruct polling_loops_stop as [A [B [_ D]]].
  destruct (A (composerFrames 2)) as [_ At].
  destruct (B (composerFrames 2) 3 10) as [Bs Bc].
  { unfold CONFIG.maxInitAttempts. lia. }
  { reflexivity. }
  { intros j Hj. destruct j as [|[|[|j]]]; try reflexivity; lia. }
  destruct (D (fun i => Nat.leb 2 i) sortingBrowser 2 eq_refl) as [Dp Dc].
  { intros i Hi. destruct i as [|[|i]]; try reflexivity; lia. }
  destruct (Dc eq_refl 3 (le_n 3)) as [Dn _].
  split; [|split; [exact Dp | exact Dn]].
  destruct (waitForIframeDoc (composerFrames 2)) as [s c t].
  cbn [settlement checks timers] in *. rewrite Bs, Bc, At, Bc. reflexivity.
Defined.

End Polling.

(** * The composer observer *)

Section Composer.
Import RemoveSignature.

Lemma parse_composer : parse_selector CONFIG.selectors.composer = Some composerSelector.
Proof. reflexivity. Qed.

(** The chain [waitForIframeDoc(..).then(setupObserver).catch(() => {})]
    never throws and always ends fulfilled. *)
Lemma watch_fulfilled frames iframe pg :
  exists pg', watch frames iframe pg = (Val (Fulfilled tt), pg').
Proof.
  unfold watch, bind.
  destruct (settlement (waitForIframeDoc (frames iframe))) as [doc|r]; cbn [then_].
  - destruct (setupObserver doc pg) as [[u|e] pg1]; cbn [catch_]; eexists; reflexivity.
  - eexists. reflexivity.
Qed.


Lemma grows_bind {A B} (m : St Page A) (k : A -> St Page B) :
  grows m -> (forall a, grows (k a)) -> grows (bind m k).
Proof.
  intros Hm Hk pg. unfold bind. specialize (Hm pg).
  destruct (m pg) as [[a|e] pg1]; cbn [snd] in *; [|exact Hm].
  eapply incl_tran; [exact Hm | apply Hk].
Qed.

Lemma grows_liftDom {A} (m : M A) : grows (liftDom m).
Proof.
  intros pg. unfold liftDom. destruct (m (dom pg)) as [o F]. apply incl_refl.
Qed.


Lemma grows_observe o : grows (observe o).
Proof. intros pg. unfold observe. cbn [snd observers]. apply incl_appl, incl_refl. Qed.

Lemma grows_setupObserver doc : grows (setupObserver doc).
Proof.
  unfold setupObserver. apply grows_bind; [apply grows_observe|].
  intros _. apply grows_liftDom.
Qed.

Lemma setupObserver_observes doc pg :
  In (SignatureObserver doc) (observers (snd (setupObserver doc pg))).
Proof.
  unfold setupObserver, bind, observe.
  pose proof (grows_liftDom
    (bind (querySelectorAll doc CONFIG.selectors.signatureBlock)
          (fun existingSignatures => forEach existingSignatures removeExisting))
    (mkPage (dom pg) (observers pg ++ [SignatureObserver doc]))) as H.
  apply H. cbn [observers]. apply in_or_app. right. left. reflexivity.
Qed.

Lemma grows_watch frames iframe : grows (watch frames iframe).
Proof.
  intros pg. unfold watch, bind.
  destruct (settlement (waitForIframeDoc (frames iframe))) as [doc|r]; cbn [then_].
  - pose proof (grows_setupObserver doc pg) as H.
    destruct (setupObserver doc pg) as [[u|e] pg1]; cbn [catch_ ret snd] in *; exact H.
  - cbn [ret catch_ snd]. apply incl_refl.
Qed.


Lemma liftDom_val {A} (m : M A) pg a :
  m (dom pg) = (Val a, dom pg) -> liftDom m pg = (Val a, pg).
Proof. intros H. unfold liftDom. rewrite H. destruct pg; reflexivity. Qed.

Lemma bind_val_St {S A B} (m : St S A) (k : A -> St S B) s a s' :
  m s = (Val a, s') -> bind m k s = k a s'.
Proof. intros H. unfold bind. rewrite H. reflexivity. Qed.

(** The guard [!node.nodeType === Node.ELEMENT_NODE] compares a boolean
    with a number. *)
Lemma guard_false v z : strict_equals (js_not v) (JsNumber z) = false.
Proof. reflexivity. Qed.

Lemma forEach_watch_val frames iframes :
  forall pg, exists pg',
    forEach iframes (fun iframe => bind (watch frames iframe) (fun _ => ret tt)) pg
    = (Val tt, pg').
Proof.
  induction iframes as [|i l IH]; intros pg; [eexists; reflexivity|].
  cbn [forEach]. destruct (watch_fulfilled frames i pg) as [pg1 H1].
  unfold bind at 1. unfold bind at 1. rewrite H1. cbn [ret]. apply IH.
Qed.

(** A chain whose wait is fulfilled attaches the signature observer of the
    document. *)
Lemma watch_attaches frames iframe pg doc :
  settlement (waitForIframeDoc (frames iframe)) = Fulfilled doc ->
  In (SignatureObserver doc) (observers (snd (watch frames iframe pg))).
Proof.
  intros E. unfold watch. rewrite E. cbn [then_]. unfold bind.
  pose proof (setupObserver_observes doc pg) as S.
  destruct (setupObserver doc pg) as [[u|e] pg1]; cbn [catch_ ret snd] in *; exact S.
Qed.

(** So does a loop of chains, for every chain of the loop. *)
Lemma forEach_watch_attaches frames iframes :
  forall pg, exists pg',
    forEach iframes (fun iframe => bind (watch frames iframe) (fun _ => ret tt)) pg
    = (Val tt, pg')
    /\ incl (observers pg) (observers pg')
    /\ forall iframe doc,
         In iframe iframes ->
         settlement (waitForIframeDoc (frames iframe)) = Fulfilled doc ->
         In (SignatureObserver doc) (observers pg').
Proof.
  induction iframes as [|i l IH]; intros pg.
  - exists pg. split; [reflexivity|]. split; [apply incl_refl|]. intros ? ? [].
  - destruct (watch_fulfilled frames i pg) as [pg1 H1].
    pose proof (grows_watch frames i pg) as G1. rewrite H1 in G1. cbn [snd] in G1.
    destruct (IH pg1) as [pg2 [H2 [G2 A2]]].
    exists pg2. cbn [forEach]. unfold bind at 1. unfold bind at 1. rewrite H1. cbn [ret].
    split; [exact H2|]. split; [exact (incl_tran G1 G2)|].
    intros iframe doc [<- | Hin] E.
    + apply G2. pose proof (watch_attaches frames i pg doc E) as W.
      rewrite H1 in W. exact W.
    + exact (A2 iframe doc Hin E).
Qed.

(** C9.  The guard of the composer observer's callback is false on every
    node (on every value, even), so its early return is never taken: on
    every node of the page the callback is the code that follows the guard,
    and no node is skipped.  On a node that is no element the callback
    still ends without a throw: [matches] is undefined there and is not
    called, and [querySelectorAll] is either undefined (text, comments,
    doctypes: the page is left as it was) or, on a document or fragment,
    finds the composer iframes below the node, for each of which the chain
    is built: a composer below such a node whose wait is fulfilled gets its
    signature observer, which a guard that skipped every node that is no
    element would not give it. *)
Theorem composer_guard_never_skips :
  (forall v z, strict_equals (js_not v) (JsNumber z) = false)
  /\ (forall k, strict_equals (js_not (JsNumber (nodeTypeOf k))) (JsNumber ELEMENT_NODE)
                = false)
  /\ (forall frames node pg loc,
        locate node (dom pg) = Some loc ->
        onComposerAdded frames node pg
        = (isComposer <- liftDom (matches_opt node CONFIG.selectors.composer) ;;
           (if truthy isComposer then watch frames node ;;; ret tt else ret tt) ;;;
           composerIframes <- liftDom (querySelectorAll_opt node CONFIG.selectors.composer) ;;
           match composerIframes with
           | Some iframes => forEach iframes (fun iframe => watch frames iframe ;;; ret tt)
           | None => ret tt
           end) pg)
  /\ (forall frames node pg loc,
        locate node (dom pg) = Some loc ->
        isElement (kind (loc_self loc)) = false ->
        exists pg',
          onComposerAdded frames node pg = (Val tt, pg')
          /\ (isParentNode (kind (loc_self loc)) = false -> pg' = pg)
          /\ (isParentNode (kind (loc_self loc)) = true ->
              forEach (map nid (allMatchesF composerSelector (childNodes (loc_self loc))))
                (fun iframe => watch frames iframe ;;; ret tt) pg
              = (Val tt, pg')
              /\ forall t doc,
                   In t (allMatchesF composerSelector (childNodes (loc_self loc))) ->
                   settlement (waitForIframeDoc (frames (nid t))) = Fulfilled doc ->
                   In (SignatureObserver doc) (observers pg'))).
Proof.
  split; [exact guard_false|]. split; [intros k; apply guard_false|].
  assert (Hguard : forall frames node pg loc,
            locate node (dom pg) = Some loc ->
            onComposerAdded frames node pg
            = (isComposer <- liftDom (matches_opt node CONFIG.selectors.composer) ;;
               (if truthy isComposer then watch frames node ;;; ret tt else ret tt) ;;;
               composerIframes <-
                 liftDom (querySelectorAll_opt node CONFIG.selectors.composer) ;;
               match composerIframes with
               | Some iframes =>
                   forEach iframes (fun iframe => watch frames iframe ;;; ret tt)
               | None => ret tt
               end) pg).
  { intros frames node pg loc Hloc. unfold onComposerAdded.
    rewrite (bind_val_St _ _ pg (nodeTypeOf (kind (loc_self loc))) pg).
    2:{ apply liftDom_val. unfold nodeType, withNode. rewrite Hloc. reflexivity. }
    rewrite guard_false. reflexivity. }
  split; [exact Hguard|].
  intros frames node pg loc Hloc Hk. rewrite (Hguard frames node pg loc Hloc).
  rewrite (bind_val_St _ _ pg None pg).
  2:{ apply liftDom_val. unfold matches_opt, withNode. rewrite Hloc, Hk. reflexivity. }
  cbn [truthy]. rewrite (bind_val_St _ _ pg tt pg) by reflexivity.
  destruct (isParentNode (kind (loc_self loc))) eqn:Hp.
  - rewrite (bind_val_St _ _ pg
               (Some (map nid (allMatchesF composerSelector (childNodes (loc_self loc))))) pg).
    2:{ apply liftDom_val. unfold querySelectorAll_opt, withNode.
        rewrite Hloc, Hp, parse_composer. reflexivity. }
    destruct (forEach_watch_attaches frames
                (map nid (allMatchesF composerSelector (childNodes (loc_self loc)))) pg)
      as [pg' [H [_ A]]].
    exists pg'. split; [exact H|]. split; [discriminate|]. intros _.
    split; [exact H|]. intros t doc Ht E.
    apply (A (nid t) doc); [|exact E]. apply in_map. exact Ht.
  - rewrite (bind_val_St _ _ pg None pg).
    2:{ apply liftDom_val. unfold querySelectorAll_opt, withNode.
        rewrite Hloc, Hp. reflexivity. }
    exists pg. split; [reflexivity|]. split; [reflexivity | discriminate].
Qed.

(** The theorem at a text node, which the callback leaves alone, and at a
    document fragment that holds a composer iframe whose document is usable
    from the third check on: the fragment is no element, and the composer
    below it gets its signature observer. *)
Lemma composer_guard_never_skips_witness :
  onComposerAdded composerFrames 3 textPage = (Val tt, textPage)
  /\ onComposerAdded composerFrames 5 fragmentPage
     = (Val tt, mkPage (dom fragmentPage) [ComposerObserver; SignatureObserver 10]).
Proof.
  split.
  - destruct (proj2 (proj2 (proj2 composer_guard_never_skips)) composerFrames 3 textPage
                (mkLoc (Some (0, ElementNode "body" [] [])) [] (Node 3 (TextNode "Hi") []) [])
                eq_refl eq_refl) as [pg' [H [Hsame _]]].
    rewrite (Hsame eq_refl) in H. exact H.
  - destruct (proj2 (proj2 (proj2 composer_guard_never_skips)) composerFrames 5 fragmentPage
                (mkLoc None []
                   (Node 5 DocumentFragmentNode
                      [Node 2 (ElementNode "iframe" [] [("title", "Email composer")]) []])
                   [])
                eq_refl eq_refl) as [pg' [H [_ Hparent]]].
    destruct (Hparent eq_refl) as [Hloop _].
    rewrite H. rewrite <- Hloop. reflexivity.
Defined.






End Composer.

(** * The string functions of the model against the patterns they stand for *)

Section Patterns.
Import OldestFirst.

Lemma prefix_app m : forall s, String.prefix m s = true <-> exists b, s = (m ++ b)%string.
Proof.
  induction m as [|c m IH]; intros s.
  - split; [intros _; exists s; reflexivity | intros _; destruct s; reflexivity].
  - destruct s as [|d s]; simpl.
    + split; [discriminate | intros [b H]; discriminate].
    + destruct (ascii_dec c d) as [->|Hn].
      * rewrite IH. split; intros [b H]; exists b; [rewrite H; reflexivity | congruence].
      * split; [discriminate | intros [b H]; congruence].
Qed.

(** [includes s m] holds exactly when [m] occurs in [s]: [s] is some [a],
    then [m], then some [b]. *)
Lemma includes_occurs s m :
  includes s m = true <-> exists a b, s = (a ++ m ++ b)%string.
Proof.
  induction s as [|c s IH].
  - cbn [includes]. rewrite orb_false_r. rewrite prefix_app. split.
    + intros [b H]. exists EmptyString, b. exact H.
    + intros [a [b H]]. destruct a; [exists b; exact H | discriminate].
  - cbn [includes]. rewrite orb_true_iff, prefix_app, IH. split.
    + intros [[b H] | [a [b H]]].
      * exists EmptyString, b. exact H.
      * exists (String c a), b. rewrite H. reflexivity.
    + intros [a [b H]]. destruct a as [|d a].
      * left. exists b. exact H.
      * right. exists a, b. simpl in H. congruence.
Qed.

Lemma skipDigits_split s :
  exists ds, allDigits ds = true /\ s = (ds ++ skipDigits s)%string.
Proof.
  induction s as [|c s [ds [Hd Hs]]].
  - exists EmptyString. split; reflexivity.
  - simpl. destruct (isDigit c) eqn:Hc.
    + exists (String c ds). split; [simpl; rewrite Hc; exact Hd|].
      simpl. rewrite <- Hs. reflexivity.
    + exists EmptyString. split; reflexivity.
Qed.

Lemma skipDigits_app ds rest :
  allDigits ds = true ->
  match rest with String c _ => isDigit c = false | EmptyString => True end ->
  skipDigits (ds ++ rest) = rest.
Proof.
  intros Hd Hr. induction ds as [|c ds IH]; simpl.
  - destruct rest as [|c r]; [reflexivity|]. simpl. rewrite Hr. reflexivity.
  - simpl in Hd. apply andb_true_iff in Hd. destruct Hd as [Hc Hd].
    rewrite Hc. apply IH. exact Hd.
Qed.

(** X1.  [CONFIG.url.inboxPattern] accepts exactly the paths [/u/], one or
    more decimal digits, [/inbox]: the language of [/^\/u\/\d+\/inbox$/]. *)
Theorem inboxPattern_language path :
  CONFIG.url.inboxPattern path = true <->
  exists digits, digits <> EmptyString /\ allDigits digits = true
                 /\ path = ("/u/" ++ digits ++ "/inbox")%string.
Proof.
  split.
  - intros H. unfold CONFIG.url.inboxPattern in H.
    destruct path as [|a path]; [discriminate|].
    destruct a as [[] [] [] [] [] [] [] []]; try discriminate.
    destruct path as [|b path]; [discriminate|].
    destruct b as [[] [] [] [] [] [] [] []]; try discriminate.
    destruct path as [|c rest]; [discriminate|].
    destruct c as [[] [] [] [] [] [] [] []]; try discriminate.
    destruct rest as [|d rest]; [discriminate|].
    apply andb_true_iff in H. destruct H as [Hd Hrest].
    apply String.eqb_eq in Hrest.
    destruct (skipDigits_split (String d rest)) as [ds [Hds Hs]].
    exists ds. rewrite Hrest in Hs. split; [|split; [exact Hds|]].
    + intros ->. simpl in Hs. injection Hs as -> _. discriminate.
    + simpl. rewrite <- Hs. reflexivity.
  - intros [ds [Hne [Hd ->]]]. destruct ds as [|d ds]; [congruence|].
    simpl in Hd. apply andb_true_iff in Hd. destruct Hd as [Hdd Hds].
    cbn [CONFIG.url.inboxPattern append]. rewrite Hdd. cbn [andb].
    apply String.eqb_eq.
    change (String d (ds ++ "/inbox")%string) with ((String d ds) ++ "/inbox")%string.
    apply skipDigits_app; [simpl; rewrite Hdd; exact Hds | reflexivity].
Qed.

End Patterns.

(** * Further properties of the two scripts *)

Section Further.
Import OldestFirst.

(** X2.  The wrapper the script installs over [history.pushState]: when the
    application navigates to an inbox URL without the marker, the wrapper
    rewrites the history once, to that URL with the marker as its fragment,
    and starts one trigger sequence; on any other URL it does nothing
    beyond the navigation. *)
Theorem history_pushState_sorts (u : URL) (b : Browser) :
  (needsSort u = true ->
   location (history_pushState u b) = set_hash CONFIG.url.sortParam u
   /\ count isReplaceState (history_pushState u b) = S (count isReplaceState b)
   /\ count isTrigger (history_pushState u b) = S (count isTrigger b))
  /\ (needsSort u = false -> history_pushState u b = originalPushState u b).
Proof.
  unfold history_pushState. split; intros H.
  - rewrite checkURL_fires by exact H.
    destruct (triggerSortByDate_keeps
                (originalReplaceState
                   (set_hash CONFIG.url.sortParam (location (originalPushState u b)))
                   (originalPushState u b))) as [T1 [T2 [T3 _]]].
    rewrite T1, T2, T3. unfold originalReplaceState. rewrite !count_emit.
    unfold count, originalPushState.
    cbn [effects location emit isReplaceState isTrigger].
    repeat split; lia.
  - apply checkURL_idle. exact H.
Qed.

(** X3.  The trigger sequence from the first click to the last: the
    dropdown is clicked and an interval of [CONFIG.delays.DROPDOWN_CHECK]
    milliseconds is set; the run of the interval that finds the secondary
    button clears the interval, clicks that button and sets a timer of
    [CONFIG.delays.DROPDOWN_CLOSE] milliseconds, which clicks the dropdown
    again.  Without the dropdown button the trigger does nothing. *)
Theorem trigger_sequence (b : Browser) :
  (dropdownButton b = true ->
   effects (closeCallback (intervalCallback true (triggerSortByDate b)))
   = effects b ++
     [TriggerSortByDate;
      Click CONFIG.selectors.dropdownButton;
      SetInterval CONFIG.delays.DROPDOWN_CHECK;
      ClearInterval;
      Click CONFIG.selectors.sortOldestButton;
      SetTimeout CONFIG.delays.DROPDOWN_CLOSE;
      Click CONFIG.selectors.dropdownButton])
  /\ (dropdownButton b = false ->
      effects (triggerSortByDate b) = effects b ++ [TriggerSortByDate]
      /\ polling (triggerSortByDate b) = polling b).
Proof.
  split; intros H.
  - unfold closeCallback, intervalCallback, triggerSortByDate. cbv zeta.
    cbn [emit dropdownButton polling closing effects]. rewrite H.
    cbn [emit dropdownButton polling closing effects].
    rewrite <- !app_assoc. reflexivity.
  - unfold triggerSortByDate. cbv zeta. cbn [emit dropdownButton]. rewrite H.
    split; reflexivity.
Qed.

End Further.

Section FurtherSignature.
Import RemoveSignature.

(** X4.  The callback of the signature observer does not throw on a node
    of the forest, whatever the node is and whatever [removeSignature]
    runs into. *)
Theorem onSignatureAdded_never_throws (node : handle) (F : Forest) :
  (exists l, locate node F = Some l) ->
  exists F', onSignatureAdded node F = (Val tt, F').
Proof.
  intros [l Hl]. unfold onSignatureAdded, bind, classList, withNode. rewrite Hl.
  destruct (kind (loc_self l)) as [tag classes attrs| | | | |] eqn:Hk;
    try (eexists; reflexivity).
  cbn [ret]. destruct (contains classes _); [|eexists; reflexivity].
  unfold querySelector, withNode. rewrite Hl, Hk. cbn [isParentNode negb].
  change (parse_selector CONFIG.selectors.protonSignature)
    with (Some protonSignatureSelector).
  cbn [ret]. destruct (firstMatchF _ _); cbn [option_map]; [|eexists; reflexivity].
  unfold removeSignature, try_catch.
  destruct (removeSignature_try node F) as [[b|e] F']; eexists; reflexivity.
Qed.

(** The theorem at the block without a parent. *)
Lemma onSignatureAdded_never_throws_witness :
  exists F', onSignatureAdded 1 [detachedBlock] = (Val tt, F').
Proof.
  apply onSignatureAdded_never_throws.
  exists (mkLoc None [] detachedBlock []). reflexivity.
Defined.

End FurtherSignature.

(** * The oldest-first script on a page that is not navigated *)

Section Session.
Import OldestFirst.

Lemma stateAt_0 b :
  polling b = false -> closing b = false -> stateAt b 0 (dropdownButton b) = b.
Proof.
  intros Hp Hc. destruct b as [u d p c e]. cbn in Hp, Hc. subst.
  unfold stateAt. cbn. rewrite app_nil_r. reflexivity.
Qed.

Lemma inPlace_cons s steps b : inPlace (s :: steps) b = inPlace steps (step s b).
Proof. reflexivity. Qed.

Lemma inPlace_app s1 s2 b : inPlace (s1 ++ s2) b = inPlace s2 (inPlace s1 b).
Proof. unfold inPlace. apply fold_left_app. Qed.

(** Whatever happens at a resting step leads to a resting step, not an
    earlier one. *)
Lemma step_resting b s k d :
  restingAt b k ->
  exists k' d', restingAt b k' /\ k <= k' /\ step s (stateAt b k d) = stateAt b k' d'.
Proof.
  intros Hk. destruct s as [e | present].
  2:{ exists k, present. split; [exact Hk|]. split; [lia | reflexivity]. }
  cbn [step]. destruct b as [u d0 p c ef].
  unfold restingAt in *. cbn [location] in *.
  destruct Hk as [-> | [Hn Hk]].
  - destruct e as [|present|]; cbn [handle_event].
    + destruct (needsSort u) eqn:Hn.
      * rewrite checkURL_fires by exact Hn. destruct d.
        -- exists 4, true. split; [right; split; [reflexivity | tauto]|]. split; [lia|].
           cbv [triggerSortByDate originalReplaceState emit stateAt
                location dropdownButton polling closing effects].
           cbn [Nat.eqb firstn sortSequence]. rewrite <- !app_assoc. reflexivity.
        -- exists 2, false. split; [right; split; [reflexivity | tauto]|]. split; [lia|].
           cbv [triggerSortByDate originalReplaceState emit stateAt
                location dropdownButton polling closing effects].
           cbn [Nat.eqb firstn sortSequence]. rewrite <- !app_assoc. reflexivity.
      * exists 0, d. split; [left; reflexivity|]. split; [lia|].
        apply checkURL_idle. exact Hn.
    + exists 0, d. split; [left; reflexivity|]. split; [lia | reflexivity].
    + exists 0, d. split; [left; reflexivity|]. split; [lia | reflexivity].
  - assert (Hk0 : k <> 0) by (destruct Hk as [-> | [-> | [-> | ->]]]; discriminate).
    destruct e as [|present|]; cbn [handle_event].
    + exists k, d. split; [right; split; assumption|]. split; [lia|].
      apply checkURL_idle. unfold stateAt. cbn [location].
      destruct (Nat.eqb_spec k 0); [contradiction|]. apply needsSort_marked.
    + destruct Hk as [-> | [-> | [-> | ->]]].
      * exists 2, d. split; [right; split; [exact Hn | tauto]|]. split; [lia | reflexivity].
      * destruct present.
        -- exists 7, d. split; [right; split; [exact Hn | tauto]|]. split; [lia|].
           cbv [intervalCallback emit stateAt
                location dropdownButton polling closing effects].
           cbn [Nat.eqb firstn sortSequence]. rewrite <- !app_assoc. reflexivity.
        -- exists 4, d. split; [right; split; [exact Hn | tauto]|]. split; [lia | reflexivity].
      * exists 7, d. split; [right; split; [exact Hn | tauto]|]. split; [lia | reflexivity].
      * exists 8, d. split; [right; split; [exact Hn | tauto]|]. split; [lia | reflexivity].
    + destruct Hk as [-> | [-> | [-> | ->]]].
      * exists 2, d. split; [right; split; [exact Hn | tauto]|]. split; [lia | reflexivity].
      * exists 4, d. split; [right; split; [exact Hn | tauto]|]. split; [lia | reflexivity].
      * exists 8, d. split; [right; split; [exact Hn | tauto]|]. split; [lia|].
        cbv [closeCallback emit stateAt
             location dropdownButton polling closing effects].
        cbn [Nat.eqb firstn sortSequence]. rewrite <- !app_assoc. reflexivity.
      * exists 8, d. split; [right; split; [exact Hn | tauto]|]. split; [lia | reflexivity].
Qed.

Lemma inPlace_resting b steps :
  forall k d, restingAt b k ->
  exists k' d', restingAt b k' /\ k <= k' /\ inPlace steps (stateAt b k d) = stateAt b k' d'.
Proof.
  induction steps as [|s steps IH]; intros k d Hk.
  - exists k, d. split; [exact Hk|]. split; [lia | reflexivity].
  - rewrite inPlace_cons.
    destruct (step_resting b s k d Hk) as [k1 [d1 [Hk1 [Hle1 E1]]]].
    rewrite E1. destruct (IH k1 d1 Hk1) as [k2 [d2 [Hk2 [Hle2 E2]]]].
    exists k2, d2. split; [exact Hk2|]. split; [lia | exact E2].
Qed.

(** After a trigger that found no dropdown button nothing ever moves the
    script on. *)
Lemma step_given_up b s d :
  exists d', step s (stateAt b 2 d) = stateAt b 2 d'.
Proof.
  destruct s as [[|present|] | present]; cbn [step handle_event].
  - exists d. apply checkURL_idle. unfold stateAt. cbn [location Nat.eqb].
    apply needsSort_marked.
  - exists d. reflexivity.
  - exists d. reflexivity.
  - exists present. reflexivity.
Qed.

Lemma inPlace_given_up b steps :
  forall d, exists d', inPlace steps (stateAt b 2 d) = stateAt b 2 d'.
Proof.
  induction steps as [|s steps IH]; intros d; [exists d; reflexivity|].
  rewrite inPlace_cons. destruct (step_given_up b s d) as [d1 E1]. rewrite E1. apply IH.
Qed.

(** A notification at an inbox URL without the marker takes the script at
    least two steps into its sequence. *)
Lemma notification_starts b k d :
  restingAt b k -> needsSort (location b) = true ->
  exists k' d', restingAt b k' /\ 2 <= k'
                /\ step (Runs UrlMayHaveChanged) (stateAt b k d) = stateAt b k' d'.
Proof.
  intros Hk Hn.
  destruct (step_resting b (Runs UrlMayHaveChanged) k d Hk) as [k' [d' [Hk' [Hle E]]]].
  exists k', d'. split; [exact Hk'|]. split; [|exact E].
  destruct Hk' as [-> | [_ [-> | [-> | [-> | ->]]]]]; try lia.
  exfalso. assert (k = 0) by lia. subst k.
  apply (f_equal effects) in E. cbn [step handle_event] in E.
  rewrite checkURL_fires in E by exact Hn.
  destruct (triggerSortByDate_keeps
              (originalReplaceState (set_hash CONFIG.url.sortParam (location (stateAt b 0 d)))
                 (stateAt b 0 d)))
    as [_ [_ [_ [rest Hrest]]]].
  rewrite Hrest in E.
  apply (f_equal (@List.length Effect)) in E.
  unfold originalReplaceState, emit, stateAt in E. cbn [effects firstn] in E.
  rewrite !length_app in E. cbn [List.length] in E. lia.
Qed.

End Session.

Section SessionProperties.
Import OldestFirst.

(** X5.  A page whose URL the application leaves alone, with no timer of
    the script running at the start.  Whatever happens on it and in whatever
    order (notifications that find the URL as the script left it, as those
    of the mutation observer of the script do at every change of the page;
    runs of the interval with the secondary button there or not; the closing
    timer; the application rendering or removing the dropdown button), what
    the script has done is always an initial part of one fixed sequence:
    the rewrite of the history, the trigger, the click that opens the
    dropdown, the interval, its clearing, the click on the secondary button,
    the closing timer, the click that closes the dropdown.  So as long as
    nobody navigates, notifications repeat no step of the sequence.  Off the
    inbox or with the marker there nothing is done; at an inbox URL without
    the marker one notification is enough for the rewrite and the trigger.
    (A navigation by the application starts the sequence anew, through the
    wrappers of the history methods.) *)
Theorem effects_follow_one_sequence_in_place (b : Browser) (steps : list InPlaceStep) :
  polling b = false -> closing b = false ->
  exists k,
    effects (inPlace steps b) = effects b ++ firstn k (sortSequence (location b))
    /\ (needsSort (location b) = false -> k = 0)
    /\ (needsSort (location b) = true -> In (Runs UrlMayHaveChanged) steps -> 2 <= k).
Proof.
  intros Hp Hc.
  destruct (inPlace_resting b steps 0 (dropdownButton b) (or_introl eq_refl))
    as [k [d [Hk [_ E]]]].
  rewrite (stateAt_0 b Hp Hc) in E.
  exists k. split; [rewrite E; reflexivity|]. split.
  - intros Hn. destruct Hk as [-> | [Hn' _]]; [reflexivity | congruence].
  - intros Hn Hin. apply in_split in Hin. destruct Hin as [s1 [s2 ->]].
    rewrite inPlace_app, inPlace_cons in E.
    destruct (inPlace_resting b s1 0 (dropdownButton b) (or_introl eq_refl))
      as [k1 [d1 [Hk1 [_ E1]]]].
    rewrite (stateAt_0 b Hp Hc) in E1. rewrite E1 in E.
    destruct (notification_starts b k1 d1 Hk1 Hn) as [k2 [d2 [Hk2 [H2 E2]]]].
    rewrite E2 in E.
    destruct (inPlace_resting b s2 k2 d2 Hk2) as [k3 [d3 [Hk3 [H3 E3]]]].
    rewrite E3 in E.
    apply (f_equal effects) in E. unfold stateAt in E. cbn [effects] in E.
    apply app_inv_head in E. apply (f_equal (@List.length Effect)) in E.
    rewrite !length_firstn in E. cbn [sortSequence List.length] in E.
    destruct Hk as [-> | [_ [-> | [-> | [-> | ->]]]]];
    destruct Hk3 as [-> | [_ [-> | [-> | [-> | ->]]]]]; cbn in E; lia.
Qed.

(** The theorem at the inbox opened without a fragment, with three
    notifications among the runs of the timers and the renderings. *)
Lemma effects_follow_one_sequence_in_place_witness :
  exists k,
    effects (inPlace [Runs UrlMayHaveChanged; Runs (IntervalFires false);
                      Renders false; Runs UrlMayHaveChanged; Runs (IntervalFires true);
                      Runs UrlMayHaveChanged; Renders true; Runs CloseTimerFires;
                      Runs (IntervalFires true); Runs CloseTimerFires] inboxBrowser)
    = effects inboxBrowser ++ firstn k (sortSequence (location inboxBrowser))
    /\ (needsSort (location inboxBrowser) = false -> k = 0)
    /\ (needsSort (location inboxBrowser) = true ->
        In (Runs UrlMayHaveChanged)
           [Runs UrlMayHaveChanged; Runs (IntervalFires false);
            Renders false; Runs UrlMayHaveChanged; Runs (IntervalFires true);
            Runs UrlMayHaveChanged; Renders true; Runs CloseTimerFires;
            Runs (IntervalFires true); Runs CloseTimerFires] -> 2 <= k).
Proof.
  apply (effects_follow_one_sequence_in_place inboxBrowser); reflexivity.
Defined.

(** X6.  An inbox URL without the marker, met while the dropdown button is
    not rendered: the first notification writes the marker and calls
    [triggerSortByDate], which finds no button and does nothing.  The
    marker stays, so as long as the application leaves the URL alone the
    sort is not tried again: whatever happens on the page, also once the
    button is rendered, the script clicks nothing.  It takes a navigation
    to try again: when the application then pushes an inbox URL without the
    marker, the wrapper of [history.pushState] rewrites the history and
    triggers once more, and this time the dropdown is clicked and the
    interval set. *)
Theorem missed_dropdown_retried_by_navigation_only
  (b : Browser) (steps : list InPlaceStep) :
  needsSort (location b) = true ->
  dropdownButton b = false -> polling b = false -> closing b = false ->
  effects (inPlace (Runs UrlMayHaveChanged :: steps) b)
  = effects b ++ [ReplaceState (set_hash CONFIG.url.sortParam (location b));
                  TriggerSortByDate]
  /\ forall u,
       needsSort u = true ->
       effects (history_pushState u
                  (setDropdown true (inPlace (Runs UrlMayHaveChanged :: steps) b)))
       = effects b ++ [ReplaceState (set_hash CONFIG.url.sortParam (location b));
                       TriggerSortByDate;
                       ReplaceState (set_hash CONFIG.url.sortParam u);
                       TriggerSortByDate;
                       Click CONFIG.selectors.dropdownButton;
                       SetInterval CONFIG.delays.DROPDOWN_CHECK].
Proof.
  intros Hn Hd Hp Hc. rewrite inPlace_cons.
  assert (E0 : step (Runs UrlMayHaveChanged) b = stateAt b 2 false).
  { cbn [step handle_event]. rewrite checkURL_fires by exact Hn.
    destruct b as [u d p c ef]. cbn [dropdownButton polling closing] in *. subst.
    cbv [triggerSortByDate originalReplaceState emit stateAt
         location dropdownButton polling closing effects].
    cbn [Nat.eqb firstn sortSequence]. rewrite <- !app_assoc. reflexivity. }
  rewrite E0. destruct (inPlace_given_up b steps false) as [d' E]. rewrite E.
  split; [reflexivity|].
  intros u Hu. unfold history_pushState.
  rewrite checkURL_fires by exact Hu.
  cbv [triggerSortByDate originalReplaceState originalPushState emit stateAt setDropdown
       location dropdownButton polling closing effects].
  cbn [Nat.eqb firstn sortSequence]. rewrite <- !app_assoc. reflexivity.
Qed.

(** The theorem at the inbox before its toolbar is rendered. *)
Lemma missed_dropdown_retried_by_navigation_only_witness :
  effects (inPlace [Runs UrlMayHaveChanged; Runs UrlMayHaveChanged; Renders true;
                    Runs UrlMayHaveChanged; Runs (IntervalFires true);
                    Runs CloseTimerFires] unrenderedBrowser)
  = [ReplaceState (set_hash CONFIG.url.sortParam (location unrenderedBrowser));
     TriggerSortByDate].
Proof.
  exact (proj1 (missed_dropdown_retried_by_navigation_only unrenderedBrowser
           [Runs UrlMayHaveChanged; Renders true;
            Runs UrlMayHaveChanged; Runs (IntervalFires true); Runs CloseTimerFires]
           eq_refl eq_refl eq_refl eq_refl)).
Defined.

(** X7.  The wrapper the script installs over [history.replaceState]: the
    browser's own [replaceState], then [checkURL].  When the application
    replaces the URL by an inbox URL without the marker the script replaces
    it once more, by that URL with the marker as its fragment, and calls
    [triggerSortByDate]; on any other URL the wrapper is the browser's
    method.  In particular the call [checkURL] itself makes through the
    wrapper, with the marker already in the URL, goes no further: the
    wrapper and [checkURL] call each other once, not for ever. *)
Theorem history_replaceState_sorts (u : URL) (b : Browser) :
  (needsSort u = true ->
   history_replaceState u b
   = triggerSortByDate
       (originalReplaceState (set_hash CONFIG.url.sortParam u) (originalReplaceState u b))
   /\ location (history_replaceState u b) = set_hash CONFIG.url.sortParam u
   /\ effects (history_replaceState u b)
      = effects b ++
        ReplaceState u :: ReplaceState (set_hash CONFIG.url.sortParam u)
        :: TriggerSortByDate
        :: (if dropdownButton b
            then [Click CONFIG.selectors.dropdownButton;
                  SetInterval CONFIG.delays.DROPDOWN_CHECK]
            else []))
  /\ (needsSort u = false -> history_replaceState u b = originalReplaceState u b)
  /\ history_replaceState (set_hash CONFIG.url.sortParam u) b
     = originalReplaceState (set_hash CONFIG.url.sortParam u) b.
Proof.
  unfold history_replaceState. split; [|split].
  - intros H.
    assert (E : checkURL (originalReplaceState u b)
                = triggerSortByDate
                    (originalReplaceState (set_hash CONFIG.url.sortParam u)
                       (originalReplaceState u b))).
    { rewrite checkURL_fires by exact H. reflexivity. }
    rewrite E. split; [reflexivity|].
    destruct b as [u0 d p c ef].
    cbv [triggerSortByDate originalReplaceState emit
         location dropdownButton polling closing effects].
    destruct d; cbv [location effects]; rewrite <- !app_assoc; split; reflexivity.
  - intros H. apply checkURL_idle. exact H.
  - apply checkURL_idle. apply needsSort_marked.
Qed.

End SessionProperties.

(** * More on the signature script *)

(** ** From a found node to the shape of the forest around it *)

Lemma split_at_some h : forall l a x b,
  split_at h l = Some (a, x, b) -> l = a ++ x :: b /\ nid x = h.
Proof.
  induction l as [|c l IH]; intros a x b H; simpl in H; [discriminate|].
  destruct (Nat.eqb_spec (nid c) h) as [e|e].
  - inversion H; subst. split; reflexivity.
  - destruct (split_at h l) as [[[a' x'] b']|]; [|discriminate].
    inversion H; subst. destruct (IH a' x b eq_refl) as [-> Hx].
    split; [reflexivity | exact Hx].
Qed.

Lemma locateF_some h : forall cs l,
  locateF h cs = Some l -> exists a c b, cs = a ++ c :: b /\ locateT h c = Some l.
Proof.
  induction cs as [|c cs IH]; intros l H; simpl in H; [discriminate|].
  destruct (locateT h c) as [r|] eqn:Hc.
  - inversion H; subst. exists [], c, cs. split; [reflexivity | exact Hc].
  - destruct (IH l H) as [a [c' [b [-> Hc']]]].
    exists (c :: a), c', b. split; [reflexivity | exact Hc'].
Qed.

(** A node found inside a tree has a parent, and the tree is the parent
    with the node among its children, at the end of some path. *)
Lemma locateT_plug h : forall t l,
  locateT h t = Some l ->
  exists p pk C,
    loc_parent l = Some (p, pk)
    /\ t = plug C (Node p pk (loc_left l ++ loc_self l :: loc_right l))
    /\ nid (loc_self l) = h.
Proof.
  induction t as [i k cs IH] using Tree_ind'. intros l H.
  rewrite locateT_eq in H.
  destruct (split_at h cs) as [[[a x] b]|] eqn:Hs.
  - inversion H; subst. destruct (split_at_some _ _ _ _ _ Hs) as [-> Hx].
    exists i, k, []. cbn [loc_parent loc_left loc_self loc_right plug].
    split; [reflexivity|]. split; [reflexivity | exact Hx].
  - destruct (locateF_some _ _ _ H) as [a [c [b [-> Hc]]]].
    rewrite Forall_forall in IH.
    destruct (IH c (in_elt c a b) l Hc) as [p [pk [C [Hp [Ht Hn]]]]].
    exists p, pk, (mkFrame i k a b :: C).
    split; [exact Hp|]. split; [|exact Hn].
    cbn [plug f_id f_kind f_left f_right]. rewrite <- Ht. reflexivity.
Qed.

(** A node found in a forest is a root, without siblings, or sits under
    its parent in one of the trees. *)
Lemma locate_shape h F l :
  locate h F = Some l ->
  nid (loc_self l) = h /\
  ((loc_parent l = None /\ loc_left l = [] /\ loc_right l = []
    /\ exists a b, split_at h F = Some (a, loc_self l, b))
   \/ exists p pk Fl C Fr,
        loc_parent l = Some (p, pk)
        /\ F = Fl ++ plug C (Node p pk (loc_left l ++ loc_self l :: loc_right l)) :: Fr).
Proof.
  unfold locate. intros H.
  destruct (split_at h F) as [[[a x] b]|] eqn:Hs.
  - inversion H; subst. cbn [loc_parent loc_left loc_self loc_right].
    destruct (split_at_some _ _ _ _ _ Hs) as [_ Hx].
    split; [exact Hx|]. left. repeat split. exists a, b. reflexivity.
  - destruct (locateF_some _ _ _ H) as [a [c [b [-> Hc]]]].
    destruct (locateT_plug _ _ _ Hc) as [p [pk [C [Hp [Ht Hn]]]]].
    split; [exact Hn|]. right. exists p, pk, a, C, b.
    split; [exact Hp|]. rewrite <- Ht. reflexivity.
Qed.

Lemma split_at_app h l d a x b :
  split_at h l = Some (a, x, b) -> split_at h (l ++ d) = Some (a, x, b ++ d).
Proof.
  revert a x b. induction l as [|c l IH]; intros a x b H; simpl in *; [discriminate|].
  destruct (Nat.eqb (nid c) h).
  - inversion H; subst. reflexivity.
  - destruct (split_at h l) as [[[a' x'] b']|]; [|discriminate].
    inversion H; subst. rewrite (IH _ _ _ eq_refl). reflexivity.
Qed.

(** A root stays the root it is when trees are added to the forest. *)
Lemma locate_root_app h F d l :
  locate h F = Some l -> loc_parent l = None -> locate h (F ++ d) = Some l.
Proof.
  intros H Hp. destruct (locate_shape _ _ _ H) as [_ [[_ [Hl [Hr [a [b Hs]]]]] | K]].
  - unfold locate. rewrite (split_at_app _ _ d _ _ _ Hs).
    destruct l as [lp ll ls lr]. cbn in *. subst. reflexivity.
  - destruct K as [p [pk [Fl [C [Fr [Hp' _]]]]]]. congruence.
Qed.

(** ** [removeSignature] on an element that is not attached *)

(** The class test on the first element child of a node that is the focus
    of a path. *)
Lemma classList_first_focus c Fl C n nk kids Fr :
  NoDup (idsF (Fl ++ plug C (Node n nk kids) :: Fr)) ->
  optionally (firstElement kids)
    (fun f => bind (classList_contains f c) (fun b => ret (Some b)))
    (Fl ++ plug C (Node n nk kids) :: Fr) =
  (Val (option_map (fun t => hasClass c (kind t)) (find isElementT kids)),
   Fl ++ plug C (Node n nk kids) :: Fr).
Proof.
  intros Hnd. unfold firstElement.
  destruct (find isElementT kids) as [t|] eqn:Hfind; [|reflexivity].
  apply find_some in Hfind. destruct Hfind as [Hin Ht].
  apply in_split in Hin. destruct Hin as [a [b ->]].
  cbn [option_map optionally]. unfold classList_contains.
  rewrite (bind_val _ _ _ (hasClass c (kind t))
             (Fl ++ plug C (Node n nk (a ++ t :: b)) :: Fr)).
  - reflexivity.
  - rewrite withNode_child by exact Hnd.
    cbn [loc_self]. unfold isElementT in Ht. destruct (kind t); try discriminate.
    reflexivity.
Qed.

(** An element that is a root of the forest: [node.parentNode] is null and
    the call of [insertBefore] on it throws. *)
Lemma removeSignature_root Fl n nk kids Fr :
  NoDup (idsF (Fl ++ Node n nk kids :: Fr)) -> isElement nk = true ->
  RemoveSignature.removeSignature n (Fl ++ Node n nk kids :: Fr) =
  (Val false,
   (Fl ++ Node n nk kids :: Fr) ++ [lineBreak (fresh (Fl ++ Node n nk kids :: Fr))]).
Proof.
  intros Hnd Hnk. set (N := Node n nk kids) in *. set (F := Fl ++ N :: Fr) in *.
  assert (Hloc : locate n F = Some (mkLoc None [] N [])) by (apply (locate_root Fl N Fr); exact Hnd).
  assert (HlocB : forall d, locate n (F ++ d) = Some (mkLoc None [] N [])).
  { intros d. apply locate_root_app; [exact Hloc | reflexivity]. }
  unfold RemoveSignature.removeSignature, try_catch, RemoveSignature.removeSignature_try.
  rewrite (bind_val _ _ F None F).
  2:{ unfold previousElementSibling, withNode. rewrite Hloc.
      cbn [loc_self loc_left kind N]. rewrite Hnk. reflexivity. }
  rewrite (bind_val _ _ F (firstElement kids) F).
  2:{ unfold firstElementChild, withNode. rewrite Hloc.
      cbn [loc_self kind childNodes N]. destruct nk; try discriminate. reflexivity. }
  rewrite (bind_val _ _ F _ F
             (classList_first_focus _ Fl [] n nk kids Fr Hnd)).
  rewrite (bind_val _ _ F (Some OwnerDocument) F).
  2:{ unfold ownerDocument, withNode. rewrite Hloc.
      cbn [loc_self kind N]. destruct nk; try discriminate. reflexivity. }
  rewrite (bind_val _ _ F (fresh F) (F ++ [Node (fresh F) (ElementNode "br" [] []) []]))
    by reflexivity.
  rewrite (bind_val _ _ _ None (F ++ [Node (fresh F) (ElementNode "br" [] []) []])).
  2:{ unfold parentNode, withNode. rewrite HlocB. reflexivity. }
  reflexivity.
Qed.

Section UnderDocument.
Variables (Fl Fr : Forest) (C : list Frame) (p : handle) (pk : NodeKind).

(** A document takes no second element child: the [insertBefore] of
    [removeSignature] on the element child of a document throws. *)
Lemma step_insertBefore_document tag br l x r d :
  let B := Node br (ElementNode tag [] []) [] in
  NoDup (idsF (shape Fl Fr C p pk (l ++ x :: r) (d ++ [B]))) ->
  isDocument pk = true -> isElementT x = true ->
  insertBefore (Some p) br (nid x) (shape Fl Fr C p pk (l ++ x :: r) (d ++ [B])) =
  (Throw HierarchyRequestError, shape Fl Fr C p pk (l ++ x :: r) (d ++ [B])).
Proof.
  intros B Hnd Hdoc Hx. subst B. set (B := Node br (ElementNode tag [] []) []) in *.
  unfold insertBefore.
  destruct (locate_parent_shape Fl Fr C p pk _ _ Hnd) as [lp [Hlp Hself]].
  unfold withNode at 1. rewrite Hlp.
  assert (Hbr : locate br (shape Fl Fr C p pk (l ++ x :: r) (d ++ [B])) = Some (mkLoc None [] B [])).
  { rewrite <- shape_app. rewrite <- shape_app in Hnd.
    apply (locate_root (shape Fl Fr C p pk (l ++ x :: r) d) B []). exact Hnd. }
  unfold withNode at 1. rewrite Hbr.
  rewrite (withNode_shape Fl Fr C p pk) by exact Hnd.
  cbn [loc_self loc_left loc_parent loc_right]. rewrite Hself.
  cbn [kind childNodes]. rewrite Hdoc, Nat.eqb_refl.
  assert (Hpk : isParentNode pk = true) by (destruct pk; try discriminate; reflexivity).
  rewrite Hpk. cbn [negb andb].
  subst B. cbn [kind isElement negb ids flat_map app existsb].
  unfold shape in Hnd. nodup_at Hnd p. nodup_at Hnd br.
  occ_all. rewrite !Nat.eqb_refl in *.
  assert (Hpb : (p =? br)%nat = false).
  { destruct (Nat.eqb_spec p br); [lia | reflexivity]. }
  rewrite Hpb. cbn [orb].
  rewrite existsb_app. cbn [existsb]. rewrite Hx. rewrite !orb_true_r. reflexivity.
Qed.

Variables (L : list Tree) (n : handle) (nk : NodeKind) (kids r : list Tree).
Hypothesis Hnk : isElement nk = true.
Hypothesis Hdoc : isDocument pk = true.
Hypothesis Hnd : NoDup (idsF (shape Fl Fr C p pk (L ++ Node n nk kids :: r) [])).

Lemma removeSignature_under_document :
  RemoveSignature.removeSignature n (shape Fl Fr C p pk (L ++ Node n nk kids :: r) []) =
  (Val false,
   shape Fl Fr C p pk (L ++ Node n nk kids :: r) []
   ++ [lineBreak (fresh (shape Fl Fr C p pk (L ++ Node n nk kids :: r) []))]).
Proof.
  set (N := Node n nk kids) in *.
  assert (HN : isElementT N = true) by exact Hnk.
  unfold RemoveSignature.removeSignature, try_catch, RemoveSignature.removeSignature_try.
  change n with (nid N) at 1.
  rewrite (bind_val _ _ _ _ _ (step_previousElementSibling Fl Fr C p pk L N r [] Hnd HN)).
  change n with (nid N) at 1.
  rewrite (bind_val _ _ _ _ _ (step_firstElementChild Fl Fr C p pk L N r [] Hnd HN)).
  rewrite (bind_val _ _ _ _ _
    (step_classList_first Fl Fr C p pk
       (slice1 RemoveSignature.CONFIG.selectors.emptySignature) L n nk kids r [] Hnd)).
  change n with (nid N) at 1.
  rewrite (bind_val _ _ _ _ _ (step_ownerDocument Fl Fr C p pk L N r [] Hnd HN)).
  rewrite (bind_val _ _ _ (fresh (shape Fl Fr C p pk (L ++ N :: r) []))
             (shape Fl Fr C p pk (L ++ N :: r) [] ++
              [Node (fresh (shape Fl Fr C p pk (L ++ N :: r) [])) (ElementNode "br" [] []) []]))
    by reflexivity.
  rewrite shape_app. cbn [app].
  pose proof (NoDup_shape_fresh Fl Fr C p pk _ _ "br" Hnd) as Hnd1. cbn [app] in Hnd1.
  set (br := fresh (shape Fl Fr C p pk (L ++ N :: r) [])) in *. clearbody br.
  change n with (nid N) at 1.
  rewrite (bind_val _ _ _ _ _ (step_parentNode Fl Fr C p pk L N r _ Hnd1)).
  change n with (nid N) at 1.
  rewrite (bind_throw _ _ _ _ _
             (step_insertBefore_document "br" br L N r [] Hnd1 Hdoc HN)).
  cbn [ret]. unfold lineBreak. rewrite ?(shape_app Fl Fr C p pk). reflexivity.
Qed.

End UnderDocument.

(** ** What the sibling cleanup keeps *)

Lemma filter_none {A} (f : A -> bool) l : existsb f l = false -> filter f l = [].
Proof.
  induction l as [|c l IH]; simpl; [reflexivity|]. intros H.
  apply orb_false_iff in H. destruct H as [Hc Hl]. rewrite Hc. apply IH. exact Hl.
Qed.

(** Dropping the last element drops no other node. *)
Lemma dropLastElement_others l :
  filter (fun t => negb (isElementT t)) (fst (dropLastElement l))
  = filter (fun t => negb (isElementT t)) l.
Proof.
  destruct (lastElement_cases l) as [H | [l1 [P [l2 [-> [HP Hl2]]]]]].
  - rewrite dropLastElement_none by exact H. reflexivity.
  - rewrite dropLastElement_last by assumption. cbn [fst].
    rewrite !filter_app. cbn [filter]. rewrite HP. reflexivity.
Qed.

(** It drops one element, when there is one. *)
Lemma dropLastElement_elements l :
  List.length (filter isElementT l)
  = List.length (filter isElementT (fst (dropLastElement l)))
    + List.length (snd (dropLastElement l))
  /\ List.length (snd (dropLastElement l)) <= 1.
Proof.
  destruct (lastElement_cases l) as [H | [l1 [P [l2 [-> [HP Hl2]]]]]].
  - rewrite dropLastElement_none by exact H. cbn. split; lia.
  - rewrite dropLastElement_last by assumption. cbn [fst snd].
    rewrite !filter_app. cbn [filter]. rewrite HP. rewrite !length_app. cbn. split; lia.
Qed.

Lemma siblingCleanup_others empty l :
  filter (fun t => negb (isElementT t)) (fst (siblingCleanup empty l))
  = filter (fun t => negb (isElementT t)) l.
Proof.
  unfold siblingCleanup. destruct empty; [|apply dropLastElement_others].
  pose proof (dropLastElement_others l) as H1.
  destruct (dropLastElement l) as [L1 d1]. cbn [fst] in H1.
  pose proof (dropLastElement_others L1) as H2.
  destruct (dropLastElement L1) as [L2 d2]. cbn [fst] in *. congruence.
Qed.

Lemma siblingCleanup_elements empty l :
  List.length (filter isElementT l)
  = List.length (filter isElementT (fst (siblingCleanup empty l)))
    + List.length (snd (siblingCleanup empty l))
  /\ List.length (snd (siblingCleanup empty l)) <= (if empty then 2 else 1).
Proof.
  unfold siblingCleanup. destruct empty; [|apply dropLastElement_elements].
  pose proof (dropLastElement_elements l) as [H1 K1].
  destruct (dropLastElement l) as [L1 d1]. cbn [fst snd] in H1, K1.
  pose proof (dropLastElement_elements L1) as [H2 K2].
  destruct (dropLastElement L1) as [L2 d2]. cbn [fst snd] in *.
  rewrite length_app. split; lia.
Qed.

(** ** The guards of the two callers of [removeSignature] *)

Lemma onSignatureAdded_cases node F l :
  locate node F = Some l ->
  RemoveSignature.onSignatureAdded node F =
  (Val tt,
   if isStrippable (loc_self l) then snd (RemoveSignature.removeSignature node F) else F).
Proof.
  intros Hl.
  unfold RemoveSignature.onSignatureAdded, bind, classList, withNode, isStrippable, hasClass.
  rewrite Hl.
  destruct (kind (loc_self l)) as [tag classes attrs| | | | |] eqn:Hk;
    try reflexivity.
  cbn [ret].
  change (slice1 RemoveSignature.CONFIG.selectors.signatureBlock)
    with "protonmail_signature_block".
  destruct (contains classes "protonmail_signature_block"); [|reflexivity].
  unfold querySelector, withNode. rewrite Hl, Hk. cbn [isParentNode negb andb].
  change (parse_selector RemoveSignature.CONFIG.selectors.protonSignature)
    with (Some protonSignatureSelector).
  cbn [ret]. destruct (firstMatchF _ _); cbn [option_map]; [|reflexivity].
  unfold RemoveSignature.removeSignature, try_catch.
  destruct (RemoveSignature.removeSignature_try node F) as [[b|e] F']; reflexivity.
Qed.

Lemma removeExisting_cases node F l :
  locate node F = Some l -> isParentNode (kind (loc_self l)) = true ->
  RemoveSignature.removeExisting node F =
  (Val tt,
   if holdsVendorSignature (loc_self l)
   then snd (RemoveSignature.removeSignature node F) else F).
Proof.
  intros Hl Hk.
  unfold RemoveSignature.removeExisting, bind, querySelector, withNode, holdsVendorSignature.
  rewrite Hl, Hk. cbn [negb].
  change (parse_selector RemoveSignature.CONFIG.selectors.protonSignature)
    with (Some protonSignatureSelector).
  cbn [ret]. destruct (firstMatchF _ _); cbn [option_map]; [|reflexivity].
  unfold RemoveSignature.removeSignature, try_catch.
  destruct (RemoveSignature.removeSignature_try node F) as [[b|e] F']; reflexivity.
Qed.

(** ** What the observer acts on, and what [removeSignature] leaves alone *)

Section SignatureEdges.
Import RemoveSignature.

(** X8.  When the two callers call [removeSignature].  The callback of the
    signature observer calls it on an added node exactly when the node
    itself is an element with the class of signature blocks and holds a
    vendor signature; on every other node of the forest (text, an element
    without the class, a block without a vendor signature, a wrapper with a
    block inside) it leaves the forest as it is.  The first pass of
    [setupObserver] calls it on a block it found exactly when the block
    holds a vendor signature.  So neither caller ever runs the sibling
    cleanup on a block without a vendor signature. *)
Theorem callers_act_on_vendor_blocks (node : handle) (F : Forest) (l : Loc) :
  locate node F = Some l ->
  onSignatureAdded node F
  = (Val tt, if isStrippable (loc_self l) then snd (removeSignature node F) else F)
  /\ (isParentNode (kind (loc_self l)) = true ->
      removeExisting node F
      = (Val tt, if holdsVendorSignature (loc_self l)
                 then snd (removeSignature node F) else F)).
Proof.
  intros Hl. split.
  - apply onSignatureAdded_cases. exact Hl.
  - intros Hp. apply removeExisting_cases; assumption.
Qed.

(** The theorem at a wrapper that was added with a signature block inside:
    the block is not looked for below the added node. *)
Lemma callers_act_on_vendor_blocks_witness :
  onSignatureAdded 2 wrappedBlockExample = (Val tt, wrappedBlockExample).
Proof.
  exact (proj1 (callers_act_on_vendor_blocks 2 wrappedBlockExample
           (mkLoc (Some (0, ElementNode "body" [] []))
              [Node 1 (ElementNode "div" [] []) []]
              (Node 2 (ElementNode "div" ["wrapper"] [])
                 [Node 3 (ElementNode "div" ["protonmail_signature_block"] [])
                    [Node 5 (ElementNode "div" ["protonmail_signature_block-proton"] []) []]])
              [])
           eq_refl)).
Defined.

(** X9.  An element without a parent, or whose parent is a document: the
    [insertBefore] of [removeSignature] throws ([node.parentNode] is null,
    or the document takes no second element child), before any sibling and
    before the vendor signature were removed.  [removeSignature] returns
    [false], and all it leaves behind is the line break it created, in no
    tree. *)
Theorem removeSignature_unattached_element (n : handle) (F : Forest) (l : Loc) :
  wellFormed F -> locate n F = Some l ->
  isElement (kind (loc_self l)) = true -> attached l = false ->
  removeSignature n F = (Val false, F ++ [lineBreak (fresh F)]).
Proof.
  intros [Hnd Hh] Hloc Hk Hat.
  destruct (locate_shape _ _ _ Hloc) as [Hn [[Hp [_ [_ [a [b Hs]]]]] | K]].
  - destruct (split_at_some _ _ _ _ _ Hs) as [-> _].
    destruct (loc_self l) as [i k kids]. cbn [nid kind] in *. subst i.
    apply removeSignature_root; assumption.
  - destruct K as [p [pk [Fl [C [Fr [Hp ->]]]]]].
    unfold attached in Hat. rewrite Hp in Hat. apply negb_false_iff in Hat.
    destruct (loc_self l) as [i k kids]. cbn [nid kind] in *. subst i.
    rewrite <- (shape_nil Fl Fr C p pk) in *.
    apply (removeSignature_under_document Fl Fr C p pk); assumption.
Qed.

(** The theorem at a document whose root element is a signature block. *)
Lemma removeSignature_unattached_element_witness :
  removeSignature 1 rootBlockExample = (Val false, rootBlockExample ++ [lineBreak 3]).
Proof.
  refine (removeSignature_unattached_element 1 rootBlockExample
            (mkLoc (Some (0, DocumentNode)) []
               (Node 1 (ElementNode "html" ["protonmail_signature_block"] [])
                  [Node 2 (ElementNode "div" ["protonmail_signature_block-proton"] []) []])
               [])
            _ eq_refl eq_refl eq_refl).
  split; [simpl; concrete_nodup | reflexivity].
Defined.

(** X10.  Missing siblings are no error.  A signature block with a vendor
    signature under a parent that is no document: when no element stands
    before the block, [removeSignature] removes no sibling at all; when
    exactly one element [P] stands before it, [P] is the only sibling
    removed, also for a block of the empty variant, for which the code looks
    for a second one.  In both cases the line break is inserted, the vendor
    signature is removed and [true] is returned. *)
Theorem removeSignature_missing_siblings
  (Fl Fr : Forest) (C : list Frame) (p : handle) (pk : NodeKind)
  (L : list Tree) (n : handle) (tag : string) (classes : list string)
  (attrs : list (string * string)) (kids r : list Tree) (sig : Tree) :
  wellFormed (Fl ++ plug C (Node p pk
                (L ++ Node n (ElementNode tag classes attrs) kids :: r)) :: Fr) ->
  isDocument pk = false ->
  firstMatchF protonSignatureSelector kids = Some sig ->
  (existsb isElementT L = false ->
   removeSignature n
     (Fl ++ plug C (Node p pk (L ++ Node n (ElementNode tag classes attrs) kids :: r)) :: Fr)
   = (Val true,
      Fl ++ plug C (Node p pk
        (L ++ lineBreak (fresh (Fl ++ plug C (Node p pk
                 (L ++ Node n (ElementNode tag classes attrs) kids :: r)) :: Fr))
           :: cutT (nid sig) (Node n (ElementNode tag classes attrs) kids) :: r))
      :: Fr ++ [sig]))
  /\ (forall l1 P l2,
        L = l1 ++ P :: l2 -> isElementT P = true ->
        existsb isElementT l1 = false -> existsb isElementT l2 = false ->
        removeSignature n
          (Fl ++ plug C (Node p pk (L ++ Node n (ElementNode tag classes attrs) kids :: r)) :: Fr)
        = (Val true,
           Fl ++ plug C (Node p pk
             (l1 ++ l2 ++
              lineBreak (fresh (Fl ++ plug C (Node p pk
                 (L ++ Node n (ElementNode tag classes attrs) kids :: r)) :: Fr))
              :: cutT (nid sig) (Node n (ElementNode tag classes attrs) kids) :: r))
           :: Fr ++ [P; sig])).
Proof.
  intros Hwf Hdoc Hsig.
  pose proof (wellFormed_focus _ _ _ _ Hwf) as Hh.
  pose proof (hierarchyT_parent _ _ _ _ _ Hh) as Hpk.
  destruct Hwf as [Hnd _].
  rewrite <- shape_nil in *.
  rewrite (removeSignature_attached Fl Fr C p pk L n
             (ElementNode tag classes attrs) kids r eq_refl Hpk Hdoc Hnd).
  cbv zeta. rewrite Hsig. split.
  - intros HL. unfold siblingCleanup.
    destruct (truthy (isEmptySignatureOf kids));
      repeat (rewrite (dropLastElement_none L HL); cbn [fst snd app]);
      unfold shape, lineBreak; reflexivity.
  - intros l1 P l2 -> HP Hl1 Hl2.
    destruct (truthy (isEmptySignatureOf kids)).
    + rewrite siblingCleanup_empty_last by assumption.
      rewrite (dropLastElement_none l1 Hl1). cbn [fst snd app].
      unfold shape, lineBreak. rewrite <- !app_assoc. reflexivity.
    + unfold siblingCleanup. rewrite dropLastElement_last by assumption.
      cbn [fst snd app]. unfold shape, lineBreak. rewrite <- !app_assoc. reflexivity.
Qed.

(** The theorem at a composer body whose signature block comes first. *)
Lemma removeSignature_missing_siblings_witness :
  removeSignature 3 leadingBlockExample =
  (Val true,
   [Node 0 (ElementNode "body" [] [])
      [Node 2 (TextNode "Hello") [];
       lineBreak 7;
       Node 3 (ElementNode "div" ["protonmail_signature_block"] [])
         [Node 4 (ElementNode "div" ["protonmail_signature_block-user"] []) []];
       Node 6 (ElementNode "blockquote" [] []) []];
    Node 5 (ElementNode "div" ["protonmail_signature_block-proton"] []) []]).
Proof.
  refine (proj1 (removeSignature_missing_siblings [] [] [] 0
            (ElementNode "body" [] []) [Node 2 (TextNode "Hello") []]
            3 "div" ["protonmail_signature_block"] []
            [Node 4 (ElementNode "div" ["protonmail_signature_block-user"] []) [];
             Node 5 (ElementNode "div" ["protonmail_signature_block-proton"] []) []]
            [Node 6 (ElementNode "blockquote" [] []) []]
            (Node 5 (ElementNode "div" ["protonmail_signature_block-proton"] []) [])
            _ eq_refl eq_refl) eq_refl).
  split; [simpl; concrete_nodup | reflexivity].
Defined.

(** X11.  What [removeSignature] leaves alone.  For a signature block under
    a parent that is no document, anywhere in a well-formed forest: the
    other trees of the forest, the path down to the parent and the siblings
    after the block are as before; every sibling before the block that is no
    element (text, comments) is still there, in the same order; at most two
    element siblings are gone, at most one for a block that is not of the
    empty variant; the block itself is still in its place, right after the
    new line break, and differs from what it was only when [true] is
    returned, that is, only when it held a vendor signature. *)
Theorem removeSignature_frame
  (Fl Fr : Forest) (C : list Frame) (p : handle) (pk : NodeKind)
  (L : list Tree) (n : handle) (tag : string) (classes : list string)
  (attrs : list (string * string)) (kids r : list Tree) :
  wellFormed (Fl ++ plug C (Node p pk
                (L ++ Node n (ElementNode tag classes attrs) kids :: r)) :: Fr) ->
  isDocument pk = false ->
  exists (b : bool) (L' : list Tree) (kids' : list Tree) (dets : list Tree),
    removeSignature n
      (Fl ++ plug C (Node p pk (L ++ Node n (ElementNode tag classes attrs) kids :: r)) :: Fr)
    = (Val b,
       Fl ++ plug C (Node p pk
         (L' ++ lineBreak (fresh (Fl ++ plug C (Node p pk
                  (L ++ Node n (ElementNode tag classes attrs) kids :: r)) :: Fr))
             :: Node n (ElementNode tag classes attrs) kids' :: r))
       :: Fr ++ dets)
    /\ filter (fun t => negb (isElementT t)) L' = filter (fun t => negb (isElementT t)) L
    /\ List.length (filter isElementT L) <= List.length (filter isElementT L') + 2
    /\ (truthy (isEmptySignatureOf kids) = false ->
        List.length (filter isElementT L) <= List.length (filter isElementT L') + 1)
    /\ (b = true <-> firstMatchF protonSignatureSelector kids <> None)
    /\ (b = false -> kids' = kids).
Proof.
  intros Hwf Hdoc.
  pose proof (wellFormed_focus _ _ _ _ Hwf) as Hh.
  pose proof (hierarchyT_parent _ _ _ _ _ Hh) as Hpk.
  destruct Hwf as [Hnd _].
  rewrite <- shape_nil in *.
  rewrite (removeSignature_attached Fl Fr C p pk L n
             (ElementNode tag classes attrs) kids r eq_refl Hpk Hdoc Hnd).
  cbv zeta.
  pose proof (siblingCleanup_others (truthy (isEmptySignatureOf kids)) L) as Ho.
  pose proof (siblingCleanup_elements (truthy (isEmptySignatureOf kids)) L) as [He Hle].
  set (LD := siblingCleanup (truthy (isEmptySignatureOf kids)) L) in *.
  destruct (firstMatchF protonSignatureSelector kids) as [sig|].
  - exists true, (fst LD),
      (filter (keeps (nid sig)) (map (cutT (nid sig)) kids)), (snd LD ++ [sig]).
    split; [reflexivity|]. split; [exact Ho|].
    split; [destruct (truthy (isEmptySignatureOf kids)); lia|].
    split; [intros Hv; rewrite Hv in Hle; lia|].
    split; [split; [discriminate | reflexivity] | discriminate].
  - exists false, (fst LD), kids, (snd LD).
    split; [reflexivity|]. split; [exact Ho|].
    split; [destruct (truthy (isEmptySignatureOf kids)); lia|].
    split; [intros Hv; rewrite Hv in Hle; lia|].
    split; [split; [discriminate | congruence] | reflexivity].
Qed.

(** The theorem at the composer body with a text node between the
    paragraph and the signature block. *)
Lemma removeSignature_frame_witness :
  exists (b : bool) (L' kids' dets : list Tree),
    removeSignature 3 regularExample
    = (Val b,
       [Node 0 (ElementNode "body" [] [])
          (L' ++ lineBreak 7
              :: Node 3 (ElementNode "div" ["protonmail_signature_block"] []) kids'
              :: [Node 6 (ElementNode "blockquote" [] []) []])] ++ dets)
    /\ filter (fun t => negb (isElementT t)) L' = [Node 2 (TextNode "") []].
Proof.
  destruct (removeSignature_frame [] [] [] 0 (ElementNode "body" [] [])
              [Node 1 (ElementNode "div" [] []) []; Node 2 (TextNode "") []]
              3 "div" ["protonmail_signature_block"] []
              [Node 4 (ElementNode "div" ["protonmail_signature_block-user"] []) [];
               Node 5 (ElementNode "div" ["protonmail_signature_block-proton"] []) []]
              [Node 6 (ElementNode "blockquote" [] []) []])
    as [b [L' [kids' [dets [H1 [H2 _]]]]]].
  - split; [simpl; concrete_nodup | reflexivity].
  - reflexivity.
  - exists b, L', kids', dets. split; [exact H1 | exact H2].
Defined.

End SignatureEdges.

(** ** The nodes of a forest *)

Lemma In_nodesF_app x a b : In x (nodesF (a ++ b)) <-> In x (nodesF a) \/ In x (nodesF b).
Proof. unfold nodesF. rewrite flat_map_app, in_app_iff. tauto. Qed.

Lemma In_nodesF_cons x t l : In x (nodesF (t :: l)) <-> In x (nodesT t) \/ In x (nodesF l).
Proof. unfold nodesF. cbn [flat_map]. rewrite in_app_iff. tauto. Qed.

Lemma In_nodesF_nil x : In x (nodesF []) <-> False.
Proof. unfold nodesF. cbn. tauto. Qed.

Lemma In_nodesT_Node x i k cs : In x (nodesT (Node i k cs)) <-> x = (i, k) \/ In x (nodesF cs).
Proof. cbn [nodesT]. fold (nodesF cs). cbn [In]. split; intros [H|H]; auto. Qed.

Lemma In_nodes_self t : In (nid t, kind t) (nodesT t).
Proof. destruct t as [i k cs]. left. reflexivity. Qed.

Lemma In_nodes_plug x C t :
  In x (nodesT (plug C t)) <-> In x (ctx_nodes C) \/ In x (nodesT t).
Proof.
  induction C as [|f C IH]; cbn [plug ctx_nodes]; [cbn [In]; tauto|].
  rewrite In_nodesT_Node, In_nodesF_app, In_nodesF_cons, IH.
  cbn [In]. rewrite !in_app_iff. split; intros H; intuition auto.
Qed.

Lemma In_nodes_shape x Fl Fr C p pk cs d :
  In x (nodesF (shape Fl Fr C p pk cs d)) <->
  In x (nodesF Fl) \/ In x (ctx_nodes C) \/ x = (p, pk) \/ In x (nodesF cs)
  \/ In x (nodesF Fr) \/ In x (nodesF d).
Proof.
  unfold shape. rewrite In_nodesF_app, In_nodesF_cons, In_nodes_plug, In_nodesT_Node,
    In_nodesF_app. tauto.
Qed.

Lemma In_nodes_child x t l : In t l -> In x (nodesT t) -> In x (nodesF l).
Proof.
  intros Hin Hx. apply in_split in Hin. destruct Hin as [a [b ->]].
  rewrite In_nodesF_app, In_nodesF_cons. tauto.
Qed.

(** A node of a tree is the focus of some path into the tree. *)
Lemma nodes_plug h k : forall t,
  In (h, k) (nodesT t) -> exists C t', t = plug C t' /\ nid t' = h /\ kind t' = k.
Proof.
  induction t as [i kt cs IH] using Tree_ind'. intros H.
  apply In_nodesT_Node in H. destruct H as [H | H].
  - inversion H; subst. exists [], (Node i kt cs). repeat split.
  - unfold nodesF in H. apply in_flat_map in H. destruct H as [c [Hc Hx]].
    rewrite Forall_forall in IH. destruct (IH c Hc Hx) as [C [t' [-> [Hn Hk]]]].
    apply in_split in Hc. destruct Hc as [a [b ->]].
    exists (mkFrame i kt a b :: C), t'. repeat split; assumption.
Qed.

(** In a forest with unique handles, a node is found by its handle. *)
Lemma nodes_locate F h k :
  NoDup (idsF F) -> In (h, k) (nodesF F) ->
  exists l, locate h F = Some l /\ kind (loc_self l) = k.
Proof.
  intros Hnd H. unfold nodesF in H. apply in_flat_map in H.
  destruct H as [t [Ht Hx]]. apply in_split in Ht. destruct Ht as [Fl [Fr ->]].
  destruct (nodes_plug _ _ _ Hx) as [C [t' [-> [Hn Hk]]]].
  destruct (locate_focus Fl C t' Fr Hnd) as [l [Hl [Hs _]]].
  exists l. rewrite <- Hn. split; [exact Hl|]. rewrite Hs. exact Hk.
Qed.

(** A node that is found is a node of the forest. *)
Lemma locate_nodes F h l :
  locate h F = Some l -> In (h, kind (loc_self l)) (nodesF F).
Proof.
  intros H. destruct (locate_shape _ _ _ H) as [Hn [[_ [_ [_ [a [b Hs]]]]] | K]].
  - destruct (split_at_some _ _ _ _ _ Hs) as [-> _].
    rewrite In_nodesF_app, In_nodesF_cons. right. left.
    rewrite <- Hn. apply In_nodes_self.
  - destruct K as [p [pk [Fl [C [Fr [_ ->]]]]]].
    rewrite In_nodesF_app, In_nodesF_cons, In_nodes_plug, In_nodesT_Node,
      In_nodesF_app, In_nodesF_cons.
    right. left. right. right. right. left. rewrite <- Hn. apply In_nodes_self.
Qed.

(** Cutting a subtree out of a tree loses no node but those of the
    subtree. *)
Lemma nodes_cutT_At loc t :
  NoDup (ids t) -> At loc t ->
  forall x, In x (nodesT t) ->
            In x (nodesT (cutT (nid (loc_self loc)) t)) \/ In x (nodesT (loc_self loc)).
Proof.
  intros Hnd Hat. induction Hat as [i k a b Hp Ha Hb | i k cs c Hin Hat IH]; intros x Hx.
  - nodup_at Hnd (nid (loc_self loc)). pose proof (occ_nid (loc_self loc)).
    rewrite cutT_child; [| | lia | lia].
    + rewrite In_nodesT_Node, In_nodesF_app in *. rewrite In_nodesF_cons in Hx. tauto.
    + intros e. rewrite e, Nat.eqb_refl in *. lia.
  - apply in_split in Hin. destruct Hin as [a [b ->]].
    pose proof (At_occ _ _ Hat) as Hocc. set (h := nid (loc_self loc)) in *.
    nodup_at Hnd h. destruct c as [j kc ccs]. cbn [childNodes] in Hocc. occ_norm.
    change (Node i k (a ++ Node j kc ccs :: b))
      with (plug [mkFrame i k a b] (Node j kc ccs)) in *.
    rewrite cutT_plug.
    + assert (Hc : NoDup (ids (Node j kc ccs))).
      { apply NoDup_occ. intros z. nodup_at Hnd z. cbn [plug f_id f_kind f_left f_right] in *.
        occ_norm. lia. }
      rewrite In_nodes_plug in *. destruct Hx as [Hx | Hx]; [tauto|].
      destruct (IH Hc x Hx); tauto.
    + cbn [plug f_id f_kind f_left f_right ctx_ids] in *. occ_norm. lia.
    + cbn [nid]. intros e. cbn [plug f_id f_kind f_left f_right] in *. occ_norm.
      rewrite e, Nat.eqb_refl in *. lia.
Qed.

Lemma dropLastElement_In t l :
  In t l <-> In t (fst (dropLastElement l)) \/ In t (snd (dropLastElement l)).
Proof.
  destruct (lastElement_cases l) as [H | [l1 [P [l2 [-> [HP Hl2]]]]]].
  - rewrite dropLastElement_none by exact H. cbn. tauto.
  - rewrite dropLastElement_last by assumption. cbn [fst snd].
    rewrite !in_app_iff. cbn [In]. tauto.
Qed.

Lemma siblingCleanup_In empty t l :
  In t l <-> In t (fst (siblingCleanup empty l)) \/ In t (snd (siblingCleanup empty l)).
Proof.
  unfold siblingCleanup. destruct empty; [|apply dropLastElement_In].
  rewrite (dropLastElement_In t l).
  destruct (dropLastElement l) as [L1 d1]. cbn [fst snd].
  rewrite (dropLastElement_In t L1).
  destruct (dropLastElement L1) as [L2 d2]. cbn [fst snd].
  rewrite in_app_iff. tauto.
Qed.

Lemma siblingCleanup_nodes empty x l :
  In x (nodesF l) ->
  In x (nodesF (fst (siblingCleanup empty l))) \/ In x (nodesF (snd (siblingCleanup empty l))).
Proof.
  intros H. unfold nodesF in H. apply in_flat_map in H. destruct H as [t [Ht Hx]].
  apply (siblingCleanup_In empty) in Ht. destruct Ht as [Ht | Ht].
  - left. exact (In_nodes_child _ _ _ Ht Hx).
  - right. exact (In_nodes_child _ _ _ Ht Hx).
Qed.

(** ** The hierarchy of a tree under the mutations of the script *)

Lemma isElementT_cutT h t : isElementT (cutT h t) = isElementT t.
Proof. destruct t; reflexivity. Qed.

Lemma elements_cut h cs :
  List.length (filter isElementT (filter (keeps h) (map (cutT h) cs)))
  <= List.length (filter isElementT cs).
Proof.
  induction cs as [|c cs IH]; cbn [map filter]; [lia|].
  destruct (keeps h (cutT h c)); cbn [filter]; rewrite ?isElementT_cutT;
    destruct (isElementT c); cbn [List.length]; lia.
Qed.

Lemma hierarchyT_cutT h : forall t, hierarchyT t = true -> hierarchyT (cutT h t) = true.
Proof.
  induction t as [i k cs IH] using Tree_ind'. intros H.
  cbn [cutT hierarchyT] in *.
  apply andb_true_iff in H. destruct H as [H H3].
  apply andb_true_iff in H. destruct H as [H1 H2].
  apply andb_true_iff. split; [apply andb_true_iff; split|].
  - destruct (isParentNode k); [reflexivity|]. destruct cs; [reflexivity | discriminate].
  - destruct (isDocument k); [|reflexivity]. cbn [negb orb] in *.
    apply Nat.leb_le in H2. apply Nat.leb_le. pose proof (elements_cut h cs). lia.
  - clear H1 H2. induction cs as [|c cs IHcs]; cbn [map filter]; [reflexivity|].
    inversion IH as [|? ? Hc Hrest]; subst. cbn [forallb] in H3.
    apply andb_true_iff in H3. destruct H3 as [Hc3 Hcs3].
    destruct (keeps h (cutT h c)); cbn [forallb].
    + rewrite (Hc Hc3). exact (IHcs Hrest Hcs3).
    + exact (IHcs Hrest Hcs3).
Qed.

Lemma isElementT_plug C t t' :
  isElementT t' = isElementT t -> isElementT (plug C t') = isElementT (plug C t).
Proof. destruct C as [|f C]; [tauto | reflexivity]. Qed.

(** The hierarchy above a node does not depend on what is below it. *)
Lemma hierarchyT_plug_replace C t t' :
  isElementT t' = isElementT t -> hierarchyT t' = true ->
  hierarchyT (plug C t) = true -> hierarchyT (plug C t') = true.
Proof.
  intros He Ht'. induction C as [|f C IH]; cbn [plug]; [tauto|]. intros H.
  cbn [hierarchyT] in *.
  apply andb_true_iff in H. destruct H as [H H3].
  apply andb_true_iff in H. destruct H as [H1 H2].
  apply andb_true_iff. split; [apply andb_true_iff; split|].
  - destruct (isParentNode (f_kind f)); [reflexivity|].
    destruct (f_left f); discriminate.
  - rewrite filter_app in *. cbn [filter] in *.
    rewrite (isElementT_plug C t t' He).
    destruct (isElementT (plug C t)); rewrite length_app in *; cbn [List.length] in *;
      exact H2.
  - rewrite forallb_app in *. cbn [forallb] in *.
    apply andb_true_iff in H3. destruct H3 as [Hl H3].
    apply andb_true_iff in H3. destruct H3 as [Hp Hr].
    rewrite Hl, Hr, (IH Hp). reflexivity.
Qed.

Lemma At_hierarchy loc t : At loc t -> hierarchyT t = true -> hierarchyT (loc_self loc) = true.
Proof.
  induction 1 as [i k a b _ _ _ | i k cs c Hin _ IH]; intros H.
  - cbn [hierarchyT] in H. apply andb_true_iff in H. destruct H as [_ H].
    rewrite forallb_app in H. apply andb_true_iff in H. destruct H as [_ H].
    cbn [forallb] in H. apply andb_true_iff in H. tauto.
  - apply IH. cbn [hierarchyT] in H. apply andb_true_iff in H. destruct H as [_ H].
    rewrite forallb_forall in H. apply H. exact Hin.
Qed.

Lemma hierarchyT_under i k cs :
  isParentNode k = true -> isDocument k = false ->
  hierarchyT (Node i k cs) = forallb hierarchyT cs.
Proof. intros Hp Hd. cbn [hierarchyT]. rewrite Hp, Hd. reflexivity. Qed.

(** ** [removeSignature] keeps a forest well formed and loses no node *)

Lemma NoDup_shape_remove_below Fl Fr C p pk loc l x r d :
  NoDup (idsF (shape Fl Fr C p pk (l ++ x :: r) d)) -> At loc x ->
  NoDup (idsF (shape Fl Fr C p pk (l ++ cutT (nid (loc_self loc)) x :: r)
                 (d ++ [loc_self loc]))).
Proof.
  intros Hnd Hat.
  assert (Hx : NoDup (ids x)).
  { apply NoDup_occ. intros y. unfold shape in Hnd. nodup_at Hnd y. occ_all. lia. }
  apply NoDup_occ. intros y. pose proof (cutT_At loc x Hx Hat y) as E.
  unfold shape in *. nodup_at Hnd y. occ_all. lia.
Qed.

Lemma wellFormed_fresh F tag :
  wellFormed F -> wellFormed (F ++ [Node (fresh F) (ElementNode tag [] []) []]).
Proof.
  intros [Hnd Hh]. split.
  - pose proof (fresh_occ F) as Hf. set (b := fresh F) in *. clearbody b.
    apply NoDup_occ. intros y. nodup_at Hnd y.
    destruct (Nat.eqb_spec b y); [subst; lia | lia].
  - rewrite forallb_app, Hh. reflexivity.
Qed.

Section AttachedInvariant.
Variables (Fl Fr : Forest) (C : list Frame) (p : handle) (pk : NodeKind).
Variables (L : list Tree) (n : handle) (nk : NodeKind) (kids r : list Tree).
Hypothesis Hnk : isElement nk = true.
Hypothesis Hdoc : isDocument pk = false.
Hypothesis Hwf : wellFormed (shape Fl Fr C p pk (L ++ Node n nk kids :: r) []).

Lemma removeSignature_attached_invariant :
  wellFormed (snd (RemoveSignature.removeSignature n
                     (shape Fl Fr C p pk (L ++ Node n nk kids :: r) [])))
  /\ forall x,
       In x (nodesF (shape Fl Fr C p pk (L ++ Node n nk kids :: r) [])) ->
       In x (nodesF (snd (RemoveSignature.removeSignature n
                            (shape Fl Fr C p pk (L ++ Node n nk kids :: r) [])))).
Proof.
  assert (Hwf' := Hwf). rewrite shape_nil in Hwf'.
  pose proof (wellFormed_focus _ _ _ _ Hwf') as Hh.
  pose proof (hierarchyT_parent _ _ _ _ _ Hh) as Hpk.
  destruct Hwf as [Hnd Hf].
  rewrite (removeSignature_attached Fl Fr C p pk L n nk kids r Hnk Hpk Hdoc Hnd).
  cbv zeta.
  pose proof (NoDup_after_cleanup Fl Fr C p pk L (Node n nk kids) r
                (truthy (isEmptySignatureOf kids)) Hnd) as Hnd3.
  unfold lineBreak in Hnd3.
  set (br := fresh (shape Fl Fr C p pk (L ++ Node n nk kids :: r) [])) in *.
  set (BR := Node br (ElementNode "br" [] []) []) in *.
  set (LD := siblingCleanup (truthy (isEmptySignatureOf kids)) L) in *.
  assert (HL : forallb hierarchyT L = true /\ hierarchyT (Node n nk kids) = true
               /\ forallb hierarchyT r = true).
  { rewrite (hierarchyT_under p pk _ Hpk Hdoc) in Hh. rewrite forallb_app in Hh.
    cbn [forallb] in Hh. apply andb_true_iff in Hh. destruct Hh as [H1 H2].
    apply andb_true_iff in H2. tauto. }
  destruct HL as [HhL [HhN Hhr]].
  assert (HfstLD : forallb hierarchyT (fst LD) = true).
  { apply forallb_forall. intros t Ht. rewrite forallb_forall in HhL. apply HhL.
    apply (siblingCleanup_In (truthy (isEmptySignatureOf kids))). left. exact Ht. }
  assert (HsndLD : forallb hierarchyT (snd LD) = true).
  { apply forallb_forall. intros t Ht. rewrite forallb_forall in HhL. apply HhL.
    apply (siblingCleanup_In (truthy (isEmptySignatureOf kids))). right. exact Ht. }
  assert (Hrest : forallb hierarchyT Fl = true
                  /\ hierarchyT (plug C (Node p pk (L ++ Node n nk kids :: r))) = true
                  /\ forallb hierarchyT Fr = true).
  { unfold shape in Hf. rewrite forallb_app in Hf. cbn [forallb] in Hf.
    rewrite forallb_app in Hf. cbn [forallb] in Hf.
    apply andb_true_iff in Hf. destruct Hf as [H1 H2].
    apply andb_true_iff in H2. destruct H2 as [H2 H3].
    apply andb_true_iff in H3. tauto. }
  destruct Hrest as [HhFl [HhP HhFr]].
  assert (Hplug : forall N', hierarchyT N' = true ->
            hierarchyT (plug C (Node p pk (fst LD ++ BR :: N' :: r))) = true).
  { intros N' HN'. refine (hierarchyT_plug_replace C (Node p pk (L ++ Node n nk kids :: r))
              (Node p pk (fst LD ++ BR :: N' :: r)) eq_refl _ HhP).
    rewrite (hierarchyT_under p pk _ Hpk Hdoc). rewrite forallb_app. cbn [forallb].
    rewrite HfstLD, HN', Hhr. reflexivity. }
  assert (Hnodes : forall x N' sigs,
            (In x (nodesT (Node n nk kids)) -> In x (nodesT N') \/ In x (nodesF sigs)) ->
            In x (nodesF (shape Fl Fr C p pk (L ++ Node n nk kids :: r) [])) ->
            In x (nodesF (shape Fl Fr C p pk (fst LD ++ BR :: N' :: r) (snd LD ++ sigs)))).
  { intros x N' sigs HN Hx. rewrite In_nodes_shape in *.
    rewrite In_nodesF_app in *. rewrite !In_nodesF_cons in *. rewrite In_nodesF_app.
    destruct Hx as [Hx | [Hx | [Hx | [[Hx | [Hx | Hx]] | [Hx | Hx]]]]];
      try tauto;
      try (rewrite In_nodesF_nil in Hx; tauto);
      try (destruct (HN Hx); tauto).
    destruct (siblingCleanup_nodes (truthy (isEmptySignatureOf kids)) x L Hx) as [K | K];
      fold LD in K; tauto. }
  destruct (firstMatchF protonSignatureSelector kids) as [sig|] eqn:HS; cbn [snd].
  - destruct (firstMatchF_At _ _ _ n nk HS) as [loc [Hloc Hat]]. subst sig.
    replace (fst LD ++ BR :: Node n nk kids :: r)
      with ((fst LD ++ [BR]) ++ Node n nk kids :: r) in Hnd3
      by (rewrite <- app_assoc; reflexivity).
    pose proof (NoDup_shape_remove_below Fl Fr C p pk loc _ _ _ _ Hnd3 Hat) as Hnd4.
    rewrite <- app_assoc in Hnd4. cbn [app] in Hnd4.
    split; [split; [exact Hnd4|] |].
    + unfold shape. rewrite forallb_app. cbn [forallb]. rewrite !forallb_app.
      cbn [forallb]. rewrite HhFl, HhFr, HsndLD.
      rewrite (Hplug _ (hierarchyT_cutT _ _ HhN)).
      rewrite (At_hierarchy _ _ Hat HhN). reflexivity.
    + intros x Hx. apply Hnodes; [|exact Hx]. intros HxN.
      assert (HndN : NoDup (ids (Node n nk kids))).
      { apply NoDup_occ. intros y. unfold shape in Hnd. nodup_at Hnd y. occ_all. lia. }
      destruct (nodes_cutT_At loc _ HndN Hat x HxN) as [K | K]; [left; exact K|].
      right. rewrite In_nodesF_cons. left. exact K.
  - split; [split; [exact Hnd3|] |].
    + unfold shape. rewrite forallb_app. cbn [forallb]. rewrite !forallb_app.
      rewrite HhFl, HhFr, HsndLD. rewrite (Hplug _ HhN). reflexivity.
    + intros x Hx. rewrite <- (app_nil_r (snd LD)). apply Hnodes; [|exact Hx]. tauto.
Qed.

End AttachedInvariant.

(** [removeSignature] on any element of a well-formed forest: the forest
    stays well formed, and every node it had it still has. *)
Lemma removeSignature_invariant n F l :
  wellFormed F -> locate n F = Some l -> isElement (kind (loc_self l)) = true ->
  wellFormed (snd (RemoveSignature.removeSignature n F))
  /\ forall x, In x (nodesF F) -> In x (nodesF (snd (RemoveSignature.removeSignature n F))).
Proof.
  intros Hwf Hloc Hk.
  destruct (locate_shape _ _ _ Hloc) as [Hn [[Hp [_ [_ [a [b Hs]]]]] | K]].
  - destruct (split_at_some _ _ _ _ _ Hs) as [-> _].
    destruct (loc_self l) as [i k kids] eqn:Hself. cbn [nid kind] in *. subst i.
    rewrite (removeSignature_root a n k kids b (proj1 Hwf) Hk). cbn [snd].
    split; [apply wellFormed_fresh; exact Hwf|].
    intros x Hx. rewrite In_nodesF_app. left. exact Hx.
  - destruct K as [p [pk [Fl [C [Fr [Hp ->]]]]]].
    destruct (loc_self l) as [i k kids] eqn:Hself. cbn [nid kind] in *. subst i.
    rewrite <- (shape_nil Fl Fr C p pk) in *.
    destruct (isDocument pk) eqn:Hdoc.
    + rewrite (removeSignature_under_document Fl Fr C p pk _ n k kids _ Hk Hdoc (proj1 Hwf)).
      cbn [snd]. split; [apply wellFormed_fresh; exact Hwf|].
      intros x Hx. rewrite In_nodesF_app. left. exact Hx.
    + apply removeSignature_attached_invariant; assumption.
Qed.

(** ** Running the callers of [removeSignature] over many nodes *)

Lemma ids_nodes : forall t, ids t = map fst (nodesT t).
Proof.
  induction t as [i k cs IH] using Tree_ind'. cbn [ids nodesT map fst]. f_equal.
  induction cs as [|c cs IHcs]; cbn [flat_map]; [reflexivity|].
  inversion IH as [|? ? Hc Hrest]; subst.
  rewrite map_app, Hc, (IHcs Hrest). reflexivity.
Qed.

Lemma idsF_nodes F : idsF F = map fst (nodesF F).
Proof.
  unfold idsF, nodesF. induction F as [|t F IH]; cbn [flat_map]; [reflexivity|].
  rewrite map_app, ids_nodes, IH. reflexivity.
Qed.

Lemma In_ids_nodes h F : In h (idsF F) <-> exists k, In (h, k) (nodesF F).
Proof.
  rewrite idsF_nodes, in_map_iff. split.
  - intros [[h' k] [E H]]. cbn in E. subst. exists k. exact H.
  - intros [k H]. exists (h, k). split; [reflexivity | exact H].
Qed.

(** The subtree of a node that is found is part of the forest. *)
Lemma locate_subtree_nodes h F l :
  locate h F = Some l -> forall x, In x (nodesT (loc_self l)) -> In x (nodesF F).
Proof.
  intros H x Hx. destruct (locate_shape _ _ _ H) as [_ [[_ [_ [_ [a [b Hs]]]]] | K]].
  - destruct (split_at_some _ _ _ _ _ Hs) as [-> _].
    rewrite In_nodesF_app, In_nodesF_cons. tauto.
  - destruct K as [p [pk [Fl [C [Fr [_ ->]]]]]].
    rewrite In_nodesF_app, In_nodesF_cons, In_nodes_plug, In_nodesT_Node,
      In_nodesF_app, In_nodesF_cons. tauto.
Qed.

(** What a selector finds below a node are elements of the forest. *)
Lemma allMatchesT_nodes sel : forall t0 t,
  In t (allMatchesT sel t0) ->
  In (nid t, kind t) (nodesT t0) /\ selects sel (kind t) = true.
Proof.
  induction t0 as [i k cs IH] using Tree_ind'. intros t H.
  cbn [allMatchesT] in H. apply in_app_or in H. destruct H as [H | H].
  - destruct (selects sel k) eqn:Hs; [|contradiction].
    destruct H as [<- | []]. split; [left; reflexivity | exact Hs].
  - apply in_flat_map in H. destruct H as [c [Hc Ht]].
    rewrite Forall_forall in IH. destruct (IH c Hc t Ht) as [Hn Hs].
    split; [|exact Hs]. apply In_nodesT_Node. right.
    exact (In_nodes_child _ _ _ Hc Hn).
Qed.

Lemma allMatchesF_nodes sel cs t :
  In t (allMatchesF sel cs) ->
  In (nid t, kind t) (nodesF cs) /\ selects sel (kind t) = true.
Proof.
  unfold allMatchesF. intros H. apply in_flat_map in H. destruct H as [c [Hc Ht]].
  destruct (allMatchesT_nodes sel c t Ht) as [Hn Hs].
  split; [exact (In_nodes_child _ _ _ Hc Hn) | exact Hs].
Qed.

(** What a selector finds in a tree is the focus of a path into the tree. *)
Lemma allMatchesT_plug sel : forall t0 t,
  In t (allMatchesT sel t0) -> exists C, t0 = plug C t.
Proof.
  induction t0 as [i k cs IH] using Tree_ind'. intros t H.
  cbn [allMatchesT] in H. apply in_app_or in H. destruct H as [H | H].
  - destruct (selects sel k); [|contradiction].
    destruct H as [<- | []]. exists []. reflexivity.
  - apply in_flat_map in H. destruct H as [c [Hc Ht]].
    rewrite Forall_forall in IH. destruct (IH c Hc t Ht) as [C ->].
    apply in_split in Hc. destruct Hc as [a [b ->]].
    exists (mkFrame i k a b :: C). reflexivity.
Qed.

(** It is found by its handle, as it is. *)
Lemma allMatchesF_locate sel h F l t :
  NoDup (idsF F) -> locate h F = Some l ->
  In t (allMatchesF sel (childNodes (loc_self l))) ->
  exists l', locate (nid t) F = Some l' /\ loc_self l' = t.
Proof.
  intros Hnd Hl Ht. unfold allMatchesF in Ht. apply in_flat_map in Ht.
  destruct Ht as [c [Hc Ht]]. destruct (allMatchesT_plug sel c t Ht) as [C ->].
  apply in_split in Hc. destruct Hc as [a [b Hcs]].
  destruct (loc_self l) as [d dk cs] eqn:Hself. cbn [childNodes] in Hcs. subst cs.
  assert (K : exists Fl C0 Fr, F = Fl ++ plug C0 (Node d dk (a ++ plug C t :: b)) :: Fr).
  { destruct (locate_shape _ _ _ Hl) as [_ [[_ [_ [_ [a0 [b0 Hs]]]]] | K]].
    - destruct (split_at_some _ _ _ _ _ Hs) as [-> _]. rewrite Hself.
      exists a0, [], b0. reflexivity.
    - destruct K as [p [pk [Fl [C0 [Fr [_ ->]]]]]]. rewrite Hself.
      exists Fl, (C0 ++ [mkFrame p pk (loc_left l) (loc_right l)]), Fr.
      rewrite plug_app. reflexivity. }
  destruct K as [Fl [C0 [Fr ->]]].
  change (Node d dk (a ++ plug C t :: b)) with (plug [mkFrame d dk a b] (plug C t)) in *.
  rewrite <- !plug_app in *.
  destruct (locate_focus Fl _ t Fr Hnd) as [l' [Hl' [Hs' _]]].
  exists l'. split; assumption.
Qed.

(** A loop over nodes whose body keeps the forest well formed and loses no
    node does so as a whole, as long as what the body needs of each node
    depends on the nodes of the forest only. *)
Lemma forEach_preserves {A} (ok : A -> Forest -> Prop) (f : A -> M unit) :
  (forall a F F', ok a F -> (forall x, In x (nodesF F) -> In x (nodesF F')) -> ok a F') ->
  (forall a F, wellFormed F -> ok a F ->
     exists F', f a F = (Val tt, F') /\ wellFormed F'
                /\ forall x, In x (nodesF F) -> In x (nodesF F')) ->
  forall l F, wellFormed F -> (forall a, In a l -> ok a F) ->
    exists F', forEach l f F = (Val tt, F') /\ wellFormed F'
               /\ forall x, In x (nodesF F) -> In x (nodesF F').
Proof.
  intros Hmono Hstep. induction l as [|a l IH]; intros F Hwf Hok.
  - exists F. split; [reflexivity|]. split; [exact Hwf | tauto].
  - destruct (Hstep a F Hwf (Hok a (or_introl eq_refl))) as [F1 [E1 [Hwf1 Hin1]]].
    destruct (IH F1 Hwf1) as [F2 [E2 [Hwf2 Hin2]]].
    { intros a' Ha'. apply (Hmono a' F F1); [|exact Hin1]. apply Hok. right. exact Ha'. }
    exists F2. cbn [forEach]. rewrite (bind_val _ _ _ _ _ E1).
    split; [exact E2|]. split; [exact Hwf2|]. intros x Hx. apply Hin2, Hin1, Hx.
Qed.

Lemma hasClass_element c k : hasClass c k = true -> isElement k = true.
Proof. destruct k; try discriminate. reflexivity. Qed.

Lemma onSignatureAdded_preserves node F :
  wellFormed F -> In node (idsF F) ->
  RemoveSignature.onSignatureAdded node F = (Val tt, handled node F)
  /\ wellFormed (handled node F)
  /\ forall x, In x (nodesF F) -> In x (nodesF (handled node F)).
Proof.
  intros Hwf Hin. apply In_ids_nodes in Hin. destruct Hin as [k Hin].
  destruct (nodes_locate F node k (proj1 Hwf) Hin) as [l [Hl Hk]].
  rewrite (onSignatureAdded_cases node F l Hl). unfold handled. rewrite Hl.
  destruct (isStrippable (loc_self l)) eqn:Hs.
  - unfold isStrippable in Hs. apply andb_true_iff in Hs. destruct Hs as [Hc _].
    destruct (removeSignature_invariant node F l Hwf Hl (hasClass_element _ _ Hc))
      as [Hwf' Hin'].
    split; [reflexivity|]. split; assumption.
  - split; [reflexivity|]. split; [exact Hwf | tauto].
Qed.

(** The loop over the added nodes of one record, then over the records. *)
Lemma forEach_handled nodes :
  forall F, wellFormed F -> (forall n, In n nodes -> In n (idsF F)) ->
  forEach nodes RemoveSignature.onSignatureAdded F
  = (Val tt, fold_left (fun F n => handled n F) nodes F)
  /\ wellFormed (fold_left (fun F n => handled n F) nodes F)
  /\ forall x, In x (nodesF F) ->
               In x (nodesF (fold_left (fun F n => handled n F) nodes F)).
Proof.
  induction nodes as [|n nodes IH]; intros F Hwf Hin.
  - split; [reflexivity|]. split; [exact Hwf | tauto].
  - destruct (onSignatureAdded_preserves n F Hwf (Hin n (or_introl eq_refl)))
      as [E1 [Hwf1 Hin1]].
    destruct (IH (handled n F) Hwf1) as [E2 [Hwf2 Hin2]].
    { intros n' Hn'. apply In_ids_nodes.
      destruct (proj1 (In_ids_nodes n' F) (Hin n' (or_intror Hn'))) as [k Hk].
      exists k. apply Hin1. exact Hk. }
    cbn [forEach fold_left]. rewrite (bind_val _ _ _ _ _ E1).
    split; [exact E2|]. split; [exact Hwf2|]. intros x Hx. apply Hin2, Hin1, Hx.
Qed.

Lemma removeExisting_preserves node F :
  wellFormed F -> (exists k, In (node, k) (nodesF F) /\ isElement k = true) ->
  exists F', RemoveSignature.removeExisting node F = (Val tt, F') /\ wellFormed F'
             /\ forall x, In x (nodesF F) -> In x (nodesF F').
Proof.
  intros Hwf [k [Hin Hk]].
  destruct (nodes_locate F node k (proj1 Hwf) Hin) as [l [Hl Hkl]].
  assert (Hel : isElement (kind (loc_self l)) = true) by (rewrite Hkl; exact Hk).
  assert (Hp : isParentNode (kind (loc_self l)) = true)
    by (destruct (kind (loc_self l)); try discriminate; reflexivity).
  rewrite (removeExisting_cases node F l Hl Hp).
  destruct (holdsVendorSignature (loc_self l)).
  - destruct (removeSignature_invariant node F l Hwf Hl Hel) as [Hwf' Hin'].
    eexists. split; [reflexivity|]. split; assumption.
  - exists F. split; [reflexivity|]. split; [exact Hwf | tauto].
Qed.

(** The first pass of [setupObserver] over the blocks that are there. *)
Lemma firstPass_preserves doc F l :
  wellFormed F -> locate doc F = Some l -> isParentNode (kind (loc_self l)) = true ->
  exists F',
    bind (querySelectorAll doc RemoveSignature.CONFIG.selectors.signatureBlock)
         (fun existingSignatures => forEach existingSignatures RemoveSignature.removeExisting) F
    = (Val tt, F')
    /\ wellFormed F' /\ (forall x, In x (nodesF F) -> In x (nodesF F'))
    /\ F' = snd (forEach (map nid (allMatchesF signatureBlockSelector (childNodes (loc_self l))))
                   RemoveSignature.removeExisting F).
Proof.
  intros Hwf Hl Hp.
  assert (Hq : querySelectorAll doc RemoveSignature.CONFIG.selectors.signatureBlock F
               = (Val (map nid (allMatchesF signatureBlockSelector (childNodes (loc_self l)))),
                  F)).
  { unfold querySelectorAll, withNode. rewrite Hl, Hp. reflexivity. }
  rewrite (bind_val _ _ _ _ _ Hq).
  destruct (forEach_preserves
              (fun (n : handle) F => exists k, In (n, k) (nodesF F) /\ isElement k = true)
              RemoveSignature.removeExisting) with
      (l := map nid (allMatchesF signatureBlockSelector (childNodes (loc_self l)))) (F := F)
    as [F' [E [Hwf' Hin']]].
  - intros n F1 F2 [k [Hk He]] Hincl. exists k. split; [apply Hincl; exact Hk | exact He].
  - intros n F1 Hwf1 Hok. apply removeExisting_preserves; assumption.
  - exact Hwf.
  - intros n Hn. apply in_map_iff in Hn. destruct Hn as [t [<- Ht]].
    destruct (allMatchesF_nodes _ _ _ Ht) as [Hn Hs].
    exists (kind t). split; [|exact (selects_element _ _ Hs)].
    apply (locate_subtree_nodes doc F l Hl).
    destruct (loc_self l) as [d dk cs]. apply In_nodesT_Node. right. exact Hn.
  - exists F'. rewrite E. split; [reflexivity|]. split; [exact Hwf'|].
    split; [exact Hin' | reflexivity].
Qed.

(** ** [removeSignature] creates one node only *)

Lemma nodes_cutT_sub h x : forall t, In x (nodesT (cutT h t)) -> In x (nodesT t).
Proof.
  induction t as [i k cs IH] using Tree_ind'. intros H.
  cbn [cutT] in H. apply In_nodesT_Node in H. apply In_nodesT_Node.
  destruct H as [H | H]; [left; exact H|]. right.
  unfold nodesF in *. apply in_flat_map in H. destruct H as [c' [Hc' Hx]].
  apply filter_In in Hc'. destruct Hc' as [Hc' _].
  apply in_map_iff in Hc'. destruct Hc' as [c [<- Hc]].
  rewrite Forall_forall in IH. apply in_flat_map. exists c. split; [exact Hc|].
  apply IH; assumption.
Qed.

Lemma At_nodes loc t x : At loc t -> In x (nodesT (loc_self loc)) -> In x (nodesT t).
Proof.
  induction 1 as [i k a b _ _ _ | i k cs c Hin _ IH]; intros H.
  - apply In_nodesT_Node. right. rewrite In_nodesF_app, In_nodesF_cons. tauto.
  - apply In_nodesT_Node. right. exact (In_nodes_child _ _ _ Hin (IH H)).
Qed.

Lemma siblingCleanup_nodes_sub empty x l :
  In x (nodesF (fst (siblingCleanup empty l))) \/ In x (nodesF (snd (siblingCleanup empty l))) ->
  In x (nodesF l).
Proof.
  intros [H | H]; unfold nodesF in H; apply in_flat_map in H;
    destruct H as [t [Ht Hx]]; apply (In_nodes_child _ t); try exact Hx;
    apply (siblingCleanup_In empty); tauto.
Qed.

Lemma removeSignature_adds_line_break n F l :
  wellFormed F -> locate n F = Some l -> isElement (kind (loc_self l)) = true ->
  forall x, In x (nodesF (snd (RemoveSignature.removeSignature n F))) ->
            In x (nodesF F) \/ x = (fresh F, ElementNode "br" [] []).
Proof.
  intros Hwf Hloc Hk.
  assert (Hfresh : forall x, In x (nodesF (F ++ [lineBreak (fresh F)])) ->
                             In x (nodesF F) \/ x = (fresh F, ElementNode "br" [] [])).
  { intros x Hx. rewrite In_nodesF_app, In_nodesF_cons in Hx.
    unfold lineBreak in Hx. rewrite In_nodesT_Node in Hx.
    rewrite !In_nodesF_nil in Hx. tauto. }
  destruct (locate_shape _ _ _ Hloc) as [Hn [[Hp [_ [_ [a [b Hs]]]]] | K]].
  - destruct (split_at_some _ _ _ _ _ Hs) as [-> _].
    destruct (loc_self l) as [i k kids] eqn:Hself. cbn [nid kind] in *. subst i.
    rewrite (removeSignature_root a n k kids b (proj1 Hwf) Hk). cbn [snd]. exact Hfresh.
  - destruct K as [p [pk [Fl [C [Fr [Hp ->]]]]]].
    destruct (loc_self l) as [i k kids] eqn:Hself. cbn [nid kind] in *. subst i.
    rewrite <- (shape_nil Fl Fr C p pk) in *.
    destruct (isDocument pk) eqn:Hdoc.
    + rewrite (removeSignature_under_document Fl Fr C p pk _ n k kids _ Hk Hdoc (proj1 Hwf)).
      cbn [snd]. exact Hfresh.
    + clear Hfresh.
      assert (Hwf' := Hwf). rewrite shape_nil in Hwf'.
      pose proof (wellFormed_focus _ _ _ _ Hwf') as Hh.
      pose proof (hierarchyT_parent _ _ _ _ _ Hh) as Hpk.
      rewrite (removeSignature_attached Fl Fr C p pk _ n k kids _ Hk Hpk Hdoc (proj1 Hwf)).
      cbv zeta.
      set (br := fresh (shape Fl Fr C p pk (loc_left l ++ Node n k kids :: loc_right l) [])).
      set (LD := siblingCleanup (truthy (isEmptySignatureOf kids)) (loc_left l)).
      assert (Hback : forall x N' sigs,
                (In x (nodesT N') \/ In x (nodesF sigs) -> In x (nodesT (Node n k kids))) ->
                In x (nodesF (shape Fl Fr C p pk
                                (fst LD ++ Node br (ElementNode "br" [] []) [] :: N'
                                 :: loc_right l) (snd LD ++ sigs))) ->
                In x (nodesF (shape Fl Fr C p pk
                                (loc_left l ++ Node n k kids :: loc_right l) []))
                \/ x = (br, ElementNode "br" [] [])).
      { intros x N' sigs HN Hx. rewrite In_nodes_shape in *.
        rewrite In_nodesF_app in *. rewrite !In_nodesF_cons in *.
        rewrite In_nodesF_app in Hx. rewrite In_nodesT_Node in Hx.
        rewrite In_nodesF_nil in Hx.
        pose proof (siblingCleanup_nodes_sub (truthy (isEmptySignatureOf kids)) x (loc_left l))
          as Hsub. fold LD in Hsub.
        destruct Hx as [Hx | [Hx | [Hx | [[Hx | [[Hx | []] | [Hx | Hx]]] | [Hx | [Hx | Hx]]]]]];
          tauto. }
      destruct (firstMatchF protonSignatureSelector kids) as [sig|] eqn:HS; cbn [snd].
      * destruct (firstMatchF_At _ _ _ n k HS) as [loc [Hloc' Hat]]. subst sig.
        intros x Hx. apply (Hback x _ _) in Hx; [exact Hx|].
        intros [H | H]; [exact (nodes_cutT_sub _ _ _ H)|].
        rewrite In_nodesF_cons, In_nodesF_nil in H. destruct H as [H | []].
        exact (At_nodes _ _ _ Hat H).
      * intros x Hx. rewrite <- (app_nil_r (snd LD)) in Hx.
        apply (Hback x _ _) in Hx; [exact Hx|].
        intros [H | H]; [exact H|]. rewrite In_nodesF_nil in H. contradiction.
Qed.

(** ** Invariants of the signature script *)

Section SignatureInvariants.
Import RemoveSignature.

(** X12.  [removeSignature] on an element of a well-formed forest (unique
    handles, DOM hierarchy) leaves a well-formed forest; every node there
    was is still there, as it was (same handle, kind, name, classes,
    attributes, text): nodes are moved out of their trees, never destroyed
    or changed; and the only node that is new is the line break. *)
Theorem removeSignature_keeps_well_formed (n : handle) (F : Forest) (l : Loc) :
  wellFormed F -> locate n F = Some l -> isElement (kind (loc_self l)) = true ->
  wellFormed (snd (removeSignature n F))
  /\ (forall x, In x (nodesF F) -> In x (nodesF (snd (removeSignature n F))))
  /\ (forall x, In x (nodesF (snd (removeSignature n F))) ->
                In x (nodesF F) \/ x = (fresh F, ElementNode "br" [] [])).
Proof.
  intros Hwf Hloc Hk.
  destruct (removeSignature_invariant n F l Hwf Hloc Hk) as [H1 H2].
  split; [exact H1|]. split; [exact H2|].
  exact (removeSignature_adds_line_break n F l Hwf Hloc Hk).
Qed.

(** The theorem at the composer body with the regular block. *)
Lemma removeSignature_keeps_well_formed_witness :
  wellFormed (snd (removeSignature 3 regularExample))
  /\ (forall x, In x (nodesF regularExample) ->
                In x (nodesF (snd (removeSignature 3 regularExample))))
  /\ (forall x, In x (nodesF (snd (removeSignature 3 regularExample))) ->
                In x (nodesF regularExample)
                \/ x = (fresh regularExample, ElementNode "br" [] [])).
Proof.
  refine (removeSignature_keeps_well_formed 3 regularExample
            (mkLoc (Some (0, ElementNode "body" [] []))
               [Node 1 (ElementNode "div" [] []) []; Node 2 (TextNode "") []]
               (Node 3 (ElementNode "div" ["protonmail_signature_block"] [])
                  [Node 4 (ElementNode "div" ["protonmail_signature_block-user"] []) [];
                   Node 5 (ElementNode "div" ["protonmail_signature_block-proton"] []) []])
               [Node 6 (ElementNode "blockquote" [] []) []])
            _ eq_refl eq_refl).
  split; [simpl; concrete_nodup | reflexivity].
Defined.

(** X13.  The callback of the signature observer on a whole batch of
    mutation records, whatever nodes of a well-formed forest the records
    name and however many of them are signature blocks: the callback goes
    through the records in order and through the added nodes of each record
    in order; for each node it does to the forest, as the nodes before it
    left it, what [removeSignature] does when the node is a signature block
    with a vendor signature, and nothing otherwise; it returns without a
    throw.  The forest it leaves is well formed and has lost no node. *)
Theorem signatureObserverCallback_handles_batch
  (mutations : list MutationRecord) (F : Forest) :
  wellFormed F ->
  (forall m n, In m mutations -> In n (addedNodes m) -> In n (idsF F)) ->
  signatureObserverCallback mutations F = (Val tt, handledAll mutations F)
  /\ wellFormed (handledAll mutations F)
  /\ forall x, In x (nodesF F) -> In x (nodesF (handledAll mutations F)).
Proof.
  unfold signatureObserverCallback, handledAll.
  revert F. induction mutations as [|m mutations IH]; intros F Hwf Hin.
  - split; [reflexivity|]. split; [exact Hwf | tauto].
  - destruct (forEach_handled (addedNodes m) F Hwf) as [E1 [Hwf1 Hin1]].
    { intros n Hn. exact (Hin m n (or_introl eq_refl) Hn). }
    destruct (IH (fold_left (fun F n => handled n F) (addedNodes m) F) Hwf1)
      as [E2 [Hwf2 Hin2]].
    { intros m' n Hm' Hn. apply In_ids_nodes.
      destruct (proj1 (In_ids_nodes n F) (Hin m' n (or_intror Hm') Hn)) as [k Hk].
      exists k. apply Hin1. exact Hk. }
    cbn [forEach flat_map]. rewrite fold_left_app.
    rewrite (bind_val _ _ _ _ _ E1).
    split; [exact E2|]. split; [exact Hwf2|]. intros x Hx. apply Hin2, Hin1, Hx.
Qed.

(** The theorem at a composer body with two signature blocks in a row: a
    first record names the first block and a text node, a second record
    the second block.  The first block loses its vendor signature and the
    paragraph before it; the text node is left alone; then the second block
    loses its vendor signature and the element before it, which is the
    first block. *)
Lemma signatureObserverCallback_handles_batch_witness :
  signatureObserverCallback [mkMutation [3; 2]; mkMutation [6]] twoBlocksExample
  = (Val tt, handledAll [mkMutation [3; 2]; mkMutation [6]] twoBlocksExample)
  /\ handledAll [mkMutation [3; 2]; mkMutation [6]] twoBlocksExample
     = [Node 0 (ElementNode "body" [] [])
          [Node 2 (TextNode "--") []; lineBreak 8; lineBreak 9;
           Node 6 (ElementNode "div" ["protonmail_signature_block"] []) []];
        Node 1 (ElementNode "div" [] []) [];
        Node 5 (ElementNode "div" ["protonmail_signature_block-proton"] []) [];
        Node 3 (ElementNode "div" ["protonmail_signature_block"] []) [];
        Node 7 (ElementNode "div" ["protonmail_signature_block-proton"] []) []].
Proof.
  split; [|reflexivity].
  refine (proj1 (signatureObserverCallback_handles_batch
                   [mkMutation [3; 2]; mkMutation [6]] twoBlocksExample _ _)).
  - split; [simpl; concrete_nodup | reflexivity].
  - intros m n [<- | [<- | []]]; cbn [addedNodes In]; intros H;
      repeat (destruct H as [<- | H]; [simpl; tauto|]); contradiction.
Defined.

End SignatureInvariants.

(** ** The first pass of [setupObserver] *)

Lemma forEach_noop {A} (f : A -> M unit) l F :
  (forall a, In a l -> f a F = (Val tt, F)) -> forEach l f F = (Val tt, F).
Proof.
  induction l as [|a l IH]; intros H; [reflexivity|].
  cbn [forEach]. rewrite (bind_val _ _ _ _ _ (H a (or_introl eq_refl))).
  apply IH. intros a' Ha'. apply H. right. exact Ha'.
Qed.

(** [setupObserver] on a document of a well-formed page. *)
Lemma setupObserver_runs doc pg l :
  wellFormed (dom pg) -> locate doc (dom pg) = Some l ->
  isParentNode (kind (loc_self l)) = true ->
  exists F',
    RemoveSignature.setupObserver doc pg
    = (Val tt, mkPage F' (observers pg ++ [SignatureObserver doc]))
    /\ wellFormed F'
    /\ (forall x, In x (nodesF (dom pg)) -> In x (nodesF F'))
    /\ F' = snd (forEach (map nid (allMatchesF signatureBlockSelector
                                     (childNodes (loc_self l))))
                   RemoveSignature.removeExisting (dom pg)).
Proof.
  intros Hwf Hl Hp.
  destruct (firstPass_preserves doc (dom pg) l Hwf Hl Hp) as [F' [E [Hwf' [Hin' HF']]]].
  exists F'. split; [|split; [exact Hwf' | split; [exact Hin' | exact HF']]].
  unfold RemoveSignature.setupObserver. unfold bind at 1. unfold observe at 1.
  unfold liftDom. cbn [dom observers]. rewrite E. reflexivity.
Qed.

(** The pass over one block that holds a vendor signature. *)
Lemma firstPass_one_block doc F l t :
  NoDup (idsF F) -> locate doc F = Some l ->
  allMatchesF signatureBlockSelector (childNodes (loc_self l)) = [t] ->
  holdsVendorSignature t = true ->
  snd (forEach (map nid (allMatchesF signatureBlockSelector (childNodes (loc_self l))))
         RemoveSignature.removeExisting F)
  = snd (RemoveSignature.removeSignature (nid t) F).
Proof.
  intros Hnd Hl Hone Ht. rewrite Hone. cbn [map forEach].
  assert (Hin : In t (allMatchesF signatureBlockSelector (childNodes (loc_self l))))
    by (rewrite Hone; left; reflexivity).
  destruct (allMatchesF_locate _ _ _ _ _ Hnd Hl Hin) as [l' [Hl' Hs']].
  destruct (allMatchesF_nodes _ _ _ Hin) as [_ Hsel].
  unfold bind. rewrite (removeExisting_cases (nid t) F l' Hl').
  - rewrite Hs', Ht. reflexivity.
  - rewrite Hs'. pose proof (selects_element _ _ Hsel).
    destruct (kind t); try discriminate; reflexivity.
Qed.

Section FirstPass.
Import RemoveSignature.

(** X14.  [setupObserver] on a document (or any parent node) of a
    well-formed page: it attaches one observer, for that document, and its
    pass over the signature blocks that are already there ends without a
    throw, on a well-formed forest that has lost no node.  When none of
    these blocks holds a vendor signature the pass changes nothing; when the
    document holds one block, with a vendor signature, the pass does to the
    forest what [removeSignature] does on that block. *)
Theorem setupObserver_first_pass (iframeDoc : handle) (pg : Page) (l : Loc) :
  wellFormed (dom pg) -> locate iframeDoc (dom pg) = Some l ->
  isParentNode (kind (loc_self l)) = true ->
  exists F',
    setupObserver iframeDoc pg
    = (Val tt, mkPage F' (observers pg ++ [SignatureObserver iframeDoc]))
    /\ wellFormed F'
    /\ (forall x, In x (nodesF (dom pg)) -> In x (nodesF F'))
    /\ ((forall t, In t (allMatchesF signatureBlockSelector (childNodes (loc_self l))) ->
                   holdsVendorSignature t = false) ->
        F' = dom pg)
    /\ (forall t, allMatchesF signatureBlockSelector (childNodes (loc_self l)) = [t] ->
                  holdsVendorSignature t = true ->
                  F' = snd (removeSignature (nid t) (dom pg))).
Proof.
  intros Hwf Hl Hp.
  destruct (setupObserver_runs iframeDoc pg l Hwf Hl Hp) as [F' [E [Hwf' [Hin' HF']]]].
  exists F'. split; [exact E|]. split; [exact Hwf'|]. split; [exact Hin'|]. split.
  - intros Hnone. rewrite HF'. rewrite forEach_noop; [reflexivity|].
    intros h Hh. apply in_map_iff in Hh. destruct Hh as [t [<- Ht]].
    destruct (allMatchesF_locate _ _ _ _ _ (proj1 Hwf) Hl Ht) as [l' [Hl' Hs']].
    destruct (allMatchesF_nodes _ _ _ Ht) as [_ Hsel].
    rewrite (removeExisting_cases (nid t) (dom pg) l' Hl').
    + rewrite Hs', (Hnone t Ht). reflexivity.
    + rewrite Hs'. pose proof (selects_element _ _ Hsel).
      destruct (kind t); try discriminate; reflexivity.
  - intros t Hone Ht. rewrite HF'.
    exact (firstPass_one_block iframeDoc (dom pg) l t (proj1 Hwf) Hl Hone Ht).
Qed.

(** The theorem at a composer document whose body holds a regular block
    when the observer is attached. *)
Lemma setupObserver_first_pass_witness :
  setupObserver 10 composerDocumentExample
  = (Val tt,
     mkPage
       [Node 10 DocumentNode
          [Node 11 (ElementNode "html" [] [])
             [Node 0 (ElementNode "body" [] [])
                [lineBreak 12;
                 Node 3 (ElementNode "div" ["protonmail_signature_block"] [])
                   [Node 4 (ElementNode "div" ["protonmail_signature_block-user"] []) []];
                 Node 6 (ElementNode "blockquote" [] []) []]]];
        Node 1 (ElementNode "div" [] []) [];
        Node 5 (ElementNode "div" ["protonmail_signature_block-proton"] []) []]
       [ComposerObserver; SignatureObserver 10]).
Proof.
  destruct (setupObserver_first_pass 10 composerDocumentExample
              (mkLoc None [] (Node 10 DocumentNode
                 [Node 11 (ElementNode "html" [] [])
                    [Node 0 (ElementNode "body" [] [])
                       [Node 1 (ElementNode "div" [] []) [];
                        Node 3 (ElementNode "div" ["protonmail_signature_block"] [])
                          [Node 4 (ElementNode "div" ["protonmail_signature_block-user"] []) [];
                           Node 5 (ElementNode "div" ["protonmail_signature_block-proton"] []) []];
                        Node 6 (ElementNode "blockquote" [] []) []]]]) []))
    as [F' [E [_ [_ [_ Hone]]]]].
  - split; [simpl; concrete_nodup | reflexivity].
  - reflexivity.
  - reflexivity.
  - rewrite E. rewrite (Hone _ eq_refl eq_refl). reflexivity.
Defined.

(** X18.  From the insertion of a composer to its stripped signature.  A
    composer iframe whose document becomes usable at check [k], within
    [CONFIG.maxInitAttempts] checks, and holds one signature block, with a
    vendor signature: the chain every caller builds,
    [waitForIframeDoc(iframe).then(setupObserver).catch(() => {})], ends
    fulfilled; the signature observer of that document is attached; and the
    block that was already there has been handled as [removeSignature]
    handles it. *)
Theorem watch_strips_existing_block
  (frames : Frames) (iframe : handle) (pg : Page)
  (k : nat) (doc : handle) (l : Loc) (t : Tree) :
  wellFormed (dom pg) ->
  1 <= k <= CONFIG.maxInitAttempts ->
  usable (frames iframe k) = Some doc ->
  (forall j, 1 <= j < k -> usable (frames iframe j) = None) ->
  locate doc (dom pg) = Some l -> isParentNode (kind (loc_self l)) = true ->
  allMatchesF signatureBlockSelector (childNodes (loc_self l)) = [t] ->
  holdsVendorSignature t = true ->
  watch frames iframe pg
  = (Val (Fulfilled tt),
     mkPage (snd (removeSignature (nid t) (dom pg)))
            (observers pg ++ [SignatureObserver doc])).
Proof.
  intros Hwf Hk Hdoc Hnone Hl Hp Hone Ht.
  assert (E : settlement (waitForIframeDoc (frames iframe)) = Fulfilled doc).
  { unfold waitForIframeDoc.
    apply (checkDoc_resolves (frames iframe) k doc Hdoc (k - 0) 0);
      [reflexivity | lia | lia |].
    intros j Hj. apply Hnone. lia. }
  destruct (setupObserver_runs doc pg l Hwf Hl Hp) as [F' [ES [_ [_ HF']]]].
  rewrite (firstPass_one_block doc (dom pg) l t (proj1 Hwf) Hl Hone Ht) in HF'.
  unfold watch. rewrite E. cbn [then_]. unfold bind. rewrite ES. cbn [catch_ ret].
  rewrite HF'. reflexivity.
Qed.

(** The theorem at a page with a composer whose document is usable from
    the third check on and holds a regular block. *)
Lemma watch_strips_existing_block_witness :
  watch composerFrames 2 draftPage
  = (Val (Fulfilled tt),
     mkPage
       [Node 0 (ElementNode "body" [] [])
          [Node 2 (ElementNode "iframe" [] [("title", "Email composer")]) []];
        Node 10 DocumentNode
          [Node 11 (ElementNode "html" [] [])
             [Node 12 (ElementNode "body" [] [])
                [lineBreak 18;
                 Node 14 (ElementNode "div" ["protonmail_signature_block"] [])
                   [Node 15 (ElementNode "div" ["protonmail_signature_block-user"] []) []];
                 Node 17 (ElementNode "blockquote" [] []) []]]];
        Node 13 (ElementNode "div" [] []) [];
        Node 16 (ElementNode "div" ["protonmail_signature_block-proton"] []) []]
       [ComposerObserver; SignatureObserver 10]).
Proof.
  refine (watch_strips_existing_block composerFrames 2 draftPage 3 10
            (mkLoc None []
               (Node 10 DocumentNode
                  [Node 11 (ElementNode "html" [] [])
                     [Node 12 (ElementNode "body" [] [])
                        [Node 13 (ElementNode "div" [] []) [];
                         Node 14 (ElementNode "div" ["protonmail_signature_block"] [])
                           [Node 15 (ElementNode "div" ["protonmail_signature_block-user"] []) [];
                            Node 16 (ElementNode "div" ["protonmail_signature_block-proton"] []) []];
                         Node 17 (ElementNode "blockquote" [] []) []]]]) [])
            (Node 14 (ElementNode "div" ["protonmail_signature_block"] [])
               [Node 15 (ElementNode "div" ["protonmail_signature_block-user"] []) [];
                Node 16 (ElementNode "div" ["protonmail_signature_block-proton"] []) []])
            _ _ eq_refl _ eq_refl eq_refl eq_refl eq_refl).
  - split; [simpl; concrete_nodup | reflexivity].
  - unfold CONFIG.maxInitAttempts. lia.
  - intros j Hj. unfold composerFrames. cbn [Nat.eqb].
    destruct j as [|[|[|j]]]; try reflexivity; lia.
Defined.

End FirstPass.

(** * More on the composer watcher *)

Section ComposerWatch.
Import RemoveSignature.

Lemma allMatchesT_plug_In sel t C t0 :
  In t (allMatchesT sel t0) -> In t (allMatchesT sel (plug C t0)).
Proof.
  intros H. induction C as [|f C IH]; cbn [plug]; [exact H|].
  cbn [allMatchesT]. apply in_or_app. right. apply in_flat_map.
  exists (plug C t0). split; [|exact IH]. apply in_or_app. right. left. reflexivity.
Qed.

Lemma allMatchesT_children sel t i k cs :
  In t (allMatchesF sel cs) -> In t (allMatchesT sel (Node i k cs)).
Proof. intros H. cbn [allMatchesT]. apply in_or_app. right. exact H. Qed.

Lemma no_members {A} (l : list A) : (forall a, ~ In a l) -> l = [].
Proof. destruct l as [|a l]; [reflexivity|]. intros H. exfalso. apply (H a). left. reflexivity. Qed.

(** A page without signature blocks has none below any of its nodes. *)
Lemma allMatches_below sel h F l :
  allMatchesF sel F = [] -> locate h F = Some l ->
  allMatchesF sel (childNodes (loc_self l)) = [].
Proof.
  intros Hnone Hl. apply no_members. intros t Ht.
  assert (K : In t (allMatchesF sel F)); [|rewrite Hnone in K; exact K].
  destruct (loc_self l) as [d dk cs] eqn:Hself. cbn [childNodes] in Ht.
  pose proof (allMatchesT_children sel t d dk cs Ht) as Hd.
  unfold allMatchesF. apply in_flat_map.
  destruct (locate_shape _ _ _ Hl) as [_ [[_ [_ [_ [a [b Hs]]]]] | K]].
  - destruct (split_at_some _ _ _ _ _ Hs) as [-> _]. rewrite Hself.
    exists (Node d dk cs). split; [apply in_elt | exact Hd].
  - destruct K as [p [pk [Fl [C [Fr [_ ->]]]]]]. rewrite Hself.
    exists (plug C (Node p pk (loc_left l ++ Node d dk cs :: loc_right l))).
    split; [apply in_elt|].
    apply allMatchesT_plug_In. apply allMatchesT_children.
    unfold allMatchesF. apply in_flat_map. exists (Node d dk cs).
    split; [apply in_elt | exact Hd].
Qed.

(** [setupObserver] attaches its observer whatever the first pass runs
    into. *)
Lemma setupObserver_observers doc pg :
  observers (snd (setupObserver doc pg)) = observers pg ++ [SignatureObserver doc].
Proof.
  unfold setupObserver, bind, observe, liftDom. cbn [dom observers].
  match goal with
  | |- context [let '(o, F) := ?m in _] => destruct m as [[u|e] F']
  end; reflexivity.
Qed.

(** On a page without signature blocks the first pass changes nothing. *)
Lemma setupObserver_no_blocks doc pg :
  allMatchesF signatureBlockSelector (dom pg) = [] ->
  snd (setupObserver doc pg) = mkPage (dom pg) (observers pg ++ [SignatureObserver doc]).
Proof.
  intros Hnone. unfold setupObserver, bind, observe, liftDom. cbn [dom observers].
  unfold querySelectorAll, withNode.
  destruct (locate doc (dom pg)) as [l|] eqn:Hl; [|reflexivity].
  destruct (isParentNode (kind (loc_self l))); [|reflexivity]. cbn [negb].
  change (parse_selector CONFIG.selectors.signatureBlock) with (Some signatureBlockSelector).
  cbn [ret]. rewrite (allMatches_below _ _ _ _ Hnone Hl). reflexivity.
Qed.

Lemma watch_observers frames iframe pg :
  exists pg', watch frames iframe pg = (Val (Fulfilled tt), pg')
              /\ observers pg' = observers pg ++ signatureObserverOf frames iframe
              /\ (allMatchesF signatureBlockSelector (dom pg) = [] -> dom pg' = dom pg).
Proof.
  unfold watch, bind, signatureObserverOf.
  destruct (settlement (waitForIframeDoc (frames iframe))) as [doc|r]; cbn [then_].
  - pose proof (setupObserver_observers doc pg) as Ho.
    pose proof (setupObserver_no_blocks doc pg) as Hd.
    destruct (setupObserver doc pg) as [[u|e] pg1]; cbn [catch_ ret snd] in *;
      (eexists; split; [reflexivity|]; split; [exact Ho|];
       intros Hnone; rewrite (Hd Hnone); reflexivity).
  - exists pg. cbn [ret catch_]. split; [reflexivity|]. split; [|reflexivity].
    rewrite app_nil_r. reflexivity.
Qed.

Lemma forEach_watch_observers frames iframes :
  forall pg, exists pg',
    forEach iframes (fun iframe => bind (watch frames iframe) (fun _ => ret tt)) pg
    = (Val tt, pg')
    /\ observers pg' = observers pg ++ flat_map (signatureObserverOf frames) iframes
    /\ (allMatchesF signatureBlockSelector (dom pg) = [] -> dom pg' = dom pg).
Proof.
  induction iframes as [|i l IH]; intros pg.
  - exists pg. split; [reflexivity|]. split; [|reflexivity].
    cbn [flat_map]. rewrite app_nil_r. reflexivity.
  - destruct (watch_observers frames i pg) as [pg1 [E1 [O1 D1]]].
    destruct (IH pg1) as [pg2 [E2 [O2 D2]]].
    exists pg2. cbn [forEach]. unfold bind at 1. unfold bind at 1. rewrite E1. cbn [ret].
    split; [exact E2|]. split.
    + rewrite O2, O1. cbn [flat_map]. rewrite <- app_assoc. reflexivity.
    + intros Hnone. rewrite D2; rewrite (D1 Hnone); [reflexivity | exact Hnone].
Qed.

(** The chains of a list of composers, run in any order, attach the same
    observers. *)
Lemma forEach_watch_any_order frames composers order pg :
  Permutation order composers ->
  exists pg',
    forEach order (fun iframe => bind (watch frames iframe) (fun _ => ret tt)) pg
    = (Val tt, pg')
    /\ Permutation (observers pg')
         (observers pg ++ flat_map (signatureObserverOf frames) composers).
Proof.
  intros Hperm.
  destruct (forEach_watch_observers frames order pg) as [pg' [E [O _]]].
  exists pg'. split; [exact E|]. rewrite O.
  apply Permutation_app_head. apply Permutation_flat_map. exact Hperm.
Qed.

(** X15.  The scan of [setupComposerObserver] when the script starts: the
    composer observer is attached, and for every composer iframe that is
    below the document then one chain
    [waitForIframeDoc(iframe).then(setupObserver).catch(() => {})] is built.
    Once the waits have settled the observers are, up to their order, those
    there were, the composer observer, and one signature observer for each
    iframe whose wait was fulfilled, for its document; an iframe whose wait
    was rejected gets none, and no iframe gets two.  This holds in
    whatever order the reactions of the chains run.  Nothing is thrown,
    whatever the first passes of [setupObserver] run into. *)
Theorem setupComposerObserver_scans_page
  (frames : Frames) (document : handle) (pg : Page) (l : Loc) :
  locate document (dom pg) = Some l -> isParentNode (kind (loc_self l)) = true ->
  (exists pg',
     setupComposerObserver frames document pg = (Val tt, pg')
     /\ Permutation (observers pg')
          (observers pg ++
           ComposerObserver ::
           flat_map (signatureObserverOf frames)
             (map nid (allMatchesF composerSelector (childNodes (loc_self l))))))
  /\ forall order,
       Permutation order (map nid (allMatchesF composerSelector (childNodes (loc_self l)))) ->
       exists pg',
         (observe ComposerObserver ;;;
          forEach order (fun iframe => watch frames iframe ;;; ret tt)) pg
         = (Val tt, pg')
         /\ Permutation (observers pg')
              (observers pg ++
               ComposerObserver ::
               flat_map (signatureObserverOf frames)
                 (map nid (allMatchesF composerSelector (childNodes (loc_self l))))).
Proof.
  intros Hl Hp.
  set (pg1 := mkPage (dom pg) (observers pg ++ [ComposerObserver])).
  assert (Hany : forall order,
            Permutation order
              (map nid (allMatchesF composerSelector (childNodes (loc_self l)))) ->
            exists pg',
              forEach order (fun iframe => watch frames iframe ;;; ret tt) pg1 = (Val tt, pg')
              /\ Permutation (observers pg')
                   (observers pg ++
                    ComposerObserver ::
                    flat_map (signatureObserverOf frames)
                      (map nid (allMatchesF composerSelector (childNodes (loc_self l)))))).
  { intros order Hperm.
    destruct (forEach_watch_any_order frames _ order pg1 Hperm) as [pg' [E P]].
    exists pg'. split; [exact E|]. cbn [observers pg1] in P.
    rewrite <- app_assoc in P. exact P. }
  split.
  - destruct (Hany _ (Permutation_refl _)) as [pg' [E P]].
    exists pg'. split; [|exact P].
    unfold setupComposerObserver. unfold bind at 1. unfold observe at 1. fold pg1.
    rewrite (bind_val_St _ _ pg1
               (map nid (allMatchesF composerSelector (childNodes (loc_self l)))) pg1).
    + exact E.
    + apply liftDom_val. unfold querySelectorAll, withNode. cbn [dom pg1].
      rewrite Hl, Hp, parse_composer. reflexivity.
  - intros order Hperm. destruct (Hany order Hperm) as [pg' [E P]].
    exists pg'. split; [|exact P].
    unfold bind at 1. unfold observe at 1. fold pg1. exact E.
Qed.

(** The theorem at a page with two composer iframes of which the second
    gets its document first: whether the reactions run in document order
    or in the order the waits settle, the observers are the same, up to
    their order. *)
Lemma setupComposerObserver_scans_page_witness :
  (exists pg',
     setupComposerObserver twoComposersFrames 0 twoComposersPage = (Val tt, pg')
     /\ Permutation (observers pg')
          [ComposerObserver; SignatureObserver 10; SignatureObserver 20])
  /\ exists pg',
       (observe ComposerObserver ;;;
        forEach [2; 1] (fun iframe => watch twoComposersFrames iframe ;;; ret tt))
         twoComposersPage
       = (Val tt, pg')
       /\ observers pg' = [ComposerObserver; SignatureObserver 10; SignatureObserver 20].
Proof.
  destruct (setupComposerObserver_scans_page twoComposersFrames 0 twoComposersPage
              (mkLoc None []
                 (Node 0 (ElementNode "body" [] [])
                    [Node 1 (ElementNode "iframe" [] [("title", "Email composer")]) [];
                     Node 2 (ElementNode "iframe" [] [("title", "Email composer")]) []])
                 [])
              eq_refl eq_refl) as [[pg' [E P]] _].
  split.
  - exists pg'. split; [exact E|].
    apply (Permutation_trans P). apply perm_skip. apply perm_swap.
  - eexists. split; reflexivity.
Defined.

(** X16.  The callback of the composer observer on an added node: for
    every composer iframe of the added subtree (the node itself when the
    selector selects it, and the ones below it) one chain is built, and one
    only: a composer iframe that is added by itself is not waited for
    twice, although the callback looks for composers in two ways.  Once the
    waits have settled the observers are, up to their order, those there
    were and one signature observer for each of these iframes whose wait
    was fulfilled; this holds in whatever order the reactions of the chains
    run.  Nothing is thrown.  (For the callback as a whole the page is
    taken to hold no signature block yet, so that the first pass of
    [setupObserver] has nothing to change under the callback.) *)
Theorem onComposerAdded_watches_each_composer
  (frames : Frames) (node : handle) (pg : Page) (l : Loc) :
  allMatchesF signatureBlockSelector (dom pg) = [] ->
  locate node (dom pg) = Some l ->
  (exists pg',
     onComposerAdded frames node pg = (Val tt, pg')
     /\ Permutation (observers pg')
          (observers pg ++
           flat_map (signatureObserverOf frames) (composersAt (loc_self l))))
  /\ forall order,
       Permutation order (composersAt (loc_self l)) ->
       exists pg',
         forEach order (fun iframe => watch frames iframe ;;; ret tt) pg = (Val tt, pg')
         /\ Permutation (observers pg')
              (observers pg ++
               flat_map (signatureObserverOf frames) (composersAt (loc_self l))).
Proof.
  intros Hnone Hl. split.
  2:{ intros order Hperm. exact (forEach_watch_any_order frames _ order pg Hperm). }
  exists (mkPage (dom pg)
            (observers pg ++
             flat_map (signatureObserverOf frames) (composersAt (loc_self l)))).
  split; [|apply Permutation_refl].
  unfold onComposerAdded, composersAt.
  rewrite (bind_val_St _ _ pg (nodeTypeOf (kind (loc_self l))) pg).
  2:{ apply liftDom_val. unfold nodeType, withNode. rewrite Hl. reflexivity. }
  rewrite guard_false.
  rewrite (bind_val_St _ _ pg
             (if isElement (kind (loc_self l))
              then Some (selects composerSelector (kind (loc_self l))) else None) pg).
  2:{ apply liftDom_val. unfold matches_opt, withNode. rewrite Hl.
      destruct (isElement (kind (loc_self l))); [rewrite parse_composer|]; reflexivity. }
  assert (Hsel : truthy (if isElement (kind (loc_self l))
                         then Some (selects composerSelector (kind (loc_self l)))
                         else None)
                 = selects composerSelector (kind (loc_self l))).
  { destruct (kind (loc_self l)); reflexivity. }
  rewrite Hsel. clear Hsel.
  assert (W : exists pg1,
             (if selects composerSelector (kind (loc_self l))
              then bind (watch frames node) (fun _ => ret tt) else ret tt) pg = (Val tt, pg1)
             /\ observers pg1
                = observers pg ++
                  flat_map (signatureObserverOf frames)
                    (if selects composerSelector (kind (loc_self l)) then [nid (loc_self l)]
                     else [])
             /\ dom pg1 = dom pg).
  { destruct (locate_shape _ _ _ Hl) as [Hn _]. rewrite Hn.
    destruct (selects composerSelector (kind (loc_self l))).
    - destruct (watch_observers frames node pg) as [pg1 [E1 [O1 D1]]].
      exists pg1. unfold bind. rewrite E1. cbn [ret flat_map].
      rewrite app_nil_r. split; [reflexivity|]. split; [exact O1 | exact (D1 Hnone)].
    - exists pg. cbn [ret flat_map]. rewrite app_nil_r. repeat split. }
  destruct W as [pg1 [E1 [O1 D1]]].
  rewrite (bind_val_St _ _ pg tt pg1 E1).
  assert (Hl1 : locate node (dom pg1) = Some l) by (rewrite D1; exact Hl).
  assert (Hnone1 : allMatchesF signatureBlockSelector (dom pg1) = [])
    by (rewrite D1; exact Hnone).
  destruct (isParentNode (kind (loc_self l))) eqn:Hp.
  - rewrite (bind_val_St _ _ pg1
               (Some (map nid (allMatchesF composerSelector (childNodes (loc_self l))))) pg1).
    2:{ apply liftDom_val. unfold querySelectorAll_opt, withNode.
        rewrite Hl1, Hp, parse_composer. reflexivity. }
    destruct (forEach_watch_observers frames
                (map nid (allMatchesF composerSelector (childNodes (loc_self l)))) pg1)
      as [pg2 [E2 [O2 D2]]].
    rewrite E2. f_equal. destruct pg2 as [F2 o2]. cbn [dom observers] in *.
    rewrite (D2 Hnone1), D1, O2, O1, flat_map_app, app_assoc. reflexivity.
  - rewrite (bind_val_St _ _ pg1 None pg1).
    2:{ apply liftDom_val. unfold querySelectorAll_opt, withNode.
        rewrite Hl1, Hp. reflexivity. }
    cbn [ret]. f_equal. destruct pg1 as [F1 o1]. cbn [dom observers] in *.
    rewrite D1, O1, app_nil_r. reflexivity.
Qed.

(** The theorem at a body that was added with two composer iframes inside,
    of which the second gets its document first. *)
Lemma onComposerAdded_watches_each_composer_witness :
  (exists pg',
     onComposerAdded twoComposersFrames 0 twoComposersPage = (Val tt, pg')
     /\ Permutation (observers pg') [SignatureObserver 10; SignatureObserver 20])
  /\ exists pg',
       forEach [2; 1] (fun iframe => watch twoComposersFrames iframe ;;; ret tt)
         twoComposersPage
       = (Val tt, pg')
       /\ observers pg' = [SignatureObserver 10; SignatureObserver 20].
Proof.
  destruct (onComposerAdded_watches_each_composer twoComposersFrames 0 twoComposersPage
              (mkLoc None []
                 (Node 0 (ElementNode "body" [] [])
                    [Node 1 (ElementNode "iframe" [] [("title", "Email composer")]) [];
                     Node 2 (ElementNode "iframe" [] [("title", "Email composer")]) []])
                 [])
              eq_refl eq_refl) as [[pg' [E P]] _].
  split.
  - exists pg'. split; [exact E|]. apply (Permutation_trans P). apply perm_swap.
  - eexists. split; reflexivity.
Defined.

End ComposerWatch.

(** ** Handling a block twice *)

Lemma firstMatchT_hd sel : forall t, firstMatchT sel t = hd_error (allMatchesT sel t).
Proof.
  induction t as [i k cs IH] using Tree_ind'.
  rewrite firstMatchT_eq. cbn [allMatchesT].
  destruct (selects sel k); [reflexivity|]. cbn [app].
  induction cs as [|c cs IHcs]; cbn [firstMatchF flat_map]; [reflexivity|].
  inversion IH as [|? ? Hc Hrest]; subst. rewrite Hc.
  destruct (allMatchesT sel c) as [|x xs]; cbn [hd_error app]; [exact (IHcs Hrest) | reflexivity].
Qed.

Lemma firstMatchF_hd sel l : firstMatchF sel l = hd_error (allMatchesF sel l).
Proof.
  unfold allMatchesF. induction l as [|c l IH]; cbn [firstMatchF flat_map]; [reflexivity|].
  rewrite firstMatchT_hd.
  destruct (allMatchesT sel c) as [|x xs]; cbn [hd_error app]; [exact IH | reflexivity].
Qed.

(** What a selector finds in a tree after a cut, it found before the cut,
    and it is not the node that was cut out. *)
Lemma allMatchesT_cut sel h : forall t0 t',
  In t' (allMatchesT sel (cutT h t0)) ->
  exists t, In t (allMatchesT sel t0) /\ nid t = nid t' /\ (nid t' = h -> nid t0 = h).
Proof.
  induction t0 as [i k cs IH] using Tree_ind'. intros t' H.
  cbn [cutT allMatchesT] in H. apply in_app_or in H. destruct H as [H | H].
  - destruct (selects sel k) eqn:Hs; [|contradiction]. destruct H as [<- | []].
    exists (Node i k cs). split; [|split; [reflexivity | tauto]].
    cbn [allMatchesT]. rewrite Hs. left. reflexivity.
  - apply in_flat_map in H. destruct H as [c' [Hc' Ht']].
    apply filter_In in Hc'. destruct Hc' as [Hc' Hkeep].
    apply in_map_iff in Hc'. destruct Hc' as [c [<- Hc]].
    rewrite Forall_forall in IH. destruct (IH c Hc t' Ht') as [t [Ht [Hn Hh]]].
    exists t. split; [|split; [exact Hn|]].
    + cbn [allMatchesT]. apply in_or_app. right. apply in_flat_map. exists c. tauto.
    + intros E. exfalso. specialize (Hh E). unfold keeps in Hkeep.
      rewrite nid_cutT, Hh, Nat.eqb_refl in Hkeep. discriminate.
Qed.

Lemma allMatchesF_cut sel h cs t' :
  In t' (allMatchesF sel (filter (keeps h) (map (cutT h) cs))) ->
  exists t, In t (allMatchesF sel cs) /\ nid t = nid t' /\ nid t' <> h.
Proof.
  unfold allMatchesF. intros H. apply in_flat_map in H. destruct H as [c' [Hc' Ht']].
  apply filter_In in Hc'. destruct Hc' as [Hc' Hkeep].
  apply in_map_iff in Hc'. destruct Hc' as [c [<- Hc]].
  destruct (allMatchesT_cut sel h c t' Ht') as [t [Ht [Hn Hh]]].
  exists t. split; [apply in_flat_map; exists c; tauto|]. split; [exact Hn|].
  intros E. specialize (Hh E). unfold keeps in Hkeep.
  rewrite nid_cutT, Hh, Nat.eqb_refl in Hkeep. discriminate.
Qed.

(** A block with one vendor signature holds none once that one is cut
    out. *)
Lemma no_signature_after_cut sig kids n nk :
  allMatchesF protonSignatureSelector kids = [sig] ->
  holdsVendorSignature (cutT (nid sig) (Node n nk kids)) = false.
Proof.
  intros Hone. unfold holdsVendorSignature. cbn [cutT childNodes].
  rewrite firstMatchF_hd.
  rewrite (no_members (allMatchesF protonSignatureSelector
                         (filter (keeps (nid sig)) (map (cutT (nid sig)) kids)))).
  - reflexivity.
  - intros t' Ht'. destruct (allMatchesF_cut _ _ _ _ Ht') as [t [Ht [Hn Hne]]].
    rewrite Hone in Ht. destruct Ht as [<- | []]. congruence.
Qed.

Lemma locate_child Fl C p pk l x r Fr :
  NoDup (idsF (Fl ++ plug C (Node p pk (l ++ x :: r)) :: Fr)) ->
  locate (nid x) (Fl ++ plug C (Node p pk (l ++ x :: r)) :: Fr)
  = Some (mkLoc (Some (p, pk)) l x r).
Proof.
  intros Hnd.
  exact (locate_At Fl _ Fr (mkLoc (Some (p, pk)) l x r) Hnd (At_plug C p pk l x r)).
Qed.

Section Twice.
Import RemoveSignature.

(** X17.  Handling a block twice is handling it once.  For a node under a
    parent that is no document, with at most one vendor signature below it:
    when the callback of the signature observer has run on the node, a
    second run on the same node (a second observer on the same document,
    say) finds no vendor signature and leaves the forest as the first run
    left it: no second line break, no further sibling removed. *)
Theorem onSignatureAdded_twice (n : handle) (F : Forest) (l : Loc) :
  wellFormed F -> locate n F = Some l -> attached l = true ->
  List.length (allMatchesF protonSignatureSelector (childNodes (loc_self l))) <= 1 ->
  onSignatureAdded n (snd (onSignatureAdded n F))
  = (Val tt, snd (onSignatureAdded n F)).
Proof.
  intros Hwf Hl Hat Hone.
  rewrite (onSignatureAdded_cases n F l Hl). cbn [snd].
  destruct (isStrippable (loc_self l)) eqn:Hs.
  2:{ rewrite (onSignatureAdded_cases n F l Hl), Hs. reflexivity. }
  unfold isStrippable in Hs. apply andb_true_iff in Hs. destruct Hs as [Hc Hv].
  pose proof (hasClass_element _ _ Hc) as Hk.
  destruct (removeSignature_invariant n F l Hwf Hl Hk) as [[Hnd1 _] _].
  destruct (locate_shape _ _ _ Hl) as [Hn [[Hp _] | K]].
  { unfold attached in Hat. rewrite Hp in Hat. discriminate. }
  destruct K as [p [pk [Fl [C [Fr [Hp ->]]]]]].
  unfold attached in Hat. rewrite Hp in Hat. apply negb_true_iff in Hat.
  destruct (loc_self l) as [i k kids] eqn:Hself. cbn [nid kind childNodes] in *. subst i.
  assert (Hwf' := Hwf).
  pose proof (wellFormed_focus _ _ _ _ Hwf') as Hh.
  pose proof (hierarchyT_parent _ _ _ _ _ Hh) as Hpk.
  rewrite <- (shape_nil Fl Fr C p pk) in *.
  rewrite (removeSignature_attached Fl Fr C p pk _ n k kids _ Hk Hpk Hat (proj1 Hwf)) in *.
  cbv zeta in *.
  destruct (firstMatchF protonSignatureSelector kids) as [sig|] eqn:HS; [|discriminate].
  cbn [snd] in *.
  assert (Hsig : allMatchesF protonSignatureSelector kids = [sig]).
  { rewrite firstMatchF_hd in HS.
    destruct (allMatchesF protonSignatureSelector kids) as [|x [|y ys]];
      cbn [hd_error List.length] in *; [discriminate | congruence | lia]. }
  set (LD := siblingCleanup (truthy (isEmptySignatureOf kids)) (loc_left l)) in *.
  set (BR := Node _ (ElementNode "br" [] []) []) in *.
  unfold shape in *.
  replace (fst LD ++ BR :: cutT (nid sig) (Node n k kids) :: loc_right l)
    with ((fst LD ++ [BR]) ++ cutT (nid sig) (Node n k kids) :: loc_right l) in *
    by (rewrite <- app_assoc; reflexivity).
  pose proof (locate_child Fl C p pk (fst LD ++ [BR]) (cutT (nid sig) (Node n k kids))
                (loc_right l) _ Hnd1) as Hl1.
  rewrite nid_cutT in Hl1. cbn [nid] in Hl1.
  rewrite (onSignatureAdded_cases n _ _ Hl1). cbn [loc_self].
  unfold isStrippable.
  fold (holdsVendorSignature (cutT (nid sig) (Node n k kids))).
  rewrite (no_signature_after_cut sig kids n k Hsig), andb_false_r. reflexivity.
Qed.

(** The theorem at the composer body with the regular block. *)
Lemma onSignatureAdded_twice_witness :
  onSignatureAdded 3 (snd (onSignatureAdded 3 regularExample))
  = (Val tt, snd (onSignatureAdded 3 regularExample)).
Proof.
  refine (onSignatureAdded_twice 3 regularExample
            (mkLoc (Some (0, ElementNode "body" [] []))
               [Node 1 (ElementNode "div" [] []) []; Node 2 (TextNode "") []]
               (Node 3 (ElementNode "div" ["protonmail_signature_block"] [])
                  [Node 4 (ElementNode "div" ["protonmail_signature_block-user"] []) [];
                   Node 5 (ElementNode "div" ["protonmail_signature_block-proton"] []) []])
               [Node 6 (ElementNode "blockquote" [] []) []])
            _ eq_refl eq_refl _).
  - split; [simpl; concrete_nodup | reflexivity].
  - simpl. lia.
Defined.

End Twice.
